(** * zi-lead-generation: a shallow embedding of the crawl engine

    The JavaScript sources embedded here are
    - [config/searchParams.js]   (module [SearchParams]),
    - [services/bucketService.js] (module [BucketService]),
    - [services/stateManager.js]  (module [StateManager]),
    - [services/zoomInfoService.js] (module [ZoomInfoService]),
    - [services/leadProcessor.js] (module [LeadProcessor]),
    - [utils/csvWriter.js]       (module [CsvWriter]),
    - [index.js]                 (module [Main]).

    JavaScript strings are modelled as [string]; every [ascii] stands for one
    UTF-16 code unit below 256.  Arrays are lists, [Set] objects are [gset]s,
    absent or [null] properties are [None].  Everything the outside world
    decides (HTTP answers, file-system results, the clock) is read from an
    environment record indexed by the number of interactions made so far, so
    that an environment stands for one arbitrary sequence of answers. *)

From Stdlib Require Import ZArith Ascii String List Bool Lia.
From stdpp Require Import base decidable option list gmap strings pretty sorting.

Local Open Scope string_scope.
Local Open Scope Z_scope.
Local Open Scope list_scope.

(** ** JavaScript string primitives *)

Module JS.

(** Truthiness of a string value: only the empty string is falsy. *)
Definition nonEmpty (s : string) : bool :=
  match s with EmptyString => false | String _ _ => true end.

(** Truthiness of an optional string property ([undefined], [null] and the
    empty string are falsy). *)
Definition truthy (o : option string) : bool :=
  match o with Some s => nonEmpty s | None => false end.

(** [a || b] on string-valued properties. *)
Definition orElse (o : option string) (d : string) : string :=
  match o with
  | Some s => if nonEmpty s then s else d
  | None => d
  end.

(** White space and line terminators removed by [String.prototype.trim],
    restricted to code units below 256: TAB, LF, VT, FF, CR, SP, NBSP. *)
Definition isWhiteSpace (c : ascii) : bool :=
  let n := N_of_ascii c in
  ((9 <=? n) && (n <=? 13) || (n =? 32) || (n =? 160))%N.

Fixpoint dropWhile (p : ascii -> bool) (s : string) : string :=
  match s with
  | EmptyString => EmptyString
  | String c s' => if p c then dropWhile p s' else s
  end.

(** Removes the longest suffix whose characters all satisfy [p]. *)
Fixpoint dropWhileEnd (p : ascii -> bool) (s : string) : string :=
  match s with
  | EmptyString => EmptyString
  | String c s' =>
      match dropWhileEnd p s' with
      | EmptyString => if p c then EmptyString else String c EmptyString
      | r => String c r
      end
  end.

Definition trim (s : string) : string :=
  dropWhileEnd isWhiteSpace (dropWhile isWhiteSpace s).

(** [s.split(sep)] for a one-character separator; the result is never
    empty (splitting the empty string gives one empty part). *)
Fixpoint split (sep : ascii) (s : string) : list string :=
  match s with
  | EmptyString => [EmptyString]
  | String c s' =>
      if Ascii.eqb c sep then EmptyString :: split sep s'
      else match split sep s' with
           | h :: t => String c h :: t
           | [] => [String c EmptyString]
           end
  end.

(** [s.includes(sub)]. *)
Fixpoint includes (sub s : string) : bool :=
  String.prefix sub s ||
  match s with
  | EmptyString => false
  | String _ s' => includes sub s'
  end.

Definition startsIn (p : ascii -> bool) (s : string) : bool :=
  match s with EmptyString => false | String c _ => p c end.

Fixpoint endsIn (p : ascii -> bool) (s : string) : bool :=
  match s with
  | EmptyString => false
  | String c EmptyString => p c
  | String _ s' => endsIn p s'
  end.

Fixpoint allChars (p : ascii -> bool) (s : string) : bool :=
  match s with
  | EmptyString => true
  | String c s' => p c && allChars p s'
  end.

Definition differs (sep : ascii) (c : ascii) : bool := negb (Ascii.eqb c sep).

(** *** [Number.prototype.toString] on integers

    A number reaches the program as the integer literal of a JSON
    response and is the double nearest to it.  Up to [2^53] in magnitude
    that double is the integer itself, and its string form is the integer
    in decimal.  Beyond, the string form is made of the shortest digits
    that still denote this double, padded with zeros up to 21 digits and
    in exponent notation from [1e21] on. *)

(** The double nearest to an integer [a >= 2^53] (ties go to the even
    mantissa), as a mantissa below [2^53] and a binary exponent; [None]
    beyond the largest double. *)
Definition nearestDouble (a : Z) : option (Z * Z) :=
  let e := Z.log2 a - 52 in
  let q := a / 2 ^ e in
  let r := a mod 2 ^ e in
  let half := 2 ^ (e - 1) in
  let m := if (half <? r) || ((half =? r) && Z.odd q) then q + 1 else q in
  let '(m, e) := if m =? 2 ^ 53 then (2 ^ 52, e + 1) else (m, e) in
  if 971 <? e then None else Some (m, e).

(** Twice the bounds of the interval of reals that round to [m * 2^e]
    (for [e >= 1]), and whether the bounds belong to it. *)
Definition roundingInterval (m e : Z) : Z * Z * bool :=
  let v2 := 2 * (m * 2 ^ e) in
  (v2 - (if m =? 2 ^ 52 then 2 ^ (e - 1) else 2 ^ e), v2 + 2 ^ e, Z.even m).

(** The least and the greatest [s] with [s * 10^p] inside the interval. *)
Definition multiplesWithin (iv : Z * Z * bool) (p : Z) : Z * Z :=
  let '(lo, hi, closed) := iv in
  let u := 2 * 10 ^ p in
  if closed then ((lo + u - 1) / u, hi / u) else ((lo + u) / u, (hi - 1) / u).

(** The largest power of ten, from [p] on, that has a multiple inside the
    interval. *)
Fixpoint largestPower (fuel : nat) (iv : Z * Z * bool) (p : Z) : Z :=
  match fuel with
  | O => p
  | S fuel' =>
      let '(sLo, sHi) := multiplesWithin iv (p + 1) in
      if sLo <=? sHi then largestPower fuel' iv (p + 1) else p
  end.

(** The shortest decimal [s * 10^p] that rounds to [m * 2^e]; among
    several, the one nearest to it. *)
Definition shortestDigits (m e : Z) : Z * Z :=
  let iv := roundingInterval m e in
  let p := largestPower 400 iv 0 in
  let '(sLo, sHi) := multiplesWithin iv p in
  let v2 := 2 * (m * 2 ^ e) in
  let u := 2 * 10 ^ p in
  let s0 := v2 / u in
  let s1 := s0 + 1 in
  let d0 := v2 - s0 * u in
  let d1 := s1 * u - v2 in
  let s := if s0 <? sLo then s1
           else if sHi <? s1 then s0
           else if d0 <? d1 then s0
           else if d1 <? d0 then s1
           else if Z.even s0 then s0 else s1 in
  (s, p).

Definition zeros (n : Z) : string :=
  String.concat "" (replicate (Z.to_nat n) "0").

(** The string form of the double nearest to [a >= 2^53]. *)
Definition largeToString (a : Z) : string :=
  match nearestDouble a with
  | None => "Infinity"
  | Some (m, e) =>
      let '(s, p) := shortestDigits m e in
      let digits := pretty s in
      let n := Z.of_nat (String.length digits) + p in
      if n <=? 21 then digits +:+ zeros p
      else
        match digits with
        | String d EmptyString =>
            String d EmptyString +:+ "e+" +:+ pretty (n - 1)
        | String d rest =>
            String d EmptyString +:+ "." +:+ rest +:+ "e+" +:+ pretty (n - 1)
        | EmptyString => EmptyString
        end
  end.

(** The string form of the number that the integer literal [n] denotes. *)
Definition numberToString (n : Z) : string :=
  if Z.abs n <? 2 ^ 53 then pretty n
  else if n <? 0 then "-" +:+ largeToString (- n) else largeToString n.

End JS.

(** ** config/searchParams.js *)

Module SearchParams.
Import JS.

Record NaicsEntry := { neNaicsCode : string; neName : string }.

(** One element of [search_parameters]; a list that is missing from the
    JSON object is [None]. *)
Record Group := {
  locations : option (list string);
  job_titles : option (list string);
  naics_codes : option (list NaicsEntry)
}.

Record Combination := {
  groupIndex : nat;
  location : string;
  naicsCode : string;
  naicsName : string;
  jobTitle : string
}.

Definition lbrace : ascii := "{"%char.
Definition rbrace : ascii := "}"%char.
Definition dquote : ascii := "034"%char.
Definition comma : ascii := ","%char.

(** The first character class of the regular expression of
    [cleanJobTitles]: left brace, double quote, right brace. *)
Definition isLeadJunk (c : ascii) : bool :=
  Ascii.eqb c lbrace || Ascii.eqb c dquote || Ascii.eqb c rbrace.

(** Its second character class: double quote, right brace. *)
Definition isTrailJunk (c : ascii) : bool :=
  Ascii.eqb c dquote || Ascii.eqb c rbrace.

(** The global [title.replace] of [cleanJobTitles], whose pattern is
    a run of the first class at the start, or a run of the second class at
    the end.  The first alternative can only match at index 0 and takes
    the longest run there; the scan then goes on behind it, where only the
    second alternative can match, at the start of the longest suffix made
    of the second class. *)
Definition stripJunk (title : string) : string :=
  dropWhileEnd isTrailJunk (dropWhile isLeadJunk title).

Definition cleanTitle (title : string) : list string :=
  if nonEmpty title
  then filter (fun t => nonEmpty t = true) (map trim (split comma (stripJunk title)))
  else [].

Definition cleanJobTitles (jobTitles : list string) : list string :=
  flat_map cleanTitle jobTitles.

(** [!xs?.length] *)
Definition lacks {A} (xs : option (list A)) : bool :=
  match xs with
  | Some (_ :: _) => false
  | _ => true
  end.

Definition orNil {A} (xs : option (list A)) : list A :=
  match xs with Some l => l | None => [] end.

(** The body of the loop over groups of [getSearchCombinations]. *)
Definition groupCombinations (gi : nat) (g : Group) : list Combination :=
  if lacks (locations g) || lacks (job_titles g) || lacks (naics_codes g)
  then []
  else
    let cleanedJobTitles := cleanJobTitles (orNil (job_titles g)) in
    flat_map (fun loc =>
      flat_map (fun nc =>
        map (fun jt =>
               {| groupIndex := gi;
                  location := trim loc;
                  naicsCode := neNaicsCode nc;
                  naicsName := neName nc;
                  jobTitle := trim jt |})
            cleanedJobTitles)
        (orNil (naics_codes g)))
      (orNil (locations g)).

Definition getSearchCombinations (searchParameterGroups : list Group)
  : list Combination :=
  concat (imap groupCombinations searchParameterGroups).

Definition getValidGroupCount (groups : list Group) : nat :=
  length (filter (fun g =>
    (negb (lacks (locations g)) && negb (lacks (job_titles g))
     && negb (lacks (naics_codes g))) = true) groups).

(** The count the specification gives for one group: the product of the
    three sizes when the three lists are present and non-empty, zero
    otherwise. *)
Definition specGroupCount (g : Group) : nat :=
  match locations g, job_titles g, naics_codes g with
  | Some (l :: ls), Some (t :: ts), Some (n :: ns) =>
      (length (l :: ls) * length (cleanJobTitles (t :: ts)) * length (n :: ns))%nat
  | _, _, _ => 0%nat
  end.

(** A title that the second cleaning pass leaves alone at both ends. *)
Definition bareEnds (t : string) : bool :=
  negb (startsIn isLeadJunk t) && negb (endsIn isTrailJunk t).

(** What one pass of cleaning guarantees about every title it returns:
    non-empty, without comma, trimmed. *)
Definition tidy (t : string) : bool :=
  nonEmpty t && allChars (differs comma) t
  && negb (startsIn isWhiteSpace t) && negb (endsIn isWhiteSpace t).

(** An already-clean title: tidy, and without brace or quote characters at
    its ends. *)
Definition alreadyClean (t : string) : bool :=
  tidy t && bareEnds t.

End SearchParams.

(** ** Errors, outcomes and results of input/output *)

Module Effects.

(** A JavaScript error object: its [message], and for an HTTP failure
    raised by axios the [response.status] and the [retry-after] header. *)
Record JsError := {
  message : string;
  status : option nat;
  retryAfter : option Z
}.

Definition plainError (msg : string) : JsError :=
  {| message := msg; status := None; retryAfter := None |}.

(** What calling a function gives: it returns, or it throws. *)
Inductive Outcome (A : Type) : Type :=
| Returned (a : A)
| Threw (e : JsError).
Arguments Returned {A} a.
Arguments Threw {A} e.

(** What awaiting a file-system or bucket operation gives. *)
Inductive IoResult : Type :=
| IoOk
| IoFail (e : JsError).

End Effects.

(** ** services/bucketService.js *)

Module BucketService.
Import JS Effects.

(** [ziId.toString()]: the service asks whatever it is handed as an
    identifier for its string form, and uses nothing else of it.  A type
    of identifiers is any type of values with that method. *)
Class ToString (A : Type) := toString : A -> string.

(** [String.prototype.toString] returns the string itself. *)
#[global] Instance stringToString : ToString string := fun s => s.

(** A company identifier as the API hands it over: a number, given by the
    integer literal of the response, or a string. *)
Inductive ZiId : Type :=
| NumId (n : Z)
| StrId (s : string).

#[global] Instance ziIdToString : ToString ZiId :=
  fun ziId =>
    match ziId with
    | NumId n => numberToString n
    | StrId s => s
    end.

(** [this.companyExclusions.has(ziId.toString())] *)
Definition isCompanyExcluded `{ToString A} (companyExclusions : gset string)
    (ziId : A) : bool :=
  bool_decide (toString ziId ∈ companyExclusions).

(** [newZiIds.forEach(ziId => this.companyExclusions.add(ziId.toString()))] *)
Definition addAll `{ToString A} (newZiIds : list A)
    (companyExclusions : gset string) : gset string :=
  foldl (fun acc ziId => acc ∪ {[ toString ziId ]}) companyExclusions newZiIds.

(** [updateCompanyExclusions]: the set is extended first; then the list is
    written to the local file and uploaded, and a failure of either is
    logged and thrown again. *)
Definition updateCompanyExclusions `{ToString A} (newZiIds : list A)
    (writeFile uploadCSVFile : IoResult) (companyExclusions : gset string)
  : Outcome unit * gset string :=
  let companyExclusions' := addAll newZiIds companyExclusions in
  match writeFile with
  | IoFail error => (Threw error, companyExclusions')
  | IoOk =>
      match uploadCSVFile with
      | IoFail error => (Threw error, companyExclusions')
      | IoOk => (Returned tt, companyExclusions')
      end
  end.

Definition getExclusionCount (companyExclusions : gset string) : nat :=
  size companyExclusions.

(** The two operations a running process applies to the set. *)
Inductive Op : Type :=
| IsExcluded (ziId : ZiId)
| Update (newZiIds : list ZiId) (writeFile uploadCSVFile : IoResult).

Definition runOp (companyExclusions : gset string) (op : Op) : gset string :=
  match op with
  | IsExcluded _ => companyExclusions
  | Update ids w u => snd (updateCompanyExclusions ids w u companyExclusions)
  end.

Definition runOps (ops : list Op) (companyExclusions : gset string)
  : gset string :=
  foldl runOp companyExclusions ops.

End BucketService.

(** ** services/stateManager.js *)

Module StateManager.
Import Effects.

(** [this.state].  [currentCombinationIndex] and [completedTime] are not
    part of the initial object, hence optional.  Time stamps are
    milliseconds. *)
Record State := {
  currentStateIndex : nat;
  currentNaicsIndex : nat;
  currentJobTitleIndex : nat;
  currentCombinationIndex : option nat;
  currentPage : Z;
  processedCompanies : Z;
  processedContacts : Z;
  startTime : option Z;
  lastSaveTime : option Z;
  completed : bool;
  completedTime : option Z
}.

Definition initialState : State :=
  {| currentStateIndex := 0; currentNaicsIndex := 0;
     currentJobTitleIndex := 0; currentCombinationIndex := None;
     currentPage := 1; processedCompanies := 0; processedContacts := 0;
     startTime := None; lastSaveTime := None; completed := false;
     completedTime := None |}.

(** The manager: the object in memory, and the record that the last
    successful write left in [vm-state.json].  What a failed write leaves
    in the file (it may be cut short) is not modelled: after a failure
    this field still names the last record written successfully, and
    nothing is claimed about the content of the file.  Nor is the
    autosave timer of the constructor modelled, which calls [saveState]
    every 30 seconds beside the processor: [lastSaveTime] and the file
    are only followed through the saves that the program itself
    requests. *)
Record t := {
  state : State;
  stateFile : option State
}.

(** The argument of [updateProgress], with the properties that the
    processor passes.  ([Object.assign] would copy any other property of
    its argument as well; no caller passes one.) *)
Record Updates := {
  uCombinationIndex : option nat;
  uPage : option Z;
  uProcessedCompanies : option Z;
  uProcessedContacts : option Z
}.

(** [Object.assign(this.state, updates)] *)
Definition assign (s : State) (u : Updates) : State :=
  {| currentStateIndex := currentStateIndex s;
     currentNaicsIndex := currentNaicsIndex s;
     currentJobTitleIndex := currentJobTitleIndex s;
     currentCombinationIndex :=
       match uCombinationIndex u with
       | Some i => Some i
       | None => currentCombinationIndex s
       end;
     currentPage := default (currentPage s) (uPage u);
     processedCompanies := default (processedCompanies s) (uProcessedCompanies u);
     processedContacts := default (processedContacts s) (uProcessedContacts u);
     startTime := startTime s;
     lastSaveTime := lastSaveTime s;
     completed := completed s;
     completedTime := completedTime s |}.

Definition updateProgress (updates : Updates) (sm : t) : t :=
  {| state := assign (state sm) updates; stateFile := stateFile sm |}.

(** [getCurrentState] returns a copy of the object. *)
Definition getCurrentState (sm : t) : State := state sm.

Definition withLastSaveTime (now : Z) (s : State) : State :=
  {| currentStateIndex := currentStateIndex s;
     currentNaicsIndex := currentNaicsIndex s;
     currentJobTitleIndex := currentJobTitleIndex s;
     currentCombinationIndex := currentCombinationIndex s;
     currentPage := currentPage s;
     processedCompanies := processedCompanies s;
     processedContacts := processedContacts s;
     startTime := startTime s;
     lastSaveTime := Some now;
     completed := completed s;
     completedTime := completedTime s |}.

Definition withCompleted (now : Z) (s : State) : State :=
  {| currentStateIndex := currentStateIndex s;
     currentNaicsIndex := currentNaicsIndex s;
     currentJobTitleIndex := currentJobTitleIndex s;
     currentCombinationIndex := currentCombinationIndex s;
     currentPage := currentPage s;
     processedCompanies := processedCompanies s;
     processedContacts := processedContacts s;
     startTime := startTime s;
     lastSaveTime := lastSaveTime s;
     completed := true;
     completedTime := Some now |}.

Definition withStartTime (now : Z) (s : State) : State :=
  {| currentStateIndex := currentStateIndex s;
     currentNaicsIndex := currentNaicsIndex s;
     currentJobTitleIndex := currentJobTitleIndex s;
     currentCombinationIndex := currentCombinationIndex s;
     currentPage := currentPage s;
     processedCompanies := processedCompanies s;
     processedContacts := processedContacts s;
     startTime := Some now;
     lastSaveTime := lastSaveTime s;
     completed := completed s;
     completedTime := completedTime s |}.

(** [saveState]: stamps [lastSaveTime], creates the directory and writes
    the file; [write] is the result of these two steps.  The [catch] block
    logs the error and does not throw it again. *)
Definition saveState (now : Z) (write : IoResult) (sm : t)
  : Outcome unit * t :=
  let st := withLastSaveTime now (state sm) in
  match write with
  | IoOk => (Returned tt, {| state := st; stateFile := Some st |})
  | IoFail error => (Returned tt, {| state := st; stateFile := stateFile sm |})
  end.

(** What reading and parsing [vm-state.json] gives; [Parsed s] carries the
    object obtained by spreading the parsed record over the current one. *)
Inductive ReadResult : Type :=
| Parsed (s : State)
| NoEntry
| ReadFail (e : JsError).

Definition loadState (now : Z) (read : ReadResult) (sm : t)
  : Outcome unit * t :=
  match read with
  | Parsed s => (Returned tt, {| state := s; stateFile := stateFile sm |})
  | NoEntry =>
      (Returned tt,
       {| state := withStartTime now (state sm); stateFile := stateFile sm |})
  | ReadFail error => (Threw error, sm)
  end.

(** [markCompleted]; the save it starts cannot fail visibly. *)
Definition markCompleted (now : Z) (write : IoResult) (sm : t) : t :=
  snd (saveState now write
         {| state := withCompleted now (state sm); stateFile := stateFile sm |}).

End StateManager.

(** ** services/zoomInfoService.js *)

Module ZoomInfoService.
Import JS Effects.

Record Config := {
  rateLimitDelay : Z;
  (** [parseInt(process.env.MAX_RETRIES) || 3]; a negative value allows no
      retry, like 0. *)
  maxRetries : nat
}.

(** The content of [zi-token.json]. *)
Record Credential := { token : string; expiresAt : Z }.

Inductive Event : Type :=
| Sleep (ms : Z)
| Authenticate
| WriteTokenFile
| UnlinkTokenFile
| Post (endpoint : string) (bearer : string).

(** The service object, the credential that the last successful write
    left in the token file (what a failed write leaves there is not
    modelled), and the interactions so far (oldest first). *)
Record t := {
  currentToken : option string;
  tokenExpiresAt : option Z;
  tokenFile : option Credential;
  tick : nat;
  trace : list Event
}.

Definition emit (ev : Event) (s : t) : t :=
  {| currentToken := currentToken s; tokenExpiresAt := tokenExpiresAt s;
     tokenFile := tokenFile s; tick := S (tick s);
     trace := trace s ++ [ev] |}.

Definition setMemory (tok : string) (exp : Z) (s : t) : t :=
  {| currentToken := Some tok; tokenExpiresAt := Some exp;
     tokenFile := tokenFile s; tick := tick s; trace := trace s |}.

Definition setFile (f : option Credential) (s : t) : t :=
  {| currentToken := currentToken s; tokenExpiresAt := tokenExpiresAt s;
     tokenFile := f; tick := tick s; trace := trace s |}.

Section Client.
Context {Params Payload : Type}.

(** The outside world: the clock, the authentication endpoint, the write
    of the token file, and the API endpoints, each asked at the current
    [tick]. *)
Record Env := {
  now : nat -> Z;
  authenticate : nat -> Outcome string;
  writeToken : nat -> IoResult;
  post : nat -> string -> Params -> string -> Outcome Payload
}.

Variable env : Env.
Variable cfg : Config.

Definition sleep (ms : Z) (s : t) : t := emit (Sleep ms) s.

Definition refreshError (error : JsError) : JsError :=
  plainError ("Token refresh failed: " +:+ message error).

Definition refreshToken (s : t) : Outcome string * t :=
  let s1 := emit Authenticate s in
  match authenticate env (tick s) with
  | Threw error => (Threw (refreshError error), s1)
  | Returned jwt =>
      let exp := now env (tick s1) + 60 * 60 * 1000 in
      let s2 := setMemory jwt exp s1 in
      let s3 := emit WriteTokenFile s2 in
      match writeToken env (tick s2) with
      | IoFail error => (Threw (refreshError error), s3)
      | IoOk =>
          (Returned jwt,
           setFile (Some {| token := jwt; expiresAt := exp |}) s3)
      end
  end.

Definition memoryTokenValid (s : t) : option string :=
  match currentToken s, tokenExpiresAt s with
  | Some tok, Some exp =>
      if nonEmpty tok && (now env (tick s) <? exp) then Some tok else None
  | _, _ => None
  end.

Definition getJwtToken (s : t) : Outcome string * t :=
  match memoryTokenValid s with
  | Some tok => (Returned tok, s)
  | None =>
      match tokenFile s with
      | Some cred =>
          if now env (tick s) <? expiresAt cred
          then (Returned (token cred),
                setMemory (token cred) (expiresAt cred) s)
          else refreshToken s
      | None => refreshToken s
      end
  end.

Definition statusText (error : JsError) : string :=
  match status error with
  | Some (S n) => pretty (S n)
  | _ => "unknown"
  end.

Definition callError (operation : string) (error : JsError) : JsError :=
  plainError (operation +:+ " failed: " +:+ statusText error +:+ " - "
              +:+ message error).

(** The [try] block of [makeAPICall]. *)
Definition attempt (endpoint : string) (params : Params) (s : t)
  : Outcome Payload * t :=
  let s1 := sleep (rateLimitDelay cfg) s in
  match getJwtToken s1 with
  | (Threw error, s2) => (Threw error, s2)
  | (Returned tok, s2) =>
      (post env (tick s2) endpoint params tok, emit (Post endpoint tok) s2)
  end.

(** [makeAPICall], by recursion on [maxRetries - retryCount]: the test
    [retryCount < this.maxRetries] holds exactly when this difference is
    a successor. *)
Fixpoint makeAPICallFrom (retriesLeft : nat) (endpoint : string)
    (params : Params) (operation : string) (s : t) : Outcome Payload * t :=
  match attempt endpoint params s with
  | (Returned data, s1) => (Returned data, s1)
  | (Threw error, s1) =>
      match status error, retriesLeft with
      | Some 401%nat, S k =>
          makeAPICallFrom k endpoint params operation
            (setFile None (emit UnlinkTokenFile s1))
      | Some 429%nat, S k =>
          makeAPICallFrom k endpoint params operation
            (sleep (default 60 (retryAfter error) * 1000) s1)
      | Some 429%nat, O =>
          (Threw (callError operation error),
           sleep (default 60 (retryAfter error) * 1000) s1)
      | _, _ => (Threw (callError operation error), s1)
      end
  end.

Definition makeAPICall (endpoint : string) (params : Params)
    (operation : string) (retryCount : nat) (s : t)
  : Outcome Payload * t :=
  makeAPICallFrom (maxRetries cfg - retryCount) endpoint params operation s.

Definition searchCompanies (params : Params) :=
  makeAPICall "search/company" params "Company search" 0.

(** The bearer tokens of the API calls of a trace, oldest first. *)
Definition bearers (tr : list Event) : list string :=
  omap (fun ev => match ev with Post _ b => Some b | _ => None end) tr.

Definition renewals (tr : list Event) : nat :=
  length (omap (fun ev => match ev with Authenticate => Some tt | _ => None end) tr).

End Client.

End ZoomInfoService.

(** ** services/leadProcessor.js *)

Module LeadProcessor.
Import JS Effects BucketService.

(** [parseInt(process.env.BATCH_SIZE) || 50]: an integer other than 0. *)
Record Config := { batchSize : Z }.

(** *** What the API returns *)

Record Company := {
  coId : ZiId;
  coName : string;
  coWebsite : option string;
  coPhone : option string
}.

Record Contact := {
  ctId : ZiId;
  ctFirstName : option string;
  ctLastName : option string;
  ctJobTitle : option string
}.

Record CompanyResults := {
  crData : option (list Company);
  crTotalCount : option Z
}.

Record ContactResults := { ktData : option (list Contact) }.

Record EnrichedData := {
  email : option string;
  phone : option string;
  mobilePhone : option string
}.

(** The nesting of an enrichment response:
    [response.data.result[0].data[0]]. *)
Record EnrichResult := { erData : option (list EnrichedData) }.
Record EnrichBody := { ebResult : option (list EnrichResult) }.
Record EnrichResponse := { rsData : option EnrichBody }.

(** *** What the processor sends and produces *)

Record CompanySearchParams := {
  metroRegion : option string;
  state : option string;
  naicsCodes : string;
  rpp : Z;
  page : Z
}.

Record ContactSearchParams := {
  companyId : string;
  jobTitle : string;
  contactAccuracyScoreMin : string;
  excludePartialProfiles : bool;
  ctRpp : Z
}.

Record CompanyData := {
  cdZiId : string;
  cdName : string;
  cdState : string;
  cdMetroRegion : string;
  cdNaicsCode : string;
  cdWebsite : string;
  cdPhone : string
}.

Record ContactData := {
  kdZiId : string;
  kdCompanyZiId : string;
  kdCompanyName : string;
  kdName : string;
  kdJobTitle : string;
  kdEmail : string;
  kdPhone : string;
  kdMobilePhone : string;
  kdState : string;
  kdMetroRegion : string;
  kdNaicsCode : string
}.

Inductive Event : Type :=
| CompanySearch (params : CompanySearchParams)
| ContactSearch (params : ContactSearchParams)
| Enrich (personId : string)
| ExclusionsWrite
| ResultsSave (companies contacts : nat)
| StateWrite.

(** The collaborators of the processor, each asked at the current [tick]:
    the three calls of the API client (which return or throw), the write
    and the upload of the exclusion list, the CSV export with its upload,
    the write of the state file, and the clock. *)
Record Env := {
  searchCompanies : nat -> CompanySearchParams -> Outcome CompanyResults;
  searchContacts : nat -> ContactSearchParams -> Outcome ContactResults;
  enrichContact : nat -> string -> Outcome EnrichResponse;
  persistExclusions : nat -> IoResult * IoResult;
  storeResults : nat -> IoResult;
  writeState : nat -> IoResult;
  clock : nat -> Z
}.

(** The state manager, the exclusion set of the bucket service, and the
    interactions so far (oldest first). *)
Record World := {
  sm : StateManager.t;
  companyExclusions : gset string;
  tick : nat;
  trace : list Event
}.

Definition emit (ev : Event) (w : World) : World :=
  {| sm := sm w; companyExclusions := companyExclusions w;
     tick := S (tick w); trace := trace w ++ [ev] |}.

Definition withSm (f : StateManager.t -> StateManager.t) (w : World) : World :=
  {| sm := f (sm w); companyExclusions := companyExclusions w;
     tick := tick w; trace := trace w |}.

Definition withExclusions (s : gset string) (w : World) : World :=
  {| sm := sm w; companyExclusions := s; tick := tick w; trace := trace w |}.

(** The page numbers of the company searches of a trace, oldest first. *)
Definition searchedPages (tr : list Event) : list Z :=
  omap (fun ev => match ev with
                  | CompanySearch params => Some (page params)
                  | _ => None
                  end) tr.

(** A step that issues no company search and leaves the exclusion set
    alone. *)
Definition quietStep (w w' : World) : Prop :=
  searchedPages (trace w') = searchedPages (trace w)
  /\ companyExclusions w' = companyExclusions w.


(** A property that holds a non-empty string. *)
Definition populated (o : option string) : Prop :=
  exists s, o = Some s /\ s <> "".

Definition isMetroRegion (location : string) : bool :=
  includes " - " location || includes ", " location.

Definition ceilDiv (a b : Z) : Z := - ((- a) / b).

(** [Math.ceil(companyResults.totalCount / this.batchSize)]; [None] is NaN
    (no [totalCount]). *)
Definition totalPages (cfg : Config) (companyResults : CompanyResults)
  : option Z :=
  match crTotalCount companyResults with
  | Some totalCount => Some (ceilDiv totalCount (batchSize cfg))
  | None => None
  end.

(** [enrichedContact.data?.result?.[0]?.data?.[0]] *)
Definition enrichedDataOf (enrichedContact : EnrichResponse)
  : option EnrichedData :=
  match rsData enrichedContact with
  | Some body =>
      match ebResult body with
      | Some (r :: _) =>
          match erData r with
          | Some (d :: _) => Some d
          | _ => None
          end
      | _ => None
      end
  | None => None
  end.

(** The places at which the page loop of [processCombination] sets
    [hasMorePages] to false: an empty page, three consecutive pages
    without a new company, the last page of the reported total, an error
    that says the page number is too high, and the safety limit of 50
    pages on other errors. *)
Inductive StopReason : Type :=
| EmptyPage
| ThreeStalePages
| ReachedTotal
| PageOutOfRange
| SafetyLimit.

(** What one iteration of the loop decides. *)
Inductive Step : Type :=
| More (page : Z) (consecutiveEmptyPages : nat)
| Done (why : StopReason).

(** The test that guards [processedContacts.push]. *)
Definition hasContactInfo (enrichedData : EnrichedData) : bool :=
  truthy (email enrichedData) || truthy (phone enrichedData)
  || truthy (mobilePhone enrichedData).

Section Processor.
Variable env : Env.
Variable cfg : Config.

Definition contactData (company : Company) (contact : Contact)
    (enrichedData : EnrichedData) (jobTitle location naicsCode : string)
  : ContactData :=
  {| kdZiId := toString (ctId contact);
     kdCompanyZiId := toString (coId company);
     kdCompanyName := coName company;
     kdName := trim (orElse (ctFirstName contact) "" +:+ " "
                     +:+ orElse (ctLastName contact) "");
     kdJobTitle := orElse (ctJobTitle contact) jobTitle;
     kdEmail := orElse (email enrichedData) "";
     kdPhone := orElse (phone enrichedData) "";
     kdMobilePhone := orElse (mobilePhone enrichedData) "";
     kdState := if isMetroRegion location then "" else location;
     kdMetroRegion := if isMetroRegion location then location else "";
     kdNaicsCode := naicsCode |}.

(** The body of the loop over [contactResults.data]; a failed enrichment
    is caught and the contact skipped. *)
Definition enrichOne (company : Company)
    (jobTitle location naicsCode : string)
    (st : list ContactData * World) (contact : Contact)
  : list ContactData * World :=
  let '(processedContacts, w) := st in
  let personId := toString (ctId contact) in
  let w1 := emit (Enrich personId) w in
  match enrichContact env (tick w) personId with
  | Threw _ => (processedContacts, w1)
  | Returned enrichedContact =>
      match enrichedDataOf enrichedContact with
      | Some enrichedData =>
          if hasContactInfo enrichedData
          then ((processedContacts
                   ++ [contactData company contact enrichedData
                         jobTitle location naicsCode])%list, w1)
          else (processedContacts, w1)
      | None => (processedContacts, w1)
      end
  end.

Definition companyData (company : Company) (location naicsCode : string)
  : CompanyData :=
  {| cdZiId := toString (coId company);
     cdName := coName company;
     cdState := if isMetroRegion location then "" else location;
     cdMetroRegion := if isMetroRegion location then location else "";
     cdNaicsCode := naicsCode;
     cdWebsite := orElse (coWebsite company) "";
     cdPhone := orElse (coPhone company) "" |}.

Definition countProcessed (processedContacts : list ContactData)
    (w : World) : World :=
  let currentState := StateManager.getCurrentState (sm w) in
  withSm (StateManager.updateProgress
    {| StateManager.uCombinationIndex := None;
       StateManager.uPage := None;
       StateManager.uProcessedCompanies :=
         Some (StateManager.processedCompanies currentState + 1);
       StateManager.uProcessedContacts :=
         Some (StateManager.processedContacts currentState
               + Z.of_nat (length processedContacts)) |}) w.

(** The body of the loop over [companies]; a failed contact search is
    caught, after the company was recorded. *)
Definition processCompany (jobTitle location naicsCode : string)
    (st : list CompanyData * list ContactData * World) (company : Company)
  : list CompanyData * list ContactData * World :=
  let '(processedCompanies, processedContacts, w) := st in
  let processedCompanies' :=
    (processedCompanies ++ [companyData company location naicsCode])%list in
  let contactSearchParams :=
    {| companyId := toString (coId company);
       jobTitle := jobTitle;
       contactAccuracyScoreMin := "75";
       excludePartialProfiles := true;
       ctRpp := batchSize cfg |} in
  let w1 := emit (ContactSearch contactSearchParams) w in
  match searchContacts env (tick w) contactSearchParams with
  | Threw _ => (processedCompanies', processedContacts, w1)
  | Returned contactResults =>
      let '(processedContacts', w2) :=
        foldl (enrichOne company jobTitle location naicsCode)
              (processedContacts, w1)
              (default [] (ktData contactResults)) in
      (processedCompanies', processedContacts',
       countProcessed processedContacts' w2)
  end.

Definition processCompaniesContacts (companies : list Company)
    (jobTitle location naicsCode : string) (w : World)
  : list CompanyData * list ContactData * World :=
  foldl (processCompany jobTitle location naicsCode) ([], [], w) companies.

(** [bucketService.updateCompanyExclusions] inside the world. *)
Definition updateCompanyExclusions (newZiIds : list ZiId) (w : World)
  : Outcome unit * World :=
  let '(writeFile, upload) := persistExclusions env (tick w) in
  let '(r, s) :=
    BucketService.updateCompanyExclusions newZiIds writeFile upload
      (companyExclusions w) in
  (r, withExclusions s (emit ExclusionsWrite w)).

(** The [catch] block of the page loop. *)
Definition afterError (page : Z) (consecutiveEmptyPages : nat)
    (error : JsError) : Step :=
  if includes "400" (message error)
     && (includes "page number" (message error)
         || includes "greater than" (message error))
  then Done PageOutOfRange
  else if page + 1 >? 50 then Done SafetyLimit
       else More (page + 1) consecutiveEmptyPages.

Definition setPage (p : Z) (w : World) : World :=
  withSm (StateManager.updateProgress
    {| StateManager.uCombinationIndex := None;
       StateManager.uPage := Some p;
       StateManager.uProcessedCompanies := None;
       StateManager.uProcessedContacts := None |}) w.

Record Found := {
  combinationCompanies : list CompanyData;
  combinationContacts : list ContactData
}.

(** The end of the [try] block: progress update and test for more
    pages.  [page >= NaN] is false. *)
Definition finishPage (page : Z) (consecutiveEmptyPages : nat)
    (companyResults : CompanyResults) (found : Found) (w : World)
  : Step * Found * World :=
  let w' := setPage (page + 1) w in
  match totalPages cfg companyResults with
  | Some total =>
      if page >=? total then (Done ReachedTotal, found, w')
      else (More (page + 1) consecutiveEmptyPages, found, w')
  | None => (More (page + 1) consecutiveEmptyPages, found, w')
  end.

(** One iteration of the [while] loop of [processCombination]. *)
Definition pageBody (location naicsCode jobTitle : string) (page : Z)
    (consecutiveEmptyPages : nat) (found : Found) (w : World)
  : Step * Found * World :=
  let companySearchParams :=
    {| metroRegion := if isMetroRegion location then Some location else None;
       state := if isMetroRegion location then None else Some location;
       naicsCodes := naicsCode;
       rpp := batchSize cfg;
       page := page |} in
  let w1 := emit (CompanySearch companySearchParams) w in
  match searchCompanies env (tick w) companySearchParams with
  | Threw error =>
      (afterError page consecutiveEmptyPages error, found, w1)
  | Returned companyResults =>
      match crData companyResults with
      | None | Some [] => (Done EmptyPage, found, w1)
      | Some data =>
          let newCompanies :=
            filter (fun company =>
                      isCompanyExcluded (companyExclusions w1)
                                        (coId company) = false) data in
          match newCompanies with
          | [] =>
              if (3 <=? S consecutiveEmptyPages)%nat
              then (Done ThreeStalePages, found, w1)
              else finishPage page (S consecutiveEmptyPages)
                     companyResults found w1
          | _ :: _ =>
              let '(companies, contacts, w2) :=
                processCompaniesContacts newCompanies jobTitle location
                  naicsCode w1 in
              let found' :=
                {| combinationCompanies :=
                     combinationCompanies found ++ companies;
                   combinationContacts :=
                     combinationContacts found ++ contacts |} in
              let newZiIds :=
                map (fun company => StrId (toString (coId company)))
                    newCompanies in
              match updateCompanyExclusions newZiIds w2 with
              | (Threw error, w3) =>
                  (afterError page 0 error, found', w3)
              | (Returned _, w3) =>
                  finishPage page 0 companyResults found' w3
              end
          end
      end
  end.

(** The [while (hasMorePages)] loop; [None] when [fuel] iterations did
    not end it. *)
Fixpoint pageLoop (fuel : nat) (location naicsCode jobTitle : string)
    (page : Z) (consecutiveEmptyPages : nat) (found : Found) (w : World)
  : option (StopReason * Found * World) :=
  match fuel with
  | O => None
  | S fuel' =>
      match pageBody location naicsCode jobTitle page
                     consecutiveEmptyPages found w with
      | (Done why, found', w') => Some (why, found', w')
      | (More page' consecutive', found', w') =>
          pageLoop fuel' location naicsCode jobTitle page' consecutive'
                   found' w'
      end
  end.

(** [saveResults]: CSV export and upload; a failure is thrown again. *)
Definition saveResults (found : Found) (w : World) : Outcome unit * World :=
  let w1 := emit (ResultsSave (length (combinationCompanies found))
                              (length (combinationContacts found))) w in
  match storeResults env (tick w) with
  | IoFail error => (Threw error, w1)
  | IoOk => (Returned tt, w1)
  end.

Definition startPage (w : World) : Z :=
  let p := StateManager.currentPage (StateManager.getCurrentState (sm w)) in
  if p =? 0 then 1 else p.

Definition noneFound : Found :=
  {| combinationCompanies := []; combinationContacts := [] |}.

Definition processCombination (fuel : nat)
    (location naicsCode jobTitle : string) (w : World)
  : option (Outcome unit * World) :=
  match pageLoop fuel location naicsCode jobTitle (startPage w) 0
                 noneFound w with
  | None => None
  | Some (_, found, w1) =>
      match combinationCompanies found, combinationContacts found with
      | [], [] => Some (Returned tt, setPage 1 w1)
      | _, _ =>
          match saveResults found w1 with
          | (Threw error, w2) => Some (Threw error, w2)
          | (Returned _, w2) => Some (Returned tt, setPage 1 w2)
          end
      end
  end.


Definition markCompleted (w : World) : World :=
  withSm (StateManager.markCompleted (clock env (tick w))
                                     (writeState env (tick w)))
         (emit StateWrite w).

Definition enterCombination (combinationIndex : nat) (w : World) : World :=
  withSm (StateManager.updateProgress
    {| StateManager.uCombinationIndex := Some combinationIndex;
       StateManager.uPage := Some 1;
       StateManager.uProcessedCompanies := None;
       StateManager.uProcessedContacts := None |}) w.

(** The [for] loop of [processAllCombinations] over the combinations
    from [combinationIndex] on. *)
Fixpoint combinationLoop (fuel : nat) (combinationIndex : nat)
    (rest : list SearchParams.Combination) (w : World)
  : option (Outcome unit * World) :=
  match rest with
  | [] => Some (Returned tt, markCompleted w)
  | combination :: rest' =>
      match processCombination fuel
              (SearchParams.location combination)
              (SearchParams.naicsCode combination)
              (SearchParams.jobTitle combination)
              (enterCombination combinationIndex w) with
      | None => None
      | Some (Threw error, w') => Some (Threw error, w')
      | Some (Returned _, w') =>
          combinationLoop fuel (S combinationIndex) rest' w'
      end
  end.

(** [processAllCombinations]; [fuel] bounds the page loop of each
    combination. *)
Definition processAllCombinations (fuel : nat)
    (searchCombinations : list SearchParams.Combination) (w : World)
  : option (Outcome unit * World) :=
  let state := StateManager.getCurrentState (sm w) in
  if StateManager.completed state then Some (Returned tt, w)
  else
    let startingIndex :=
      default 0%nat (StateManager.currentCombinationIndex state) in
    combinationLoop fuel startingIndex
      (drop startingIndex searchCombinations) w.

End Processor.

End LeadProcessor.

(** ** Sample collaborators

    Concrete environments and states on which the properties below are
    evaluated. *)

Module Scenarios.
Import Effects.

(** *** An API that rejects one token *)

Definition unauthorized : JsError :=
  {| message := "Request failed with status code 401";
     status := Some 401%nat; retryAfter := None |}.

(** The server rejects the bearer token [stale-token] and accepts any
    other; authentication hands out [fresh-token]. *)
Definition rejectingEnv : @ZoomInfoService.Env unit string :=
  {| ZoomInfoService.now := fun _ => 1000;
     ZoomInfoService.authenticate := fun _ => Returned "fresh-token";
     ZoomInfoService.writeToken := fun _ => IoOk;
     ZoomInfoService.post := fun _ _ _ bearer =>
       if String.eqb bearer "stale-token" then Threw unauthorized
       else Returned "companies" |}.

Definition threeRetries : ZoomInfoService.Config :=
  {| ZoomInfoService.rateLimitDelay := 100; ZoomInfoService.maxRetries := 3 |}.

(** A client that holds [stale-token], in memory and in the token file,
    with an expiry that lies in the future. *)
Definition staleClient : ZoomInfoService.t :=
  {| ZoomInfoService.currentToken := Some "stale-token";
     ZoomInfoService.tokenExpiresAt := Some 3600000;
     ZoomInfoService.tokenFile :=
       Some {| ZoomInfoService.token := "stale-token";
               ZoomInfoService.expiresAt := 3600000 |};
     ZoomInfoService.tick := 0;
     ZoomInfoService.trace := [] |}.

(** *** Company searches *)

Import LeadProcessor.

Definition batchOf50 : Config := {| batchSize := 50 |}.

Definition companyNo (n : Z) : Company :=
  {| coId := BucketService.NumId n; coName := "Company";
     coWebsite := None; coPhone := None |}.

Definition quiet (search : nat -> CompanySearchParams -> Outcome CompanyResults)
  : Env :=
  {| searchCompanies := search;
     searchContacts := fun _ _ => Returned {| ktData := None |};
     enrichContact := fun _ _ => Returned {| rsData := None |};
     persistExclusions := fun _ => (IoOk, IoOk);
     storeResults := fun _ => IoOk;
     writeState := fun _ => IoOk;
     clock := fun n => Z.of_nat n |}.

(** No company anywhere. *)
Definition emptyEnv : Env :=
  quiet (fun _ _ => Returned {| crData := Some []; crTotalCount := Some 0 |}).

(** [n] pages of one company each (company [p] on page [p]), and a
    reported total of [50 * n] results. *)
Definition pagesEnv (n : Z) : Env :=
  quiet (fun _ params =>
           if page params <=? n
           then Returned {| crData := Some [companyNo (page params)];
                            crTotalCount := Some (50 * n) |}
           else Returned {| crData := Some []; crTotalCount := Some (50 * n) |}).



(** *** Contacts *)

Definition contactNo (n : Z) : Contact :=
  {| ctId := BucketService.NumId n; ctFirstName := Some "Ada";
     ctLastName := Some "Lovelace"; ctJobTitle := None |}.

(** An enrichment response with one result that holds the record [d]. *)
Definition enrichedWith (d : EnrichedData) : EnrichResponse :=
  {| rsData := Some {| ebResult := Some [ {| erData := Some [d] |} ] |} |}.

(** One page with company 1, whose contact search returns the contacts
    11 to 15: the record of 11 holds a mobile phone only, that of 12 an
    empty e-mail address and nothing else, the enrichment of 13 fails,
    the record of 14 holds an e-mail address, and the response for 15
    holds no record. *)
Definition contactsEnv : Env :=
  {| searchCompanies := searchCompanies (pagesEnv 1);
     searchContacts := fun _ _ =>
       Returned {| ktData := Some [contactNo 11; contactNo 12; contactNo 13;
                                   contactNo 14; contactNo 15] |};
     enrichContact := fun _ personId =>
       if String.eqb personId "11"
       then Returned (enrichedWith {| email := None; phone := None;
                                      mobilePhone := Some "+1 555 0100" |})
       else if String.eqb personId "12"
       then Returned (enrichedWith {| email := Some ""; phone := None;
                                      mobilePhone := None |})
       else if String.eqb personId "13"
       then Threw (plainError "Contact enrichment failed: 500 - Server error")
       else if String.eqb personId "14"
       then Returned (enrichedWith {| email := Some "ada@example.com";
                                      phone := None; mobilePhone := None |})
       else Returned {| rsData := Some {| ebResult := Some [] |} |};
     persistExclusions := fun _ => (IoOk, IoOk);
     storeResults := fun _ => IoOk;
     writeState := fun _ => IoOk;
     clock := fun n => Z.of_nat n |}.

Definition noSpace : JsError := plainError "ENOSPC: no space left on device".

(** [n] pages of one company each, on a machine whose disk is full:
    neither the exclusion list nor the state file can be written. *)
Definition fullDiskEnv (n : Z) : Env :=
  {| searchCompanies := searchCompanies (pagesEnv n);
     searchContacts := fun _ _ => Returned {| ktData := None |};
     enrichContact := fun _ _ => Returned {| rsData := None |};
     persistExclusions := fun _ => (IoFail noSpace, IoOk);
     storeResults := fun _ => IoOk;
     writeState := fun _ => IoFail noSpace;
     clock := fun n => Z.of_nat n |}.

(** The processor at start-up: the state manager has loaded the persisted
    state [st], the bucket service the exclusion list [excluded]. *)
Definition worldOf (st : StateManager.State) (excluded : gset string)
  : World :=
  {| sm := snd (StateManager.loadState 0 (StateManager.Parsed st)
                  {| StateManager.state := StateManager.initialState;
                     StateManager.stateFile := Some st |});
     companyExclusions := excluded; tick := 0; trace := [] |}.

(** Progress persisted in the middle of combination [k], at page [p]. *)
Definition interruptedAt (k : nat) (p : Z) : StateManager.State :=
  {| StateManager.currentStateIndex := 0;
     StateManager.currentNaicsIndex := 0;
     StateManager.currentJobTitleIndex := 0;
     StateManager.currentCombinationIndex := Some k;
     StateManager.currentPage := p;
     StateManager.processedCompanies := 100;
     StateManager.processedContacts := 40;
     StateManager.startTime := Some 0;
     StateManager.lastSaveTime := Some 30000;
     StateManager.completed := false;
     StateManager.completedTime := None |}.

Definition finished : StateManager.State :=
  StateManager.withCompleted 90000 (interruptedAt 1 1).

Definition colorado : SearchParams.Combination :=
  {| SearchParams.groupIndex := 0;
     SearchParams.location := "Colorado";
     SearchParams.naicsCode := "236118";
     SearchParams.naicsName := "Residential Remodelers";
     SearchParams.jobTitle := "Project Manager" |}.

(** The next combination of the same group: another job title for the
    same location and NAICS code. *)
Definition coloradoSupervisors : SearchParams.Combination :=
  {| SearchParams.groupIndex := 0;
     SearchParams.location := "Colorado";
     SearchParams.naicsCode := "236118";
     SearchParams.naicsName := "Residential Remodelers";
     SearchParams.jobTitle := "Site Supervisor" |}.

End Scenarios.

(** ** services/bucketService.js: the exclusion file *)

Module BucketFiles.
Import JS Effects.

Definition newline : ascii := "010"%char.

(** [parts.join(sep)] for a one-character separator. *)
Fixpoint joinWith (sep : ascii) (parts : list string) : string :=
  match parts with
  | [] => ""
  | x :: rest =>
      match rest with
      | [] => x
      | _ :: _ => x +:+ String sep (joinWith sep rest)
      end
  end.

(** [Array.from(this.companyExclusions).join('\n')], the text that
    [updateCompanyExclusions] writes, for a set enumerated as [ids]. *)
Definition exclusionList (ids : list string) : string := joinWith newline ids.

(** The characters removed from a line of the downloaded file: double
    quote and comma. *)
Definition isCsvJunk (c : ascii) : bool :=
  Ascii.eqb c SearchParams.dquote || Ascii.eqb c SearchParams.comma.

(** A global [replace] of single characters by nothing. *)
Fixpoint removeChars (p : ascii -> bool) (s : string) : string :=
  match s with
  | EmptyString => EmptyString
  | String c s' => if p c then removeChars p s' else String c (removeChars p s')
  end.

(** The test of the [filter] in [downloadCompanyExclusions]. *)
Definition keepLine (line : string) : bool :=
  nonEmpty line && negb (String.prefix "zi_id" line).

(** The ids read from the content of the downloaded file: lines, trimmed;
    empty lines and lines starting with [zi_id] dropped; quotes and commas
    removed. *)
Definition parseExclusions (content : string) : list string :=
  map (removeChars isCsvJunk)
      (filter (fun line => keepLine line = true)
              (map trim (split newline content))).

(** What the bucket answers to [downloadCompanyExclusions]: no such file,
    the content of the file, or a failure of [exists], [download] or
    [readFile]. *)
Inductive Download : Type :=
| NotInBucket
| Fetched (content : string)
| Failed (e : JsError).

(** [downloadCompanyExclusions]: the set it leaves in [companyExclusions]. *)
Definition downloadCompanyExclusions (d : Download)
    (companyExclusions : gset string) : gset string :=
  match d with
  | NotInBucket => companyExclusions
  | Fetched content => list_to_set (parseExclusions content)
  | Failed _ => ∅
  end.

(** An id that survives the file format: not empty, one line, no white
    space at its ends, no quote or comma, not starting with [zi_id]. *)
Definition plainId (id : string) : bool :=
  nonEmpty id
  && allChars (differs newline) id
  && negb (startsIn isWhiteSpace id) && negb (endsIn isWhiteSpace id)
  && allChars (fun c => negb (isCsvJunk c)) id
  && negb (String.prefix "zi_id" id).

End BucketFiles.

(** ** services/stateManager.js: what a restart finds *)

Module Restart.
Import Effects StateManager.

(** What [loadState] reads after a restart: the record that the last
    successful [saveState] wrote, if any. *)
Definition readBack (sm : t) : ReadResult :=
  match stateFile sm with
  | Some s => Parsed s
  | None => NoEntry
  end.

(** The object that two calls of [updateProgress] amount to:
    [Object.assign({}, u1, u2)]. *)
Definition overlay (u1 u2 : Updates) : Updates :=
  {| uCombinationIndex :=
       match uCombinationIndex u2 with
       | Some i => Some i
       | None => uCombinationIndex u1
       end;
     uPage :=
       match uPage u2 with Some p => Some p | None => uPage u1 end;
     uProcessedCompanies :=
       match uProcessedCompanies u2 with
       | Some n => Some n
       | None => uProcessedCompanies u1
       end;
     uProcessedContacts :=
       match uProcessedContacts u2 with
       | Some n => Some n
       | None => uProcessedContacts u1
       end |}.

End Restart.

(** ** services/zoomInfoService.js: what a call costs *)

Module ApiTrace.
Import ZoomInfoService.

(** The number of requests sent to API endpoints. *)
Definition posts (tr : list Event) : nat :=
  length (omap (fun ev => match ev with Post _ _ => Some tt | _ => None end) tr).

(** The pauses, in milliseconds, oldest first. *)
Definition sleeps (tr : list Event) : list Z :=
  omap (fun ev => match ev with Sleep ms => Some ms | _ => None end) tr.

(** How [makeAPICall] tells failures apart, by [error.response?.status]. *)
Inductive ErrorKind : Type :=
| Unauthorized
| RateLimited
| OtherError.

Definition errorKind (error : Effects.JsError) : ErrorKind :=
  match Effects.status error with
  | Some n =>
      if Nat.eqb n 401 then Unauthorized
      else if Nat.eqb n 429 then RateLimited
      else OtherError
  | None => OtherError
  end.

End ApiTrace.

(** ** services/leadProcessor.js: what a run asks for *)

Module Crawl.
Import JS Effects BucketService LeadProcessor.

(** The company searches of a trace, oldest first. *)
Definition companySearches (tr : list Event) : list CompanySearchParams :=
  omap (fun ev => match ev with CompanySearch p => Some p | _ => None end) tr.

(** The contact searches of a trace, oldest first. *)
Definition contactSearches (tr : list Event) : list ContactSearchParams :=
  omap (fun ev => match ev with ContactSearch p => Some p | _ => None end) tr.

(** The contact search that [processCompaniesContacts] issues for a
    company. *)
Definition contactSearchFor (cfg : Config) (jobTitle : string)
    (company : Company) : ContactSearchParams :=
  {| companyId := toString (coId company);
     jobTitle := jobTitle;
     contactAccuracyScoreMin := "75";
     excludePartialProfiles := true;
     ctRpp := batchSize cfg |}.

(** The company search of [processCombination] for a page. *)
Definition companySearchFor (cfg : Config) (location naicsCode : string)
    (page : Z) : CompanySearchParams :=
  {| metroRegion := if isMetroRegion location then Some location else None;
     state := if isMetroRegion location then None else Some location;
     naicsCodes := naicsCode;
     rpp := batchSize cfg;
     page := page |}.


(** The fields of the progress record that only the driver and
    [loadState] write.  ([lastSaveTime] and the state file are not among
    them: the autosave timer of the state manager, which runs beside the
    processor and is not modelled, stamps the one and rewrites the other
    every 30 seconds.) *)
Definition sameJob (w w' : World) : Prop :=
  let s := StateManager.state (sm w) in
  let s' := StateManager.state (sm w') in
  StateManager.completed s' = StateManager.completed s
  /\ StateManager.completedTime s' = StateManager.completedTime s
  /\ StateManager.startTime s' = StateManager.startTime s
  /\ StateManager.currentCombinationIndex s'
     = StateManager.currentCombinationIndex s.

(** *** Which contacts a combination puts out *)

(** The record of the person asked for in an enrichment response: the
    first entry of the data of the first result. *)
Definition hasRecord (response : EnrichResponse) (d : EnrichedData) : Prop :=
  exists body result results entries,
    rsData response = Some body
    /\ ebResult body = Some (result :: results)
    /\ erData result = Some (d :: entries).

(** The answer to an enrichment call makes a contact acceptable when the
    call returned, the response holds a record, and in that record the
    e-mail address, the phone or the mobile phone is populated. *)
Definition acceptable (answer : Outcome EnrichResponse) : Prop :=
  exists response d,
    answer = Returned response
    /\ hasRecord response d
    /\ (populated (email d) \/ populated (phone d)
        \/ populated (mobilePhone d)).

(** A contact that a contact search returned: the company the search was
    for, the contact, and the tick at which its enrichment is due (the
    contacts of one search are enriched one after the other, right after
    the search). *)
Record ReturnedContact := {
  enrichedAt : nat;
  ofCompany : string;
  who : Contact
}.

(** The contacts returned by the contact searches among the events [evs],
    the first of which took place at tick [t]; oldest first. *)
Fixpoint returnedContacts (env : Env) (t : nat) (evs : list Event)
  : list ReturnedContact :=
  match evs with
  | [] => []
  | ev :: evs' =>
      match ev with
      | ContactSearch params =>
          match searchContacts env t params with
          | Returned contactResults =>
              imap (fun j contact =>
                      {| enrichedAt := S t + j;
                         ofCompany := companyId params;
                         who := contact |})
                   (default [] (ktData contactResults))
          | Threw _ => []
          end
      | _ => []
      end ++ returnedContacts env (S t) evs'
  end.

(** What the enrichment call for a returned contact is answered. *)
Definition enrichmentOf (env : Env) (r : ReturnedContact)
  : Outcome EnrichResponse :=
  enrichContact env (enrichedAt r) (toString (ctId (who r))).

Definition accepted (env : Env) (r : ReturnedContact) : Prop :=
  acceptable (enrichmentOf env r).

(** A contact is known by the id of its company and its own id. *)
Definition keyOf (r : ReturnedContact) : string * string :=
  (ofCompany r, toString (ctId (who r))).

Definition contactKey (contactData : ContactData) : string * string :=
  (kdCompanyZiId contactData, kdZiId contactData).

(** [Chosen P f l out]: the list [out] holds [f a] for exactly those
    entries [a] of [l] that satisfy [P], once for each of them and in
    the order of [l]. *)
Inductive Chosen {A B : Type} (P : A -> Prop) (f : A -> B)
  : list A -> list B -> Prop :=
| chosen_nil : Chosen P f [] []
| chosen_take a l out :
    P a -> Chosen P f l out -> Chosen P f (a :: l) (f a :: out)
| chosen_skip a l out :
    ~ P a -> Chosen P f l out -> Chosen P f (a :: l) out.

(** From the world [w] with the accepted contacts [cts] to the world [w']
    with the accepted contacts [cts']: the contacts added are those
    among the contacts returned meanwhile whose enrichment is acceptable,
    and each returned contact was enriched at its tick. *)
Definition accounted (env : Env) (w : World) (cts : list ContactData)
    (w' : World) (cts' : list ContactData) : Prop :=
  exists evs added,
    trace w' = trace w ++ evs
    /\ tick w' = (tick w + length evs)%nat
    /\ cts' = cts ++ added
    /\ Forall (fun r =>
                 evs !! (enrichedAt r - tick w)%nat
                 = Some (Enrich (toString (ctId (who r))))
                 /\ (tick w <= enrichedAt r)%nat)
              (returnedContacts env (tick w) evs)
    /\ Chosen (accepted env) keyOf (returnedContacts env (tick w) evs)
              (map contactKey added).

(** The error that [updateCompanyExclusions] meets, given the results of
    its two steps: that of the write of the local file, or else that of
    the upload. *)
Definition writeError (r : IoResult * IoResult) : option JsError :=
  match r with
  | (IoFail error, _) => Some error
  | (IoOk, IoFail error) => Some error
  | (IoOk, IoOk) => None
  end.

(** How often a trace tried to store the exclusion list. *)
Definition exclusionWrites (tr : list Event) : nat :=
  length (omap (fun ev => match ev with
                          | ExclusionsWrite => Some tt
                          | _ => None
                          end) tr).

(** The test of the [catch] block for an error that says the page number
    is too high. *)
Definition saysPageTooHigh (error : JsError) : bool :=
  includes "400" (message error)
  && (includes "page number" (message error)
      || includes "greater than" (message error)).

(** The ids under which a list of output companies goes by. *)
Definition ziIds (companies : list CompanyData) : list string :=
  map cdZiId companies.

End Crawl.

(** ** services/bucketService.js: where the exclusion list lives *)

Module BucketObjects.
Import BucketFiles.

(** The object that [updateCompanyExclusions] uploads to. *)
Definition uploadedObject : string := "existing_ziids.csv".

(** The object that [downloadCompanyExclusions] reads. *)
Definition downloadedObject : string := "zi-backups/existing_ziids.csv".

(** [uploadCSVFile(this.exclusionsFile, 'existing_ziids.csv')] on a bucket
    given as a map from object names to contents, when it succeeds. *)
Definition uploadExclusions (content : string) (bucket : gmap string string)
  : gmap string string :=
  <[ uploadedObject := content ]> bucket.

(** What [downloadCompanyExclusions] gets from a bucket that answers. *)
Definition fetchExclusions (bucket : gmap string string) : Download :=
  match bucket !! downloadedObject with
  | Some content => Fetched content
  | None => NotInBucket
  end.

End BucketObjects.

(** ** utils/csvWriter.js: the combined export *)

Module CsvWriter.
Import LeadProcessor.

Record CombinedRecord := {
  cbCompanyZiId : string;
  cbCompanyName : string;
  cbState : string;
  cbMetroRegion : string;
  cbNaicsCode : string;
  cbWebsite : string;
  cbCompanyPhone : string;
  cbContactZiId : string;
  cbContactName : string;
  cbJobTitle : string;
  cbEmail : string;
  cbPhone : string;
  cbMobilePhone : string;
  cbCreatedAt : string
}.

(** The record of a company without contacts, stamped with a date. *)
Definition companyOnly (company : CompanyData) (createdAt : string)
  : CombinedRecord :=
  {| cbCompanyZiId := cdZiId company; cbCompanyName := cdName company;
     cbState := cdState company; cbMetroRegion := cdMetroRegion company;
     cbNaicsCode := cdNaicsCode company; cbWebsite := cdWebsite company;
     cbCompanyPhone := cdPhone company;
     cbContactZiId := ""; cbContactName := ""; cbJobTitle := "";
     cbEmail := ""; cbPhone := ""; cbMobilePhone := "";
     cbCreatedAt := createdAt |}.

Definition companyWithContact (company : CompanyData) (contact : ContactData)
    (createdAt : string) : CombinedRecord :=
  {| cbCompanyZiId := cdZiId company; cbCompanyName := cdName company;
     cbState := cdState company; cbMetroRegion := cdMetroRegion company;
     cbNaicsCode := cdNaicsCode company; cbWebsite := cdWebsite company;
     cbCompanyPhone := cdPhone company;
     cbContactZiId := kdZiId contact; cbContactName := kdName contact;
     cbJobTitle := kdJobTitle contact;
     cbEmail := kdEmail contact; cbPhone := kdPhone contact;
     cbMobilePhone := kdMobilePhone contact;
     cbCreatedAt := createdAt |}.

(** [contacts.filter(contact => contact.companyZiId === company.ziId)] *)
Definition contactsOf (contacts : list ContactData) (company : CompanyData)
  : list ContactData :=
  filter (fun contact => kdCompanyZiId contact = cdZiId company) contacts.

(** The records pushed for one company, each waiting for its date. *)
Definition rowsFor (contacts : list ContactData) (company : CompanyData)
  : list (string -> CombinedRecord) :=
  match contactsOf contacts company with
  | [] => [companyOnly company]
  | companyContacts => map (companyWithContact company) companyContacts
  end.

(** [results] of [writeCombined]; [dateAt i] is the date read when the
    record of index [i] is pushed. *)
Definition combinedRecords (dateAt : nat -> string)
    (companies : list CompanyData) (contacts : list ContactData)
  : list CombinedRecord :=
  imap (fun i row => row (dateAt i)) (flat_map (rowsFor contacts) companies).

(** [writeCombined]: [None] is the [null] returned when there is nothing
    to write, otherwise the file name and the records written. *)
Definition writeCombined (dateAt : nat -> string)
    (companies : list CompanyData) (contacts : list ContactData)
    (identifier : string) : option (string * list CombinedRecord) :=
  match combinedRecords dateAt companies contacts with
  | [] => None
  | results => Some ("combined-" +:+ identifier +:+ ".csv", results)
  end.

End CsvWriter.

(** ** index.js *)

Module Main.
Import Effects LeadProcessor.

(** What [main] is started on: the state file as read, the answer of the
    bucket, the state manager the constructor built, and the collaborators
    of the processor. *)
Record Start := {
  stateRead : StateManager.ReadResult;
  exclusionsDownload : BucketFiles.Download;
  manager : StateManager.t;
  startedAt : Z
}.

(** [cleanup]: the token timer is stopped, the autosave timer cleared, and
    the state saved a last time. *)
Definition cleanup (env : Env) (w : World) : World :=
  withSm (fun m => snd (StateManager.saveState (clock env (tick w))
                          (writeState env (tick w)) m))
         (emit StateWrite w).

(** [main]: the exit code (0 when [main] returns, 1 from [process.exit(1)]
    in its [catch] block) and the final world; [None] when [fuel] did not
    suffice for a page loop. *)
Definition main (env : Env) (cfg : Config) (fuel : nat)
    (searchCombinations : list SearchParams.Combination) (start : Start)
  : option (Z * World) :=
  match StateManager.loadState (startedAt start) (stateRead start)
          (manager start) with
  | (Threw _, m) =>
      Some (1, cleanup env {| sm := m; companyExclusions := ∅;
                              tick := 0; trace := [] |})
  | (Returned _, m) =>
      let w :=
        {| sm := m;
           companyExclusions :=
             BucketFiles.downloadCompanyExclusions (exclusionsDownload start) ∅;
           tick := 0; trace := [] |} in
      match processAllCombinations env cfg fuel searchCombinations w with
      | None => None
      | Some (Returned _, w') => Some (0, cleanup env w')
      | Some (Threw _, w') => Some (1, cleanup env w')
      end
  end.

End Main.

(** * Properties *)

(** ** String primitives *)

Module JSFacts.
Import JS.

Lemma dropWhile_fixed p s : startsIn p s = false -> dropWhile p s = s.
Proof. destruct s as [|c s]; simpl; [reflexivity|]. now intros ->. Qed.

Lemma startsIn_dropWhile p s : startsIn p (dropWhile p s) = false.
Proof.
  induction s as [|c s IH]; simpl; [reflexivity|].
  destruct (p c) eqn:E; [exact IH|]. simpl. exact E.
Qed.

Lemma dropWhileEnd_fixed p s : endsIn p s = false -> dropWhileEnd p s = s.
Proof.
  induction s as [|c s IH]; [reflexivity|].
  cbn [endsIn dropWhileEnd]. destruct s as [|d s].
  - simpl. now intros ->.
  - intros H. rewrite (IH H). reflexivity.
Qed.

Lemma endsIn_dropWhileEnd p s : endsIn p (dropWhileEnd p s) = false.
Proof.
  induction s as [|c s IH]; [reflexivity|].
  cbn [dropWhileEnd]. destruct (dropWhileEnd p s) as [|d r] eqn:E.
  - destruct (p c) eqn:Ec; simpl; [reflexivity | exact Ec].
  - exact IH.
Qed.

Lemma dropWhileEnd_head p s :
  dropWhileEnd p s = EmptyString \/
  exists c r r', s = String c r /\ dropWhileEnd p s = String c r'.
Proof.
  destruct s as [|c s]; [now left|].
  cbn [dropWhileEnd]. destruct (dropWhileEnd p s) as [|d r].
  - destruct (p c); [now left | right; eauto].
  - right; eauto.
Qed.

Lemma startsIn_dropWhileEnd p q s :
  startsIn p s = false -> startsIn p (dropWhileEnd q s) = false.
Proof.
  intros H. destruct (dropWhileEnd_head q s) as [-> | (c & r & r' & -> & ->)];
    [reflexivity | exact H].
Qed.

Lemma allChars_dropWhile q p s :
  allChars q s = true -> allChars q (dropWhile p s) = true.
Proof.
  induction s as [|c s IH]; simpl; [easy|].
  intros [Hc Hs]%andb_true_iff. destruct (p c); [auto|].
  simpl. now rewrite Hc, Hs.
Qed.

Lemma allChars_dropWhileEnd q p s :
  allChars q s = true -> allChars q (dropWhileEnd p s) = true.
Proof.
  induction s as [|c s IH]; [easy|].
  cbn [allChars dropWhileEnd]. intros [Hc Hs]%andb_true_iff.
  specialize (IH Hs). destruct (dropWhileEnd p s) as [|d r].
  - destruct (p c); simpl; [reflexivity | now rewrite Hc].
  - change (q c && allChars q (String d r) = true). now rewrite Hc, IH.
Qed.

Lemma trim_fixed s :
  startsIn isWhiteSpace s = false -> endsIn isWhiteSpace s = false ->
  trim s = s.
Proof.
  intros Hs He. unfold trim. rewrite (dropWhile_fixed _ _ Hs).
  now apply dropWhileEnd_fixed.
Qed.

Lemma trim_startsIn s : startsIn isWhiteSpace (trim s) = false.
Proof. apply startsIn_dropWhileEnd, startsIn_dropWhile. Qed.

Lemma trim_endsIn s : endsIn isWhiteSpace (trim s) = false.
Proof. apply endsIn_dropWhileEnd. Qed.

Lemma allChars_trim q s : allChars q s = true -> allChars q (trim s) = true.
Proof. intros H. now apply allChars_dropWhileEnd, allChars_dropWhile. Qed.

Lemma split_not_nil sep s : split sep s <> [].
Proof.
  destruct s as [|c s]; simpl; [easy|].
  destruct (Ascii.eqb c sep); [easy|]. now destruct (split sep s).
Qed.

Lemma split_parts sep s :
  Forall (fun part => allChars (differs sep) part = true) (split sep s).
Proof.
  induction s as [|c s IH]; simpl.
  - now constructor.
  - destruct (Ascii.eqb c sep) eqn:E.
    + now constructor.
    + destruct (split sep s) as [|h t].
      * constructor; [|constructor]. simpl. unfold differs. now rewrite E.
      * inversion IH; subst. constructor; [|assumption].
        simpl. unfold differs at 1. now rewrite E.
Qed.

Lemma split_without sep s :
  allChars (differs sep) s = true -> split sep s = [s].
Proof.
  induction s as [|c s IH]; simpl; [reflexivity|].
  intros [Hc Hs]%andb_true_iff. unfold differs in Hc.
  apply negb_true_iff in Hc. rewrite Hc, (IH Hs). reflexivity.
Qed.

End JSFacts.

(** ** config/searchParams.js *)

Module SearchParamsFacts.
Import JS JSFacts SearchParams.

Lemma stripJunk_fixed t : bareEnds t = true -> stripJunk t = t.
Proof.
  unfold bareEnds, stripJunk.
  intros [Hs He]%andb_true_iff.
  apply negb_true_iff in Hs, He.
  rewrite (dropWhile_fixed _ _ Hs). now apply dropWhileEnd_fixed.
Qed.

Lemma cleanTitle_fixed t : alreadyClean t = true -> cleanTitle t = [t].
Proof.
  unfold alreadyClean, tidy.
  intros H.
  repeat match goal with
         | H : _ && _ = true |- _ => apply andb_true_iff in H; destruct H
         end.
  unfold cleanTitle.
  repeat match goal with H : negb _ = true |- _ => apply negb_true_iff in H end.
  match goal with H : nonEmpty t = true |- _ => rewrite H end.
  rewrite stripJunk_fixed by assumption.
  rewrite split_without by assumption.
  simpl. rewrite trim_fixed by assumption.
  rewrite filter_cons_True by assumption. reflexivity.
Qed.

Lemma cleanTitle_tidy title : Forall (fun t => tidy t = true) (cleanTitle title).
Proof.
  unfold cleanTitle. destruct (nonEmpty title); [|constructor].
  pose proof (split_parts comma (stripJunk title)) as Hparts.
  induction Hparts as [|part parts Hpart _ IH]; [constructor|].
  cbn [map]. destruct (nonEmpty (trim part)) eqn:E.
  - rewrite filter_cons_True by assumption. constructor; [|exact IH].
    unfold tidy. rewrite E, (allChars_trim _ _ Hpart), trim_startsIn, trim_endsIn.
    reflexivity.
  - rewrite filter_cons_False by (rewrite E; discriminate). exact IH.
Qed.

Lemma cleanJobTitles_tidy ts :
  Forall (fun t => tidy t = true) (cleanJobTitles ts).
Proof.
  unfold cleanJobTitles. induction ts as [|t ts IH]; simpl; [constructor|].
  apply Forall_app. split; [apply cleanTitle_tidy | exact IH].
Qed.

Lemma cleanJobTitles_fixed ts :
  forallb alreadyClean ts = true -> cleanJobTitles ts = ts.
Proof.
  unfold cleanJobTitles. induction ts as [|t ts IH]; simpl; [reflexivity|].
  intros [Ht Hts]%andb_true_iff.
  rewrite (cleanTitle_fixed _ Ht), (IH Hts). reflexivity.
Qed.

Lemma tidy_bare_clean ts :
  Forall (fun t => tidy t = true) ts ->
  forallb bareEnds ts = true -> forallb alreadyClean ts = true.
Proof.
  induction 1 as [|t ts Ht _ IH]; simpl; [reflexivity|].
  intros [Hb Hbs]%andb_true_iff. rewrite (IH Hbs), andb_true_r.
  unfold alreadyClean. now rewrite Ht, Hb.
Qed.

Lemma length_flat_map_const {A B} (f : A -> list B) (k : nat) (l : list A) :
  (forall x, length (f x) = k) -> length (flat_map f l) = (length l * k)%nat.
Proof.
  intros Hf. induction l as [|x l IH]; simpl; [reflexivity|].
  rewrite length_app, Hf, IH. reflexivity.
Qed.

Lemma groupCombinations_length gi g :
  length (groupCombinations gi g) = specGroupCount g.
Proof.
  unfold groupCombinations, specGroupCount.
  destruct (locations g) as [[|l ls]|], (job_titles g) as [[|t ts]|],
    (naics_codes g) as [[|n ns]|]; try reflexivity.
  cbn [lacks orb orNil].
  rewrite (length_flat_map_const _
             (length (n :: ns) * length (cleanJobTitles (t :: ts)))).
  - lia.
  - intros loc. apply length_flat_map_const. intros nc. apply length_map.
Qed.

Lemma imap_concat_length {A B} (f : nat -> A -> list B) (c : A -> nat) l :
  (forall i x, length (f i x) = c x) ->
  length (concat (imap f l)) = sum_list (map c l).
Proof.
  revert f. induction l as [|x l IH]; intros f Hf; [reflexivity|].
  cbn [imap concat map sum_list]. rewrite length_app, Hf.
  rewrite (IH (f ∘ S)); [reflexivity|]. intros i y. apply Hf.
Qed.

End SearchParamsFacts.

Module SearchParamsClaims.
Import JS JSFacts SearchParams SearchParamsFacts.

(** C5: the number of combinations built by [getSearchCombinations] is the
    sum, over the groups whose three lists are present and non-empty, of
    |locations| x |cleaned job titles| x |naics_codes|; a group in which
    one of the three lists is missing contributes no combination. *)
Theorem getSearchCombinations_length (groups : list Group) :
  length (getSearchCombinations groups) = sum_list (map specGroupCount groups)
  /\ (forall gi ls ts ns,
        groupCombinations gi
          {| locations := None; job_titles := ts; naics_codes := ns |} = []
        /\ groupCombinations gi
             {| locations := ls; job_titles := None; naics_codes := ns |} = []
        /\ groupCombinations gi
             {| locations := ls; job_titles := ts; naics_codes := None |} = []).
Proof.
  split.
  - unfold getSearchCombinations.
    apply imap_concat_length, groupCombinations_length.
  - intros gi ls ts ns. unfold groupCombinations. cbn [locations job_titles naics_codes].
    split; [|split].
    + reflexivity.
    + destruct (lacks ls); reflexivity.
    + destruct (lacks ls), (lacks ts); reflexivity.
Qed.

(** C7, as amended: cleaning is idempotent on every list whose cleaned
    titles carry no brace or quote character at their ends; the cleaned
    list is then already clean, and [cleanJobTitles] returns already-clean
    lists unchanged ([cleanJobTitles_fixed]). *)
Theorem cleanJobTitles_idempotent_bare (ts : list string) :
  forallb bareEnds (cleanJobTitles ts) = true ->
  forallb alreadyClean (cleanJobTitles ts) = true
  /\ cleanJobTitles (cleanJobTitles ts) = cleanJobTitles ts.
Proof.
  intros Hbare.
  assert (Hclean : forallb alreadyClean (cleanJobTitles ts) = true)
    by (apply tidy_bare_clean; [apply cleanJobTitles_tidy | exact Hbare]).
  split; [exact Hclean | now apply cleanJobTitles_fixed].
Qed.

Lemma cleanJobTitles_idempotent_bare_witness :
  forallb bareEnds (cleanJobTitles ["Project Manager, Site Supervisor"]) = true
  /\ cleanJobTitles (cleanJobTitles ["Project Manager, Site Supervisor"])
     = cleanJobTitles ["Project Manager, Site Supervisor"].
Proof.
  split; [reflexivity|].
  apply (cleanJobTitles_idempotent_bare ["Project Manager, Site Supervisor"]).
  reflexivity.
Defined.

(** C7 as stated fails: the first pass strips braces and quotes at the ends
    of the raw string only, the second pass strips them from each title. *)
Lemma cleanJobTitles_not_idempotent :
  cleanJobTitles ["{Project Manager},{Site Supervisor}"]
    = ["Project Manager}"; "{Site Supervisor"]
  /\ cleanJobTitles (cleanJobTitles ["{Project Manager},{Site Supervisor}"])
    = ["Project Manager"; "Site Supervisor"]
  /\ cleanJobTitles (cleanJobTitles ["{Project Manager},{Site Supervisor}"])
     <> cleanJobTitles ["{Project Manager},{Site Supervisor}"].
Proof. split; [reflexivity | split; [reflexivity | discriminate]]. Qed.

Example clean_scenario :
  cleanJobTitles ["Project Manager, Site Supervisor"]
  = ["Project Manager"; "Site Supervisor"].
Proof. reflexivity. Qed.

Example clean_all_junk : cleanJobTitles ["{}}"; ""; " , "] = [].
Proof. reflexivity. Qed.

Example scenario_two_combinations :
  map jobTitle
    (getSearchCombinations
       [ {| locations := Some ["Colorado"];
            job_titles := Some ["Project Manager, Site Supervisor"];
            naics_codes := Some [ {| neNaicsCode := "236118";
                                     neName := "Residential Remodelers" |} ] |} ])
  = ["Project Manager"; "Site Supervisor"].
Proof. reflexivity. Qed.

End SearchParamsClaims.

(** ** services/bucketService.js *)

Module BucketServiceFacts.
Import Effects BucketService.

Lemma elem_of_addAll `{ToString A} (ids : list A) (s : gset string)
    (x : string) :
  x ∈ addAll ids s <-> x ∈ s \/ In x (map toString ids).
Proof.
  unfold addAll. revert s. induction ids as [|i ids IH]; intros s; simpl.
  - tauto.
  - rewrite IH, elem_of_union, elem_of_singleton. intuition congruence.
Qed.

Lemma updateCompanyExclusions_set `{ToString A} (ids : list A) w u
    (s : gset string) :
  snd (updateCompanyExclusions ids w u s) = addAll ids s.
Proof. unfold updateCompanyExclusions. destruct w, u; reflexivity. Qed.

Lemma runOp_grows (s : gset string) op x : x ∈ s -> x ∈ runOp s op.
Proof.
  destruct op as [i | ids w u]; simpl; [easy|].
  rewrite updateCompanyExclusions_set, elem_of_addAll. tauto.
Qed.

Lemma runOps_grows ops (s : gset string) x : x ∈ s -> x ∈ runOps ops s.
Proof.
  unfold runOps. revert s. induction ops as [|op ops IH]; intros s H; simpl.
  - exact H.
  - apply IH, runOp_grows, H.
Qed.

Lemma addAll_present `{ToString A} (ziId : A) (s : gset string) :
  toString ziId ∈ s -> addAll [ziId] s = s.
Proof.
  intros Hin. unfold addAll. simpl. apply set_eq. intros x.
  rewrite elem_of_union, elem_of_singleton. intuition congruence.
Qed.

Lemma isCompanyExcluded_true `{ToString A} (s : gset string) (ziId : A) :
  isCompanyExcluded s ziId = true <-> toString ziId ∈ s.
Proof. unfold isCompanyExcluded. apply bool_decide_eq_true. Qed.

Lemma isCompanyExcluded_false `{ToString A} (s : gset string) (ziId : A) :
  isCompanyExcluded s ziId = false <-> toString ziId ∉ s.
Proof. unfold isCompanyExcluded. apply bool_decide_eq_false. Qed.

(** C8: under [isCompanyExcluded] and [updateCompanyExclusions] the
    exclusion set only grows: an id added by an update is reported as
    excluded after any further sequence of these operations; and adding an
    id that is already present leaves the set as it is. *)
Theorem exclusions_monotonic_idempotent (s0 : gset string)
    (newZiIds : list ZiId) (w u : IoResult) (ziId : ZiId) (ops : list Op) :
  In ziId newZiIds ->
  isCompanyExcluded
    (runOps ops (snd (updateCompanyExclusions newZiIds w u s0))) ziId = true
  /\ (forall (s : gset string) w' u',
        isCompanyExcluded s ziId = true ->
        snd (updateCompanyExclusions [ziId] w' u' s) = s).
Proof.
  intros Hin. split.
  - apply isCompanyExcluded_true, runOps_grows.
    rewrite updateCompanyExclusions_set, elem_of_addAll.
    right. now apply in_map.
  - intros s w' u' H. rewrite updateCompanyExclusions_set.
    now apply addAll_present, isCompanyExcluded_true.
Qed.

Lemma exclusions_monotonic_idempotent_witness :
  In (NumId 7) [StrId "a1"; NumId 7]
  /\ isCompanyExcluded
       (runOps [IsExcluded (NumId 7); Update [StrId "b2"] IoOk IoOk]
          (snd (updateCompanyExclusions [StrId "a1"; NumId 7] IoOk IoOk ∅)))
       (NumId 7) = true.
Proof.
  split; [simpl; auto|].
  apply (exclusions_monotonic_idempotent ∅ [StrId "a1"; NumId 7] IoOk IoOk
           (NumId 7) [IsExcluded (NumId 7); Update [StrId "b2"] IoOk IoOk]).
  simpl; auto.
Defined.

(** C10: both operations ask the identifier they are handed for its
    string form and use nothing else of it.  So for identifiers [x] and
    [y] of any kind (numbers, strings, any value with a [toString]
    method, [x] of one kind and [y] of another), once
    [updateCompanyExclusions [x]] has run, [x] is reported as excluded and
    so is every [y] whose string form is that of [x]. *)
Theorem exclusion_by_string_form {A B : Type} `{ToString A} `{ToString B}
    (s : gset string) (x : A) (y : B) (w u : IoResult) :
  toString y = toString x ->
  isCompanyExcluded (snd (updateCompanyExclusions [x] w u s)) x = true
  /\ isCompanyExcluded (snd (updateCompanyExclusions [x] w u s)) y = true.
Proof.
  intros Heq.
  assert (Hx : toString x ∈ snd (updateCompanyExclusions [x] w u s)).
  { rewrite updateCompanyExclusions_set, elem_of_addAll. right. simpl. auto. }
  split; apply isCompanyExcluded_true; [exact Hx | now rewrite Heq].
Qed.

Lemma exclusion_by_string_form_witness :
  toString "4207" = toString (NumId 4207)
  /\ isCompanyExcluded
       (snd (updateCompanyExclusions [NumId 4207] IoOk IoOk ∅))
       "4207" = true
  /\ isCompanyExcluded
       (snd (updateCompanyExclusions [NumId 4207] IoOk IoOk ∅))
       (StrId "4207") = true.
Proof.
  split; [reflexivity|]. split.
  - apply (exclusion_by_string_form ∅ (NumId 4207) "4207" IoOk IoOk).
    reflexivity.
  - apply (exclusion_by_string_form ∅ (NumId 4207) (StrId "4207") IoOk IoOk).
    reflexivity.
Defined.

Example excluded_number_as_string :
  isCompanyExcluded (snd (updateCompanyExclusions [StrId "4207"] IoOk IoOk ∅))
                    (NumId 4207) = true.
Proof. vm_compute. reflexivity. Qed.

(** Numbers from [2^53] on are identified by the string form of the
    double they denote: neighbours that round to the same double are one
    identifier, and from [1e21] on the string form is in exponent
    notation, so that the digits written out as a string name another
    identifier. *)
Example large_number_ids :
  toString (NumId (2 ^ 53 + 1)) = "9007199254740992"
  /\ toString (NumId (10 ^ 21)) = "1e+21"
  /\ toString (NumId (2 ^ 64)) = "18446744073709552000"
  /\ toString (NumId (- (2 ^ 1024))) = "-Infinity"
  /\ isCompanyExcluded
       (snd (updateCompanyExclusions [StrId "1000000000000000000000"]
               IoOk IoOk ∅))
       (NumId (10 ^ 21)) = false
  /\ isCompanyExcluded
       (snd (updateCompanyExclusions [NumId (2 ^ 53)] IoOk IoOk ∅))
       (NumId (2 ^ 53 + 1)) = true.
Proof. vm_compute. repeat split. Qed.

End BucketServiceFacts.

(** ** services/zoomInfoService.js *)

Module ZoomInfoServiceFacts.
Import JS Effects ZoomInfoService.

Section Retry.
Context {Params Payload : Type}.
Variable env : @Env Params Payload.
Variable cfg : Config.

Lemma bearers_app (a b : list Event) :
  bearers (a ++ b) = bearers a ++ bearers b.
Proof. unfold bearers. apply omap_app. Qed.

Lemma renewals_app (a b : list Event) :
  renewals (a ++ b) = (renewals a + renewals b)%nat.
Proof. unfold renewals. now rewrite omap_app, length_app. Qed.

(** A token held in memory that is not yet expired by the local clock is
    what [getJwtToken] returns, without any interaction. *)
Lemma getJwtToken_memory s tok exp :
  currentToken s = Some tok -> nonEmpty tok = true ->
  tokenExpiresAt s = Some exp -> now env (tick s) < exp ->
  getJwtToken env s = (Returned tok, s).
Proof.
  intros Htok Hne Hexp Hnow. unfold getJwtToken, memoryTokenValid.
  rewrite Htok, Hexp, Hne. simpl.
  now replace (now env (tick s) <? exp) with true by (symmetry; now apply Z.ltb_lt).
Qed.

(** While the token in memory is unexpired and the server answers 401 to
    it, every attempt of [makeAPICall] carries that same token, no
    renewal takes place, and the call ends by throwing. *)
Lemma rejected_token_reused endpoint params operation tok exp :
  nonEmpty tok = true ->
  (forall n, now env n < exp) ->
  (forall n, exists e,
      post env n endpoint params tok = Threw e /\ status e = Some 401%nat) ->
  forall retriesLeft s,
    currentToken s = Some tok -> tokenExpiresAt s = Some exp ->
    exists e s',
      makeAPICallFrom env cfg retriesLeft endpoint params operation s
      = (Threw e, s')
      /\ bearers (trace s')
         = bearers (trace s) ++ replicate (S retriesLeft) tok
      /\ renewals (trace s') = renewals (trace s).
Proof.
  intros Hne Hnow Hpost.
  induction retriesLeft as [|k IH]; intros s Htok Hexp.
  - cbn [makeAPICallFrom]. unfold attempt.
    rewrite (getJwtToken_memory _ tok exp) by (try assumption; apply Hnow).
    destruct (Hpost (tick (sleep (rateLimitDelay cfg) s))) as (e & -> & Hst).
    rewrite Hst. eexists _, _. split; [reflexivity|].
    cbn [trace emit sleep]. rewrite !bearers_app, !renewals_app.
    unfold bearers, renewals. rewrite <- ?app_assoc. simpl.
    split; [reflexivity | lia].
  - cbn [makeAPICallFrom]. unfold attempt.
    rewrite (getJwtToken_memory _ tok exp) by (try assumption; apply Hnow).
    destruct (Hpost (tick (sleep (rateLimitDelay cfg) s))) as (e & -> & Hst).
    rewrite Hst.
    match goal with
    | |- context [makeAPICallFrom _ _ k _ _ _ ?s2] =>
        destruct (IH s2) as (e' & s' & Heq & Hb & Hr);
          [exact Htok | exact Hexp |]
    end.
    rewrite Heq. eexists _, _. split; [reflexivity|].
    rewrite Hb, Hr. cbn [trace setFile emit sleep].
    rewrite !bearers_app, !renewals_app.
    unfold bearers, renewals. rewrite <- ?app_assoc. simpl.
    split; [reflexivity | lia].
Qed.

End Retry.

Import Scenarios.

(** C3 on a client whose unexpired token the server rejects: the token
    file is removed, but every retry reads the same token from memory and
    sends it again; the token is never renewed, although a renewed token
    would have been accepted, and the call fails after the last retry. *)
Theorem rejected_token_is_reattached :
  let r := makeAPICall rejectingEnv threeRetries "search/company" tt
             "Company search" 0 staleClient in
  fst r = Threw (plainError
                   "Company search failed: 401 - Request failed with status code 401")
  /\ bearers (trace (snd r))
     = ["stale-token"; "stale-token"; "stale-token"; "stale-token"]
  /\ renewals (trace (snd r)) = 0%nat
  /\ tokenFile (snd r) = None
  /\ currentToken (snd r) = Some "stale-token"
  /\ post rejectingEnv 0 "search/company" tt "fresh-token" = Returned "companies".
Proof. vm_compute. repeat split. Qed.

(** The same happens when the token first comes from the token file:
    reading the file also stores the token in memory. *)
Example rejected_file_token_is_renewed :
  let client :=
    {| currentToken := None; tokenExpiresAt := None;
       tokenFile := tokenFile staleClient; tick := 0; trace := [] |} in
  let r := makeAPICall rejectingEnv threeRetries "search/company" tt
             "Company search" 0 client in
  fst r = Threw (plainError
                   "Company search failed: 401 - Request failed with status code 401")
  /\ bearers (trace (snd r))
     = ["stale-token"; "stale-token"; "stale-token"; "stale-token"].
Proof. vm_compute. repeat split. Qed.

End ZoomInfoServiceFacts.

(** ** services/leadProcessor.js *)

Module LeadProcessorFacts.
Import JS Effects BucketService BucketServiceFacts LeadProcessor.

Lemma searchedPages_app (a b : list Event) :
  searchedPages (a ++ b) = searchedPages a ++ searchedPages b.
Proof. unfold searchedPages. apply omap_app. Qed.

Lemma quietStep_refl w : quietStep w w.
Proof. now split. Qed.

Lemma quietStep_trans w1 w2 w3 :
  quietStep w1 w2 -> quietStep w2 w3 -> quietStep w1 w3.
Proof. intros [A B] [C D]. split; congruence. Qed.

Lemma emit_quiet ev w :
  searchedPages [ev] = [] -> quietStep w (emit ev w).
Proof.
  intros H. split; [|reflexivity]. cbn [trace emit].
  now rewrite searchedPages_app, H, app_nil_r.
Qed.

Lemma withSm_quiet f w : quietStep w (withSm f w).
Proof. now split. Qed.

Create HintDb quiet.
#[local] Hint Resolve quietStep_refl emit_quiet withSm_quiet : quiet.

Lemma truthy_populated o : truthy o = true <-> populated o.
Proof.
  unfold populated. destruct o as [[|c s]|]; simpl; split; try discriminate.
  - intros (s & [= <-] & H). now contradict H.
  - intros _. eexists; split; [reflexivity | discriminate].
  - reflexivity.
  - intros (s & [=] & _).
Qed.

Lemma hasContactInfo_spec d :
  hasContactInfo d = true
  <-> populated (email d) \/ populated (phone d) \/ populated (mobilePhone d).
Proof.
  unfold hasContactInfo. rewrite !orb_true_iff, !truthy_populated. tauto.
Qed.

Section Processor.
Variable env : Env.
Variable cfg : Config.

Lemma enrichOne_quiet company jobTitle location naicsCode st contact :
  quietStep (snd st)
    (snd (enrichOne env company jobTitle location naicsCode st contact)).
Proof.
  destruct st as [acc w]. unfold enrichOne.
  repeat case_match; simpl; auto with quiet.
Qed.

Lemma enrichAll_quiet company jobTitle location naicsCode contacts st :
  quietStep (snd st)
    (snd (foldl (enrichOne env company jobTitle location naicsCode)
                st contacts)).
Proof.
  revert st. induction contacts as [|c cs IH]; intros st; simpl.
  - apply quietStep_refl.
  - eapply quietStep_trans; [apply enrichOne_quiet | apply IH].
Qed.

Lemma processCompany_quiet jobTitle location naicsCode st company :
  quietStep (snd st)
    (snd (processCompany env cfg jobTitle location naicsCode st company)).
Proof.
  destruct st as [[cs ks] w]. unfold processCompany.
  destruct (searchContacts env _ _) as [res|e]; simpl.
  - match goal with
    | |- context [foldl ?f ?st ?l] =>
        pose proof (enrichAll_quiet company jobTitle location naicsCode l st) as H;
        destruct (foldl f st l) as [ks' w2]
    end.
    simpl in *. eapply quietStep_trans; [|exact H]. auto with quiet.
  - auto with quiet.
Qed.

Lemma processCompaniesContacts_quiet companies jobTitle location naicsCode w :
  quietStep w
    (snd (processCompaniesContacts env cfg companies jobTitle location
            naicsCode w)).
Proof.
  unfold processCompaniesContacts.
  change w with (snd (@nil CompanyData, @nil ContactData, w)) at 1.
  generalize (@nil CompanyData, @nil ContactData, w).
  induction companies as [|c cs IH]; intros st; simpl.
  - apply quietStep_refl.
  - eapply quietStep_trans; [apply processCompany_quiet | apply IH].
Qed.

Lemma updateCompanyExclusions_world newZiIds w :
  searchedPages (trace (snd (updateCompanyExclusions env newZiIds w)))
  = searchedPages (trace w)
  /\ companyExclusions (snd (updateCompanyExclusions env newZiIds w))
     = addAll newZiIds (companyExclusions w).
Proof.
  unfold updateCompanyExclusions.
  destruct (persistExclusions env (tick w)) as [wf up].
  pose proof (updateCompanyExclusions_set newZiIds wf up (companyExclusions w)) as H.
  destruct (BucketService.updateCompanyExclusions newZiIds wf up _) as [r s].
  simpl in *. subst s. split; [|reflexivity].
  now rewrite searchedPages_app, app_nil_r.
Qed.


Lemma finishPage_world page n companyResults found w :
  snd (finishPage cfg page n companyResults found w) = setPage (page + 1) w.
Proof. unfold finishPage. repeat case_match; reflexivity. Qed.


(** Every iteration issues exactly one company search, for its page. *)
Lemma pageBody_pages location naicsCode jobTitle page n found w :
  searchedPages
    (trace (snd (pageBody env cfg location naicsCode jobTitle page n found w)))
  = searchedPages (trace w) ++ [page].
Proof.
  unfold pageBody.
  set (params := {| metroRegion := _ |}).
  assert (H1 : searchedPages (trace (emit (CompanySearch params) w))
               = searchedPages (trace w) ++ [page])
    by (cbn [trace emit]; now rewrite searchedPages_app).
  destruct (searchCompanies env (tick w) params) as [res|e]; [|exact H1].
  destruct (crData res) as [[|c data]|]; [exact H1| |exact H1].
  destruct (filter _ (c :: data)) as [|c' new].
  - destruct (3 <=? S n)%nat; [exact H1|].
    rewrite finishPage_world. exact H1.
  - pose proof (processCompaniesContacts_quiet (c' :: new) jobTitle location
                  naicsCode (emit (CompanySearch params) w)) as [Hq _].
    destruct (processCompaniesContacts env cfg (c' :: new) _ _ _ _)
      as [[cs ks] w2].
    simpl in Hq.
    match goal with
    | |- context [updateCompanyExclusions env ?ids w2] =>
        pose proof (updateCompanyExclusions_world ids w2) as [Hu _];
        destruct (updateCompanyExclusions env ids w2) as [[u|e] w3]
    end; simpl in Hu.
    + rewrite finishPage_world. cbn [trace setPage withSm].
      now rewrite Hu, Hq.
    + cbn [snd]. now rewrite Hu, Hq.
Qed.



(** More fuel does not change what the loop returns. *)
Lemma pageLoop_fuel_mono fuel location naicsCode jobTitle page n found w r :
  pageLoop env cfg fuel location naicsCode jobTitle page n found w = Some r ->
  pageLoop env cfg (S fuel) location naicsCode jobTitle page n found w = Some r.
Proof.
  revert page n found w. induction fuel as [|fuel IH]; intros page n found w;
    [discriminate|].
  intros H. cbn [pageLoop] in H |- *.
  destruct (pageBody env cfg location naicsCode jobTitle page n found w)
    as [[[page' n'|why] found'] w']; [|exact H].
  apply IH, H.
Qed.


End Processor.


Import Scenarios.


Example three_pages_run :
  option_map (fun '(o, w') => (o, searchedPages (trace w')))
    (processCombination (pagesEnv 3) batchOf50 50
       "Colorado" "236118" "Project Manager"
       (worldOf StateManager.initialState ∅))
  = Some (Returned tt, [1; 2; 3]).
Proof. vm_compute. reflexivity. Qed.

(** *** A run that never ends *)





(** *** Resuming *)

Section Resume.
Variable env : Env.
Variable cfg : Config.

Lemma pageLoop_pages fuel location naicsCode jobTitle :
  forall page n found w r,
    pageLoop env cfg fuel location naicsCode jobTitle page n found w = Some r ->
    exists rest,
      searchedPages (trace (snd r)) = searchedPages (trace w) ++ page :: rest.
Proof.
  induction fuel as [|fuel IH]; intros page n found w r; [discriminate|].
  cbn [pageLoop].
  pose proof (pageBody_pages env cfg location naicsCode jobTitle page n found w) as Hp.
  destruct (pageBody env cfg location naicsCode jobTitle page n found w)
    as [[[page' n'|why] found'] w']; cbn [snd] in Hp.
  - intros H. destruct (IH _ _ _ _ _ H) as [rest Hrest].
    exists (page' :: rest). now rewrite Hrest, Hp, <- app_assoc.
  - intros [= <-]. exists []. exact Hp.
Qed.

(** Whatever [processCombination] returns, its first company search asks
    for the page it found in the state manager. *)
Lemma processCombination_first_page fuel location naicsCode jobTitle w r :
  processCombination env cfg fuel location naicsCode jobTitle w = Some r ->
  exists rest,
    searchedPages (trace (snd r))
    = searchedPages (trace w) ++ startPage w :: rest.
Proof.
  unfold processCombination.
  destruct (pageLoop env cfg fuel location naicsCode jobTitle (startPage w) 0
              noneFound w) as [[[why found] w1]|] eqn:Hloop; [|discriminate].
  destruct (pageLoop_pages _ _ _ _ _ _ _ _ _ Hloop) as [rest Hrest].
  cbn [snd] in Hrest. intros H. exists rest. rewrite <- Hrest.
  assert (Hsave : searchedPages (trace (snd (saveResults env found w1)))
                  = searchedPages (trace w1)).
  { unfold saveResults. destruct (storeResults env (tick w1)); cbn [snd trace emit];
      now rewrite searchedPages_app, app_nil_r. }
  destruct (saveResults env found w1) as [[u|e] w2]; cbn [snd] in Hsave;
    destruct (combinationCompanies found), (combinationContacts found);
    injection H as <-; try exact Hsave; reflexivity.
Qed.

Lemma combinationLoop_pages fuel :
  forall rest combinationIndex w r,
    combinationLoop env cfg fuel combinationIndex rest w = Some r ->
    exists more,
      searchedPages (trace (snd r)) = searchedPages (trace w) ++ more.
Proof.
  induction rest as [|c rest IH]; intros idx w r; cbn [combinationLoop].
  - intros [= <-]. exists []. cbn [snd trace markCompleted withSm emit].
    now rewrite searchedPages_app.
  - destruct (processCombination env cfg fuel _ _ _ (enterCombination idx w))
      as [[[u|e] w1]|] eqn:Hpc; [| |discriminate].
    + destruct (processCombination_first_page _ _ _ _ _ _ Hpc) as [pages Hpages].
      cbn [snd] in Hpages. intros H.
      destruct (IH _ _ _ H) as [more Hmore].
      eexists. rewrite Hmore, Hpages. cbn [trace enterCombination withSm].
      rewrite <- app_assoc. reflexivity.
    + destruct (processCombination_first_page _ _ _ _ _ _ Hpc) as [pages Hpages].
      intros [= <-]. eexists. exact Hpages.
Qed.

(** On every resume that has a combination left to process, the first
    company search asks for page 1, whatever page was persisted. *)
Lemma resume_first_page fuel searchCombinations w combination r :
  StateManager.completed (StateManager.state (sm w)) = false ->
  searchCombinations
    !! default 0%nat (StateManager.currentCombinationIndex
                        (StateManager.state (sm w)))
  = Some combination ->
  processAllCombinations env cfg fuel searchCombinations w = Some r ->
  exists rest,
    searchedPages (trace (snd r)) = searchedPages (trace w) ++ 1 :: rest.
Proof.
  intros Hc Hk. unfold processAllCombinations, StateManager.getCurrentState.
  rewrite Hc, (drop_S _ _ _ Hk). cbn [combinationLoop].
  destruct (processCombination env cfg fuel _ _ _ (enterCombination _ w))
    as [[[u|e] w1]|] eqn:Hpc; [| |discriminate].
  - destruct (processCombination_first_page _ _ _ _ _ _ Hpc) as [pages Hpages].
    cbn [snd] in Hpages. intros H.
    destruct (combinationLoop_pages _ _ _ _ _ H) as [more Hmore].
    exists (pages ++ more). rewrite Hmore, Hpages.
    cbn [trace enterCombination withSm]. rewrite <- app_assoc. reflexivity.
  - destruct (processCombination_first_page _ _ _ _ _ _ Hpc) as [pages Hpages].
    intros [= <-]. exists pages. exact Hpages.
Qed.

(** C9: when the loaded state says [completed], [processAllCombinations]
    returns at once: no company search (no interaction at all) takes
    place, and the progress record and the exclusion set stay as they
    are. *)
Theorem completed_run_is_noop (fuel : nat)
    (searchCombinations : list SearchParams.Combination) (w : World) :
  StateManager.completed (StateManager.getCurrentState (sm w)) = true ->
  processAllCombinations env cfg fuel searchCombinations w
  = Some (Returned tt, w).
Proof. intros H. unfold processAllCombinations. now rewrite H. Qed.

End Resume.

(** *** The output lists only grow *)

Section Output.
Variable env : Env.
Variable cfg : Config.

Lemma enrichOne_extends company jobTitle location naicsCode st contact :
  exists more,
    fst (enrichOne env company jobTitle location naicsCode st contact)
    = fst st ++ more.
Proof.
  destruct st as [acc w]. unfold enrichOne.
  repeat case_match; cbn [fst]; try (exists []; now rewrite app_nil_r).
  eexists. reflexivity.
Qed.

Lemma enrichAll_extends company jobTitle location naicsCode contacts st :
  exists more,
    fst (foldl (enrichOne env company jobTitle location naicsCode) st contacts)
    = fst st ++ more.
Proof.
  revert st. induction contacts as [|c cs IH]; intros st; simpl.
  - exists []. now rewrite app_nil_r.
  - destruct (IH (enrichOne env company jobTitle location naicsCode st c))
      as [more2 H2].
    destruct (enrichOne_extends company jobTitle location naicsCode st c)
      as [more1 H1].
    exists (more1 ++ more2). now rewrite H2, H1, app_assoc.
Qed.

Lemma processCompany_extends jobTitle location naicsCode st company :
  exists more,
    snd (fst (processCompany env cfg jobTitle location naicsCode st company))
    = snd (fst st) ++ more.
Proof.
  destruct st as [[cs ks] w]. unfold processCompany.
  destruct (searchContacts env _ _) as [res|e]; cbn [fst snd].
  - match goal with
    | |- context [foldl ?f ?st ?l] =>
        destruct (enrichAll_extends company jobTitle location naicsCode l st)
          as [more H];
        destruct (foldl f st l) as [ks' w2]
    end.
    exists more. exact H.
  - exists []. now rewrite app_nil_r.
Qed.

(** Contacts accepted on one page are all handed to the list of the
    combination, behind those of earlier pages. *)
Lemma pageBody_extends location naicsCode jobTitle page n found w :
  exists more,
    combinationContacts
      (snd (fst (pageBody env cfg location naicsCode jobTitle page n found w)))
    = combinationContacts found ++ more.
Proof.
  assert (Hsame : exists more : list ContactData,
             combinationContacts found = combinationContacts found ++ more)
    by (exists []; now rewrite app_nil_r).
  assert (Hfin : forall p k res f w0,
             snd (fst (finishPage cfg p k res f w0)) = f)
    by (intros; unfold finishPage; repeat case_match; reflexivity).
  unfold pageBody.
  destruct (searchCompanies env (tick w) _) as [res|e]; [|exact Hsame].
  destruct (crData res) as [[|c data]|]; [exact Hsame| |exact Hsame].
  destruct (filter _ (c :: data)) as [|c' new].
  - destruct (3 <=? S n)%nat; [exact Hsame|]. rewrite Hfin. exact Hsame.
  - destruct (processCompaniesContacts env cfg (c' :: new) _ _ _ _)
      as [[cs ks] w2].
    destruct (updateCompanyExclusions env _ w2) as [[u|e] w3].
    + rewrite Hfin. exists ks. reflexivity.
    + exists ks. reflexivity.
Qed.

End Output.

(** The scenario of an API without any company: one search per
    combination, each for page 1, and the run completes. *)
Example empty_pages_run :
  option_map (fun '(o, w') =>
                (o, searchedPages (trace w'),
                 StateManager.completed (StateManager.state (sm w'))))
    (processAllCombinations emptyEnv batchOf50 60 [colorado; colorado]
       (worldOf StateManager.initialState ∅))
  = Some (Returned tt, [1; 1], true).
Proof. vm_compute. reflexivity. Qed.

Lemma completed_run_is_noop_witness :
  StateManager.completed
    (StateManager.getCurrentState (sm (worldOf finished {[ "4207" ]}))) = true
  /\ processAllCombinations (pagesEnv 3) batchOf50 60 [colorado; colorado]
       (worldOf finished {[ "4207" ]})
     = Some (Returned tt, worldOf finished {[ "4207" ]}).
Proof.
  split; [reflexivity|].
  apply (completed_run_is_noop (pagesEnv 3) batchOf50 60 [colorado; colorado]
           (worldOf finished {[ "4207" ]})).
  reflexivity.
Defined.

(** C1 on a run interrupted in combination 0 at page 4, after the companies
    of pages 1 to 3 were excluded, against an API with five pages: the
    resumed run asks for page 1, not page 4; it then meets three pages
    without a new company and stops, so that pages 4 and 5 are never
    requested. *)
Theorem resume_ignores_persisted_page :
  let w := worldOf (interruptedAt 0 4) {[ "1"; "2"; "3" ]} in
  StateManager.currentCombinationIndex (StateManager.state (sm w)) = Some 0%nat
  /\ StateManager.currentPage (StateManager.state (sm w)) = 4
  /\ option_map (fun '(o, w') => (o, searchedPages (trace w')))
       (processAllCombinations (pagesEnv 5) batchOf50 60 [colorado] w)
     = Some (Returned tt, [1; 2; 3]).
Proof. vm_compute. repeat split. Qed.

End LeadProcessorFacts.


(** ** services/leadProcessor.js: which contacts are put out *)

Module ContactFacts.
Import JS Effects BucketService LeadProcessor LeadProcessorFacts Crawl.

Lemma enrichedDataOf_hasRecord response d :
  enrichedDataOf response = Some d <-> hasRecord response d.
Proof.
  unfold enrichedDataOf, hasRecord. split.
  - destruct (rsData response) as [body|] eqn:Hb; [|discriminate].
    destruct (ebResult body) as [[|result results]|] eqn:Hr; try discriminate.
    destruct (erData result) as [[|d0 entries]|] eqn:He; try discriminate.
    intros [= <-]. now exists body, result, results, entries.
  - intros (body & result & results & entries & -> & -> & ->). reflexivity.
Qed.

Lemma Chosen_app {A B} (P : A -> Prop) (f : A -> B) l1 o1 l2 o2 :
  Chosen P f l1 o1 -> Chosen P f l2 o2 -> Chosen P f (l1 ++ l2) (o1 ++ o2).
Proof.
  intros H1 H2. induction H1; cbn [app]; [exact H2 | |];
    now constructor.
Qed.

Lemma lookup_map_Some {A B} (f : A -> B) (l : list A) (j : nat) (x : A) :
  l !! j = Some x -> map f l !! j = Some (f x).
Proof.
  revert j. induction l as [|a l IH]; intros [|j]; cbn; try discriminate.
  - now intros [= ->].
  - apply IH.
Qed.

Section Contacts.
Variable env : Env.
Variable cfg : Config.

Lemma returnedContacts_app t a b :
  returnedContacts env t (a ++ b)
  = returnedContacts env t a ++ returnedContacts env (t + length a) b.
Proof.
  revert t. induction a as [|ev a IH]; intros t; cbn [app returnedContacts length].
  - now rewrite Nat.add_0_r.
  - rewrite IH, <- app_assoc. do 2 f_equal. f_equal. lia.
Qed.

Lemma returnedContacts_enrich t (contacts : list Contact) :
  returnedContacts env t (map (fun c => Enrich (toString (ctId c))) contacts)
  = [].
Proof.
  revert t. induction contacts as [|c cs IH]; intros t; [reflexivity|].
  cbn [map returnedContacts app]. apply IH.
Qed.

Lemma accounted_same w cts w' :
  trace w' = trace w -> tick w' = tick w -> accounted env w cts w' cts.
Proof.
  intros Ht Hk. exists [], []. rewrite !app_nil_r. cbn [length].
  repeat split; [exact Ht | lia | constructor | constructor].
Qed.

Lemma accounted_trans w cts w1 cts1 w2 cts2 :
  accounted env w cts w1 cts1 -> accounted env w1 cts1 w2 cts2 ->
  accounted env w cts w2 cts2.
Proof.
  intros (e1 & a1 & T1 & K1 & C1 & F1 & S1) (e2 & a2 & T2 & K2 & C2 & F2 & S2).
  exists (e1 ++ e2), (a1 ++ a2).
  rewrite returnedContacts_app, <- K1, map_app.
  split; [now rewrite T2, T1, app_assoc|].
  split; [rewrite K2, K1, length_app; lia|].
  split; [now rewrite C2, C1, app_assoc|].
  split; [|now apply Chosen_app].
  apply Forall_app. split.
  - eapply Forall_impl; [exact F1|]. cbn. intros r [Hl Hle]. split; [|exact Hle].
    now apply lookup_app_l_Some.
  - eapply Forall_impl; [exact F2|]. cbn. intros r [Hl Hle]. split; [|lia].
    rewrite lookup_app_r by lia.
    replace (enrichedAt r - tick w - length e1)%nat
      with (enrichedAt r - tick w1)%nat by lia.
    exact Hl.
Qed.

Lemma accounted_emit ev w cts :
  (forall params, ev <> ContactSearch params) ->
  accounted env w cts (emit ev w) cts.
Proof.
  intros Hev. exists [ev], []. cbn [trace tick emit length].
  rewrite app_nil_r.
  assert (Hr : returnedContacts env (tick w) [ev] = []).
  { cbn [returnedContacts]. destruct ev; try reflexivity.
    now destruct (Hev params). }
  rewrite Hr. repeat split; [lia | constructor | constructor].
Qed.

Lemma accounted_more w cts w' added :
  accounted env w [] w' added -> accounted env w cts w' (cts ++ added).
Proof.
  intros (evs & a & T & K & C & F & S). cbn [app] in C. subst a.
  now exists evs, added.
Qed.

(** One enrichment: the contact is appended exactly when the answer is
    acceptable. *)
Lemma enrichOne_accepts company jobTitle location naicsCode acc w contact :
  let r := {| enrichedAt := tick w; ofCompany := toString (coId company);
              who := contact |} in
  let st := enrichOne env company jobTitle location naicsCode (acc, w)
              contact in
  trace (snd st) = trace w ++ [Enrich (toString (ctId contact))]
  /\ tick (snd st) = S (tick w)
  /\ (accepted env r
      /\ (exists contactData,
             fst st = acc ++ [contactData] /\ contactKey contactData = keyOf r)
      \/ ~ accepted env r /\ fst st = acc).
Proof.
  intros r st. subst r st. unfold enrichOne, accepted, enrichmentOf, acceptable.
  cbn [enrichedAt who ofCompany].
  destruct (enrichContact env (tick w) (toString (ctId contact)))
    as [response|e] eqn:Hr; cbn [fst snd trace tick emit].
  - destruct (enrichedDataOf response) as [d|] eqn:Hd.
    + destruct (hasContactInfo d) eqn:Hh; cbn [fst snd trace tick emit];
        (split; [reflexivity|]); (split; [reflexivity|]).
      * left. split.
        -- exists response, d. split; [reflexivity|].
           split; [now apply enrichedDataOf_hasRecord|].
           now apply hasContactInfo_spec.
        -- eexists. split; reflexivity.
      * right. split; [|reflexivity].
        intros (response' & d' & [= <-] & Hrec & Hpop).
        apply enrichedDataOf_hasRecord in Hrec.
        assert (d' = d) by congruence. subst d'.
        apply hasContactInfo_spec in Hpop. congruence.
    + split; [reflexivity|]. split; [reflexivity|].
      right. split; [|reflexivity].
      intros (response' & d' & [= <-] & Hrec & _).
      apply enrichedDataOf_hasRecord in Hrec. congruence.
  - split; [reflexivity|]. split; [reflexivity|].
    right. split; [|reflexivity].
    intros (response' & d' & [=] & _).
Qed.

Lemma enrichAll_accepts company jobTitle location naicsCode contacts :
  forall acc w,
    let st := foldl (enrichOne env company jobTitle location naicsCode)
                    (acc, w) contacts in
    trace (snd st)
    = trace w ++ map (fun c => Enrich (toString (ctId c))) contacts
    /\ tick (snd st) = (tick w + length contacts)%nat
    /\ exists added,
        fst st = acc ++ added
        /\ Chosen (accepted env) keyOf
             (imap (fun j c => {| enrichedAt := tick w + j;
                                  ofCompany := toString (coId company);
                                  who := c |}) contacts)
             (map contactKey added).
Proof.
  induction contacts as [|c cs IH]; intros acc w; cbn [foldl].
  - cbn [fst snd map length imap]. rewrite app_nil_r, Nat.add_0_r.
    repeat split. exists []. rewrite app_nil_r. split; [reflexivity|constructor].
  - destruct (enrichOne_accepts company jobTitle location naicsCode acc w c)
      as (T1 & K1 & H1).
    destruct (enrichOne env company jobTitle location naicsCode (acc, w) c)
      as [acc1 w1]. cbn [fst snd] in T1, K1, H1.
    destruct (IH acc1 w1) as (T2 & K2 & added & A2 & C2).
    cbn zeta in *.
    split; [rewrite T2, T1, <- app_assoc; reflexivity|].
    split; [rewrite K2, K1; cbn [length]; lia|].
    rewrite imap_cons.
    assert (Himap :
      imap ((fun j c0 => {| enrichedAt := tick w + j;
                            ofCompany := toString (coId company);
                            who := c0 |}) ∘ S) cs
      = imap (fun j c0 => {| enrichedAt := tick w1 + j;
                             ofCompany := toString (coId company);
                             who := c0 |}) cs).
    { apply imap_ext. intros j x _. cbn. f_equal. lia. }
    rewrite Himap, Nat.add_0_r.
    destruct H1 as [(Hacc & kd & -> & Hkey) | (Hno & ->)].
    + exists (kd :: added). split; [rewrite A2, <- app_assoc; reflexivity|].
      cbn [map]. rewrite Hkey. now constructor.
    + exists added. split; [exact A2|]. now constructor.
Qed.

Lemma processCompany_accounted jobTitle location naicsCode cos cts w company :
  let st := processCompany env cfg jobTitle location naicsCode (cos, cts, w)
              company in
  accounted env w cts (snd st) (snd (fst st)).
Proof.
  intros st. subst st. unfold processCompany.
  set (params := {| companyId := _ |}).
  destruct (searchContacts env (tick w) params) as [res|e] eqn:Hs.
  - destruct (enrichAll_accepts company jobTitle location naicsCode
                (default [] (ktData res)) cts (emit (ContactSearch params) w))
      as (T & K & added & A & C).
    destruct (foldl _ _ (default [] (ktData res))) as [cts' w2].
    cbn [fst snd] in *. cbn [trace tick emit] in T, K, C.
    exists (ContactSearch params
            :: map (fun c => Enrich (toString (ctId c)))
                   (default [] (ktData res))), added.
    cbn [trace tick countProcessed withSm].
    assert (Hr : returnedContacts env (tick w)
                   (ContactSearch params
                    :: map (fun c => Enrich (toString (ctId c)))
                           (default [] (ktData res)))
                 = imap (fun j c => {| enrichedAt := S (tick w) + j;
                                       ofCompany := toString (coId company);
                                       who := c |})
                        (default [] (ktData res))).
    { cbn [returnedContacts]. rewrite Hs, returnedContacts_enrich, app_nil_r.
      reflexivity. }
    rewrite Hr.
    split; [rewrite T, <- app_assoc; reflexivity|].
    split; [rewrite K; cbn [length]; rewrite length_map; lia|].
    split; [exact A|]. split; [|exact C].
    apply Forall_forall. intros r Hin.
    apply elem_of_lookup_imap in Hin. destruct Hin as (j & c & -> & Hj).
    cbn [enrichedAt who]. split; [|lia].
    replace (S (tick w) + j - tick w)%nat with (S j) by lia.
    change ((ContactSearch params
             :: map (fun c0 => Enrich (toString (ctId c0)))
                    (default [] (ktData res))) !! S j)
      with (map (fun c0 => Enrich (toString (ctId c0)))
                (default [] (ktData res)) !! j).
    now apply (lookup_map_Some (fun c0 => Enrich (toString (ctId c0)))).
  - cbn [fst snd]. exists [ContactSearch params], [].
    cbn [trace tick emit length returnedContacts]. rewrite Hs, app_nil_r.
    repeat split; [lia | constructor | constructor].
Qed.

Lemma processCompanies_accounted jobTitle location naicsCode companies :
  forall cos cts w,
    let st := foldl (processCompany env cfg jobTitle location naicsCode)
                    (cos, cts, w) companies in
    accounted env w cts (snd st) (snd (fst st)).
Proof.
  induction companies as [|c cs IH]; intros cos cts w; cbn [foldl].
  - now apply accounted_same.
  - pose proof (processCompany_accounted jobTitle location naicsCode cos cts
                  w c) as H1.
    destruct (processCompany env cfg jobTitle location naicsCode (cos, cts, w) c)
      as [[cos1 cts1] w1]. cbn [fst snd] in H1.
    eapply accounted_trans; [exact H1 | apply IH].
Qed.

Lemma pageBody_accounted location naicsCode jobTitle page n found w :
  let r := pageBody env cfg location naicsCode jobTitle page n found w in
  accounted env w (combinationContacts found) (snd r)
    (combinationContacts (snd (fst r))).
Proof.
  intros r. subst r. unfold pageBody.
  set (params := {| metroRegion := _ |}).
  assert (H0 : accounted env w (combinationContacts found)
                 (emit (CompanySearch params) w) (combinationContacts found))
    by (apply accounted_emit; discriminate).
  assert (Hfin : forall p k res f w0,
             snd (finishPage cfg p k res f w0) = setPage (p + 1) w0
             /\ snd (fst (finishPage cfg p k res f w0)) = f)
    by (intros; unfold finishPage; repeat case_match; split; reflexivity).
  assert (Hpage : forall p cts w0, accounted env w0 cts (setPage p w0) cts)
    by (intros; now apply accounted_same).
  destruct (searchCompanies env (tick w) params) as [res|e]; [|exact H0].
  destruct (crData res) as [[|c data]|]; [exact H0| |exact H0].
  destruct (filter _ (c :: data)) as [|c' new].
  - destruct (3 <=? S n)%nat; [exact H0|].
    destruct (Hfin page (S n) res found (emit (CompanySearch params) w))
      as [-> ->].
    eapply accounted_trans; [exact H0 | apply Hpage].
  - unfold processCompaniesContacts.
    pose proof (processCompanies_accounted jobTitle location naicsCode
                  (c' :: new) [] [] (emit (CompanySearch params) w)) as Hp.
    destruct (foldl _ _ (c' :: new)) as [[cs ks] w2]. cbn [fst snd] in Hp.
    apply (accounted_more _ (combinationContacts found)) in Hp.
    assert (Hu : forall ids,
               accounted env w2 (combinationContacts found ++ ks)
                 (snd (LeadProcessor.updateCompanyExclusions env ids w2))
                 (combinationContacts found ++ ks)).
    { intros ids. unfold LeadProcessor.updateCompanyExclusions.
      destruct (persistExclusions env (tick w2)) as [wf up].
      destruct (BucketService.updateCompanyExclusions ids wf up _) as [o s0].
      cbn [snd]. eapply accounted_trans.
      - apply (accounted_emit ExclusionsWrite). discriminate.
      - now apply accounted_same. }
    match goal with
    | |- context [LeadProcessor.updateCompanyExclusions env ?ids w2] =>
        specialize (Hu ids);
        destruct (LeadProcessor.updateCompanyExclusions env ids w2)
          as [[u|e] w3]
    end; cbn [snd] in Hu.
    + match goal with
      | |- context [finishPage cfg ?p ?k ?r ?f ?w0] =>
          destruct (Hfin p k r f w0) as [-> ->]
      end.
      cbn [combinationContacts].
      eapply accounted_trans; [exact H0|].
      eapply accounted_trans; [exact Hp|].
      eapply accounted_trans; [exact Hu | apply Hpage].
    + cbn [fst snd combinationContacts].
      eapply accounted_trans; [exact H0|].
      eapply accounted_trans; [exact Hp | exact Hu].
Qed.

Lemma pageLoop_accounted fuel location naicsCode jobTitle :
  forall page n found w why found' w',
    pageLoop env cfg fuel location naicsCode jobTitle page n found w
    = Some (why, found', w') ->
    accounted env w (combinationContacts found) w'
      (combinationContacts found').
Proof.
  induction fuel as [|fuel IH]; intros page n found w why found' w';
    [discriminate|].
  cbn [pageLoop].
  pose proof (pageBody_accounted location naicsCode jobTitle page n found w)
    as Hb.
  destruct (pageBody env cfg location naicsCode jobTitle page n found w)
    as [[[page1 n1|why1] found1] w1]; cbn [fst snd] in Hb.
  - intros H. eapply accounted_trans; [exact Hb | exact (IH _ _ _ _ _ _ _ H)].
  - intros [= <- <- <-]. exact Hb.
Qed.

End Contacts.

(** C6: the contacts of a combination's output list are those returned
    by its contact searches whose enrichment is acceptable, and no others.
    Consider the page loop of [processCombination] (or one iteration of
    it), started in a world whose ticks count its interactions, and the
    contacts that the contact searches of the loop return, in the order
    of their return.  Each of them is enriched (once, at its tick), and
    the loop appends to
    [combinationContacts], the list that [processCombination] then hands
    to [saveResults], an entry for exactly those of them whose
    enrichment call returns a response that holds a record in which the
    e-mail address, the phone or the mobile phone is populated: one
    entry for each, in the same order, under the ids of the company and
    of the contact.  A contact whose enrichment fails, whose response
    holds no record, or whose record has none of the three populated gets
    no entry.  The condition is an OR: a record with a mobile phone only
    makes the contact acceptable, a record with none of the three does
    not. *)
Theorem contact_accepted_iff (env : Env) (cfg : Config) (fuel : nat)
    (location naicsCode jobTitle : string) (page : Z) (n : nat)
    (found : Found) (w : World) :
  tick w = length (trace w) ->
  let putOut (found' : Found) (w' : World) : Prop :=
    let returned :=
      returnedContacts env (tick w) (drop (length (trace w)) (trace w')) in
    Forall (fun r => trace w' !! enrichedAt r
                     = Some (Enrich (toString (ctId (who r))))) returned
    /\ exists added,
        combinationContacts found' = combinationContacts found ++ added
        /\ Chosen (accepted env) keyOf returned (map contactKey added) in
  (let r := pageBody env cfg location naicsCode jobTitle page n found w in
   putOut (snd (fst r)) (snd r))
  /\ match pageLoop env cfg fuel location naicsCode jobTitle page n found w
     with
     | Some (_, found', w') => putOut found' w'
     | None => True
     end
  /\ (forall response d,
        hasRecord response d -> populated (mobilePhone d) ->
        acceptable (Returned response))
  /\ (forall response d,
        hasRecord response d ->
        ~ populated (email d) -> ~ populated (phone d) ->
        ~ populated (mobilePhone d) ->
        ~ acceptable (Returned response)).
Proof.
  intros Hwf putOut.
  assert (Hput : forall found' w',
             accounted env w (combinationContacts found) w'
               (combinationContacts found') ->
             putOut found' w').
  { intros found' w' (evs & added & T & K & C & F & S).
    subst putOut. cbv beta zeta. rewrite T, drop_app_length.
    split; [|now exists added].
    eapply Forall_impl; [exact F|]. cbn. intros r [Hl Hle].
    rewrite lookup_app_r by lia. now rewrite <- Hwf. }
  split; [|split; [|split]].
  - apply Hput, pageBody_accounted.
  - destruct (pageLoop env cfg fuel location naicsCode jobTitle page n found w)
      as [[[why found'] w']|] eqn:Hloop; [|exact I].
    apply Hput. exact (pageLoop_accounted env cfg _ _ _ _ _ _ _ _ _ _ _ Hloop).
  - intros response d Hrec Hm. exists response, d. auto.
  - intros response d Hrec He Hp Hm (response' & d' & [= <-] & Hrec' & Hpop).
    apply enrichedDataOf_hasRecord in Hrec, Hrec'.
    assert (d' = d) by congruence. subst d'. tauto.
Qed.

Import Scenarios.

Lemma contact_accepted_iff_witness :
  let w := worldOf StateManager.initialState ∅ in
  tick w = length (trace w)
  /\ match pageLoop contactsEnv batchOf50 60 "Colorado" "236118"
             "Project Manager" 1 0 noneFound w with
     | Some (_, found', w') =>
         let returned :=
           returnedContacts contactsEnv (tick w)
             (drop (length (trace w)) (trace w')) in
         Forall (fun r => trace w' !! enrichedAt r
                          = Some (Enrich (toString (ctId (who r))))) returned
         /\ exists added,
             combinationContacts found'
             = combinationContacts noneFound ++ added
             /\ Chosen (accepted contactsEnv) keyOf returned
                  (map contactKey added)
     | None => True
     end.
Proof.
  intros w. split; [reflexivity|].
  exact (proj1 (proj2 (contact_accepted_iff contactsEnv batchOf50 60
                         "Colorado" "236118" "Project Manager" 1 0 noneFound
                         w eq_refl))).
Defined.

(** Five contacts are returned for company 1; the one with a mobile phone
    only and the one with an e-mail address are put out, the one with an
    empty e-mail address, the one whose enrichment fails and the one
    without a record are not. *)
Example accepted_contacts_run :
  option_map (fun '(_, found', w') =>
                (map keyOf (returnedContacts contactsEnv 0 (trace w')),
                 map (fun contactData =>
                        (contactKey contactData, kdEmail contactData,
                         kdMobilePhone contactData))
                     (combinationContacts found')))
    (pageLoop contactsEnv batchOf50 60 "Colorado" "236118" "Project Manager"
       1 0 noneFound (worldOf StateManager.initialState ∅))
  = Some ([("1", "11"); ("1", "12"); ("1", "13"); ("1", "14"); ("1", "15")],
          [(("1", "11"), "", "+1 555 0100");
           (("1", "14"), "ada@example.com", "")]).
Proof. vm_compute. reflexivity. Qed.

End ContactFacts.


(** * Further properties *)

(** ** config/searchParams.js *)

Module SearchParamsMore.
Import JS JSFacts SearchParams SearchParamsFacts.

(** The completeness test of [getSearchCombinations] and
    [getValidGroupCount]. *)
Lemma groupCombinations_valid gi g c :
  In c (groupCombinations gi g) ->
  lacks (locations g) = false /\ lacks (job_titles g) = false
  /\ lacks (naics_codes g) = false.
Proof.
  unfold groupCombinations.
  destruct (lacks (locations g)), (lacks (job_titles g)),
    (lacks (naics_codes g)); simpl; intros H; try contradiction.
  repeat split.
Qed.

Lemma groupCombinations_shape gi g c :
  In c (groupCombinations gi g) ->
  groupIndex c = gi
  /\ tidy (jobTitle c) = true
  /\ startsIn isWhiteSpace (location c) = false
  /\ endsIn isWhiteSpace (location c) = false.
Proof.
  unfold groupCombinations.
  destruct (_ || _); [contradiction|].
  intros (loc & _ & (nc & _ & (jt & <- & Hjt)%in_map_iff)%in_flat_map)%in_flat_map.
  cbn [groupIndex jobTitle location].
  pose proof (cleanJobTitles_tidy (orNil (job_titles g))) as Htidy.
  rewrite Forall_forall in Htidy. apply list_elem_of_In in Hjt.
  specialize (Htidy _ Hjt).
  assert (Htrim : trim jt = jt).
  { unfold tidy in Htidy.
    repeat match goal with
           | H : _ && _ = true |- _ => apply andb_true_iff in H; destruct H
           | H : negb _ = true |- _ => apply negb_true_iff in H
           end.
    now apply trim_fixed. }
  rewrite Htrim. repeat split;
    [exact Htidy | apply trim_startsIn | apply trim_endsIn].
Qed.

Lemma In_getSearchCombinations groups c :
  In c (getSearchCombinations groups) ->
  exists g, groups !! groupIndex c = Some g
            /\ In c (groupCombinations (groupIndex c) g).
Proof.
  unfold getSearchCombinations. intros H. apply in_concat in H.
  destruct H as (l & Hl & Hc). apply list_elem_of_In in Hl.
  apply elem_of_lookup_imap in Hl. destruct Hl as (i & g & -> & Hg).
  destruct (groupCombinations_shape _ _ _ Hc) as [-> _].
  exists g. now split.
Qed.

(** Every combination carries a usable job title (not empty, no comma, no
    white space at its ends), a location without white space at its ends,
    and the index of a group of the configuration that has its three
    lists. *)
Theorem combinations_wellformed (groups : list Group) :
  Forall (fun c =>
            tidy (jobTitle c) = true
            /\ startsIn isWhiteSpace (location c) = false
            /\ endsIn isWhiteSpace (location c) = false
            /\ exists g, groups !! groupIndex c = Some g
                         /\ lacks (locations g) = false
                         /\ lacks (job_titles g) = false
                         /\ lacks (naics_codes g) = false)
         (getSearchCombinations groups).
Proof.
  apply Forall_forall. intros c Hc%list_elem_of_In.
  destruct (In_getSearchCombinations _ _ Hc) as (g & Hg & Hin).
  destruct (groupCombinations_shape _ _ _ Hin) as (_ & Ht & Hs & He).
  repeat split; try assumption.
  exists g. split; [exact Hg|]. exact (groupCombinations_valid _ _ _ Hin).
Qed.

Lemma constant_sorted (l : list nat) k :
  Forall (fun n => n = k) l -> StronglySorted le l.
Proof.
  induction 1 as [|n l -> Hl IH]; constructor; [exact IH|].
  eapply Forall_impl; [exact Hl|]. simpl. intros m ->. lia.
Qed.

Lemma imap_groups_sorted groups k :
  StronglySorted le
    (map groupIndex
       (concat (imap (fun i => groupCombinations (k + i)) groups)))
  /\ Forall (fun c => k <= groupIndex c)%nat
       (concat (imap (fun i => groupCombinations (k + i)) groups)).
Proof.
  revert k. induction groups as [|g groups IH]; intros k.
  - split; constructor.
  - cbn [imap concat].
    destruct (IH (S k)) as [Hs Hf].
    assert (Heq : imap ((fun i => groupCombinations (k + i)) ∘ S) groups
                  = imap (fun i => groupCombinations (S k + i)) groups).
    { apply imap_ext. intros i x _. simpl. f_equal. lia. }
    rewrite Heq.
    assert (Hhead : Forall (fun c => groupIndex c = k)
                      (groupCombinations (k + 0) g)).
    { apply Forall_forall. intros c Hc%list_elem_of_In.
      destruct (groupCombinations_shape _ _ _ Hc) as [-> _]. lia. }
    split.
    + rewrite map_app. apply StronglySorted_app_2.
      * intros n1 n2 H1 H2.
        apply list_elem_of_In, in_map_iff in H1. destruct H1 as (c1 & <- & H1).
        apply list_elem_of_In, in_map_iff in H2. destruct H2 as (c2 & <- & H2).
        rewrite Forall_forall in Hhead, Hf.
        rewrite (Hhead c1) by now apply list_elem_of_In.
        specialize (Hf c2 (proj2 (list_elem_of_In _ _) H2)). simpl in Hf. lia.
      * apply constant_sorted with (k := k). apply Forall_map. exact Hhead.
      * exact Hs.
    + apply Forall_app. split.
      * eapply Forall_impl; [exact Hhead|]. simpl. intros c ->. lia.
      * eapply Forall_impl; [exact Hf|]. simpl. intros c Hc. lia.
Qed.

(** The combinations come in the order of their groups: along the
    sequence the group index never decreases, so that the combinations of
    one group form one block. *)
Theorem combinations_grouped (groups : list Group) :
  StronglySorted le (map groupIndex (getSearchCombinations groups)).
Proof.
  unfold getSearchCombinations.
  exact (proj1 (imap_groups_sorted groups 0)).
Qed.

End SearchParamsMore.

(** ** services/bucketService.js: the exclusion file *)

Module BucketFilesFacts.
Import JS JSFacts Effects BucketService BucketFiles.

Lemma split_app_sep sep x r :
  allChars (differs sep) x = true ->
  split sep (x +:+ String sep r) = x :: split sep r.
Proof.
  induction x as [|c x IH]; simpl.
  - intros _. now rewrite Ascii.eqb_refl.
  - intros [Hc Hx]%andb_true_iff. unfold differs in Hc.
    apply negb_true_iff in Hc. now rewrite Hc, (IH Hx).
Qed.

Lemma split_joinWith sep l :
  Forall (fun x => allChars (differs sep) x = true) l -> l <> [] ->
  split sep (joinWith sep l) = l.
Proof.
  induction 1 as [|x l Hx Hl IH]; [easy|]. intros _.
  cbn [joinWith]. destruct l as [|y l].
  - now apply split_without.
  - rewrite split_app_sep by exact Hx. now rewrite IH.
Qed.

Lemma removeChars_fixed p s :
  allChars (fun c => negb (p c)) s = true -> removeChars p s = s.
Proof.
  induction s as [|c s IH]; simpl; [reflexivity|].
  intros [Hc Hs]%andb_true_iff. apply negb_true_iff in Hc.
  now rewrite Hc, (IH Hs).
Qed.

Lemma removeChars_clean p s :
  allChars (fun c => negb (p c)) (removeChars p s) = true.
Proof.
  induction s as [|c s IH]; simpl; [reflexivity|].
  destruct (p c) eqn:E; [exact IH|]. simpl. now rewrite E, IH.
Qed.

Lemma allChars_removeChars q p s :
  allChars q s = true -> allChars q (removeChars p s) = true.
Proof.
  induction s as [|c s IH]; simpl; [reflexivity|].
  intros [Hc Hs]%andb_true_iff. destruct (p c); [auto|].
  simpl. now rewrite Hc, (IH Hs).
Qed.

Lemma plainId_line id :
  plainId id = true ->
  allChars (differs newline) id = true /\ trim id = id
  /\ keepLine id = true /\ removeChars isCsvJunk id = id.
Proof.
  unfold plainId. intros H.
  repeat match goal with
         | H : _ && _ = true |- _ => apply andb_true_iff in H; destruct H
         end.
  repeat match goal with
         | H : negb _ = true |- _ => apply negb_true_iff in H
         end.
  split; [assumption|]. split; [now apply trim_fixed|]. split.
  - unfold keepLine.
    repeat match goal with H : _ = _ |- _ => rewrite H end. reflexivity.
  - now apply removeChars_fixed.
Qed.

Lemma parse_plain_lines ids :
  forallb plainId ids = true ->
  map (removeChars isCsvJunk)
      (filter (fun line => keepLine line = true) (map trim ids)) = ids.
Proof.
  induction ids as [|id ids IH]; [reflexivity|].
  cbn [forallb map]. intros [Hid Hids]%andb_true_iff.
  destruct (plainId_line id Hid) as (_ & Ht & Hk & Hr).
  rewrite Ht, filter_cons_True by exact Hk.
  cbn [map]. now rewrite Hr, (IH Hids).
Qed.

(** The exclusion file is read back as it was written: for ids that are
    plain (one non-empty line each, no white space at the ends, no quote or
    comma, not starting with [zi_id]) the text that
    [updateCompanyExclusions] writes for them parses to the same ids, in
    the same order, and [downloadCompanyExclusions] on that text replaces
    whatever set there was by exactly these ids. *)
Theorem exclusion_file_round_trip (ids : list string) (before : gset string) :
  forallb plainId ids = true ->
  parseExclusions (exclusionList ids) = ids
  /\ downloadCompanyExclusions (Fetched (exclusionList ids)) before
     = list_to_set ids.
Proof.
  intros Hids.
  assert (Hparse : parseExclusions (exclusionList ids) = ids).
  { unfold parseExclusions, exclusionList. destruct ids as [|id ids].
    - reflexivity.
    - rewrite split_joinWith.
      + now apply parse_plain_lines.
      + apply Forall_forall. intros x Hx.
        rewrite forallb_forall in Hids. apply list_elem_of_In in Hx.
        now destruct (plainId_line x (Hids x Hx)).
      + discriminate. }
  split; [exact Hparse|]. cbn [downloadCompanyExclusions]. now rewrite Hparse.
Qed.

Lemma exclusion_file_round_trip_witness :
  forallb plainId ["4207"; "88"; "a-17"] = true
  /\ parseExclusions (exclusionList ["4207"; "88"; "a-17"])
     = ["4207"; "88"; "a-17"].
Proof.
  split; [reflexivity|].
  apply (exclusion_file_round_trip ["4207"; "88"; "a-17"] ∅). reflexivity.
Defined.

(** Whatever the downloaded file holds, no id read from it contains a
    quote, a comma or a line break. *)
Theorem parsed_ids_are_bare (content : string) :
  Forall (fun id =>
            allChars (fun c => negb (isCsvJunk c)) id = true
            /\ allChars (differs newline) id = true)
         (parseExclusions content).
Proof.
  unfold parseExclusions.
  pose proof (split_parts newline content) as Hparts.
  induction Hparts as [|part parts Hpart _ IH]; [constructor|].
  cbn [map]. destruct (keepLine (trim part)) eqn:E.
  - rewrite filter_cons_True by exact E. cbn [map]. constructor; [|exact IH].
    split; [apply removeChars_clean|].
    apply allChars_removeChars, allChars_trim, Hpart.
  - rewrite filter_cons_False by (rewrite E; discriminate). exact IH.
Qed.

(** A first line that is blank or begins, after trimming, with [zi_id]
    (the header) is skipped: the ids are those of the rest of the file. *)
Theorem header_line_is_skipped (header rest : string) :
  allChars (differs newline) header = true ->
  keepLine (trim header) = false ->
  parseExclusions (header +:+ String newline rest) = parseExclusions rest.
Proof.
  intros Hline Hskip. unfold parseExclusions.
  rewrite split_app_sep by exact Hline. cbn [map].
  now rewrite filter_cons_False by (rewrite Hskip; discriminate).
Qed.

Lemma header_line_is_skipped_witness :
  allChars (differs newline) "  zi_id,name " = true
  /\ keepLine (trim "  zi_id,name ") = false
  /\ parseExclusions ("  zi_id,name " +:+ String newline "4207")
     = parseExclusions "4207".
Proof.
  split; [reflexivity|]. split; [reflexivity|].
  apply (header_line_is_skipped "  zi_id,name " "4207"); reflexivity.
Defined.

Example quoted_lines_are_unquoted :
  parseExclusions
    ("zi_id" +:+ String newline
       (String SearchParams.dquote "4207" +:+ String SearchParams.dquote ","
        +:+ String newline (" 88 " +:+ String newline "")))
  = ["4207"; "88"].
Proof. reflexivity. Qed.

Lemma size_add (s : gset string) (x : string) :
  (size s <= size (s ∪ {[ x ]}) <= size s + 1)%nat.
Proof.
  split.
  - apply subseteq_size, union_subseteq_l.
  - rewrite size_union_alt.
    assert (size (({[ x ]} : gset string) ∖ s) <= 1)%nat; [|lia].
    rewrite <- (size_singleton (C := gset string) x).
    apply subseteq_size, subseteq_difference_l. reflexivity.
Qed.

(** [getExclusionCount] never goes down by an update, and an update with
    [n] ids raises it by at most [n], also when the write of the list
    fails. *)
Theorem exclusion_count_bounds (newZiIds : list ZiId) (w u : IoResult)
    (s : gset string) :
  (getExclusionCount s
   <= getExclusionCount (snd (updateCompanyExclusions newZiIds w u s))
   <= getExclusionCount s + length newZiIds)%nat.
Proof.
  assert (Hset : snd (updateCompanyExclusions newZiIds w u s) = addAll newZiIds s)
    by (unfold updateCompanyExclusions; destruct w, u; reflexivity).
  rewrite Hset. unfold getExclusionCount, addAll. clear Hset.
  revert s. induction newZiIds as [|i ids IH]; intros s; cbn [foldl length].
  - lia.
  - specialize (IH (s ∪ {[ toString i ]})).
    pose proof (size_add s (toString i)). lia.
Qed.

End BucketFilesFacts.

(** ** services/stateManager.js: progress updates *)

Module RestartFacts.
Import Effects StateManager Restart.

(** Two progress updates in a row amount to one update with the later
    values laid over the earlier ones, as [Object.assign] does it: a
    property named by the second update takes its value, any other
    property named by the first keeps the value of the first.  In
    particular an update done twice is an update done once. *)
Theorem updateProgress_composes (u1 u2 : Updates) (sm : t) :
  updateProgress u2 (updateProgress u1 sm) = updateProgress (overlay u1 u2) sm
  /\ updateProgress u1 (updateProgress u1 sm) = updateProgress u1 sm.
Proof.
  split; unfold updateProgress, assign, overlay; cbn; f_equal;
    destruct u1 as [i1 p1 c1 k1]; try destruct u2 as [i2 p2 c2 k2]; cbn.
  - destruct i2, p2, c2, k2; reflexivity.
  - destruct i1, p1, c1, k1; reflexivity.
Qed.

End RestartFacts.


(** ** services/zoomInfoService.js: retries and the token cache *)

Module ZoomInfoServiceMore.
Import JS Effects ZoomInfoService ApiTrace.

Section Calls.
Context {Params Payload : Type}.
Variable env : @Env Params Payload.
Variable cfg : Config.

(** [makeAPICall] unfolded once, with the status tests spelled out. *)
Lemma makeAPICallFrom_step retriesLeft endpoint params operation s :
  makeAPICallFrom env cfg retriesLeft endpoint params operation s
  = match attempt env cfg endpoint params s with
    | (Returned data, s1) => (Returned data, s1)
    | (Threw error, s1) =>
        match errorKind error, retriesLeft with
        | Unauthorized, S k =>
            makeAPICallFrom env cfg k endpoint params operation
              (setFile None (emit UnlinkTokenFile s1))
        | RateLimited, S k =>
            makeAPICallFrom env cfg k endpoint params operation
              (sleep (default 60 (retryAfter error) * 1000) s1)
        | RateLimited, O =>
            (Threw (callError operation error),
             sleep (default 60 (retryAfter error) * 1000) s1)
        | _, _ => (Threw (callError operation error), s1)
        end
    end.
Proof.
  destruct retriesLeft as [|k]; cbn [makeAPICallFrom];
    destruct (attempt env cfg endpoint params s) as [[data|error] s1];
    try reflexivity; unfold errorKind;
    destruct (status error) as [n|]; try reflexivity;
    do 430 (destruct n as [|n]; [reflexivity|]); reflexivity.
Qed.

Lemma posts_app (a b : list Event) : posts (a ++ b) = (posts a + posts b)%nat.
Proof. unfold posts. now rewrite omap_app, length_app. Qed.

Lemma sleeps_app (a b : list Event) : sleeps (a ++ b) = sleeps a ++ sleeps b.
Proof. unfold sleeps. apply omap_app. Qed.

Lemma errorKind_other error :
  status error <> Some 401%nat -> status error <> Some 429%nat ->
  errorKind error = OtherError.
Proof.
  unfold errorKind. destruct (status error) as [n|]; [|reflexivity].
  intros H1 H2.
  destruct (Nat.eqb_spec n 401) as [->|_]; [now contradict H1|].
  destruct (Nat.eqb_spec n 429) as [->|_]; [now contradict H2|].
  reflexivity.
Qed.

Lemma refreshToken_posts s :
  posts (trace (snd (refreshToken env s))) = posts (trace s).
Proof.
  unfold refreshToken.
  repeat case_match; cbn [snd trace emit setMemory setFile];
    rewrite ?posts_app; unfold posts; cbn; lia.
Qed.

Lemma getJwtToken_posts s :
  posts (trace (snd (getJwtToken env s))) = posts (trace s).
Proof.
  unfold getJwtToken.
  destruct (memoryTokenValid env s); [reflexivity|].
  destruct (tokenFile s) as [cred|]; [|apply refreshToken_posts].
  destruct (now env (tick s) <? expiresAt cred);
    [reflexivity | apply refreshToken_posts].
Qed.

Lemma attempt_posts endpoint params s :
  (posts (trace (snd (attempt env cfg endpoint params s)))
   <= posts (trace s) + 1)%nat.
Proof.
  unfold attempt.
  pose proof (getJwtToken_posts (sleep (rateLimitDelay cfg) s)) as H.
  destruct (getJwtToken env (sleep (rateLimitDelay cfg) s)) as [[tok|e] s2];
    cbn [snd] in *; cbn [trace sleep emit] in *;
    rewrite ?posts_app in *; unfold posts in *; cbn in *; lia.
Qed.

Lemma makeAPICallFrom_posts endpoint params operation retriesLeft :
  forall s,
    (posts (trace (snd (makeAPICallFrom env cfg retriesLeft endpoint params
                          operation s)))
     <= posts (trace s) + S retriesLeft)%nat.
Proof.
  induction retriesLeft as [|k IH]; intros s;
    rewrite makeAPICallFrom_step;
    pose proof (attempt_posts endpoint params s) as Ha;
    destruct (attempt env cfg endpoint params s) as [[data|error] s1];
    cbn [snd] in *; try lia;
    destruct (errorKind error); cbn [snd trace sleep emit];
    rewrite ?posts_app; try (unfold posts in *; cbn; lia).
  - match goal with
    | |- context [makeAPICallFrom env cfg k _ _ _ ?s2] =>
        specialize (IH s2); cbn [trace setFile emit] in IH;
        rewrite posts_app in IH; unfold posts in *; cbn in IH; lia
    end.
  - match goal with
    | |- context [makeAPICallFrom env cfg k _ _ _ ?s2] =>
        specialize (IH s2); cbn [trace sleep emit] in IH;
        rewrite posts_app in IH; unfold posts in *; cbn in IH; lia
    end.
Qed.

(** Whatever the API and the authentication answer, one call of
    [makeAPICall] sends at most [maxRetries - retryCount + 1] requests to
    its endpoint. *)
Theorem attempts_bounded (endpoint : string) (params : Params)
    (operation : string) (retryCount : nat) (s : t) :
  (posts (trace (snd (makeAPICall env cfg endpoint params operation
                        retryCount s)))
   <= posts (trace s) + S (maxRetries cfg - retryCount))%nat.
Proof. unfold makeAPICall. apply makeAPICallFrom_posts. Qed.

(** A failure that is neither a 401 nor a 429 (another status, no
    response at all, a failed token renewal) is never retried: the call
    throws after that one attempt, with a message made of the operation,
    the status and the message of the failure. *)
Theorem other_errors_not_retried (endpoint : string) (params : Params)
    (operation : string) (retryCount : nat) (s s1 : t) (error : JsError) :
  attempt env cfg endpoint params s = (Threw error, s1) ->
  status error <> Some 401%nat ->
  status error <> Some 429%nat ->
  makeAPICall env cfg endpoint params operation retryCount s
  = (Threw (plainError (operation +:+ " failed: " +:+ statusText error
                        +:+ " - " +:+ message error)), s1).
Proof.
  intros Ha H1 H2. unfold makeAPICall.
  rewrite makeAPICallFrom_step, Ha, (errorKind_other _ H1 H2).
  now destruct (maxRetries cfg - retryCount)%nat.
Qed.

(** The token cache: an unexpired token in memory is returned without any
    interaction; failing that, an unexpired token file is used and copied
    to memory; every token that [getJwtToken] returns is the one it leaves
    in memory; and it comes from the cache unless the authentication
    endpoint has just issued it. *)
Theorem token_cache (s : t) :
  (forall tok, memoryTokenValid env s = Some tok ->
               getJwtToken env s = (Returned tok, s))
  /\ (forall cred,
        memoryTokenValid env s = None -> tokenFile s = Some cred ->
        now env (tick s) < expiresAt cred ->
        getJwtToken env s
        = (Returned (token cred),
           setMemory (token cred) (expiresAt cred) s))
  /\ (forall tok s',
        getJwtToken env s = (Returned tok, s') ->
        currentToken s' = Some tok
        /\ (trace s' = trace s
            \/ authenticate env (tick s) = Returned tok
               /\ trace s' = trace s ++ [Authenticate; WriteTokenFile])).
Proof.
  assert (Hrefresh : forall tok s',
    refreshToken env s = (Returned tok, s') ->
    currentToken s' = Some tok
    /\ authenticate env (tick s) = Returned tok
    /\ trace s' = trace s ++ [Authenticate; WriteTokenFile]).
  { intros tok s'. unfold refreshToken.
    destruct (authenticate env (tick s)) as [jwt|e]; [|discriminate].
    destruct (writeToken env _); [|discriminate].
    intros [= <- <-]. cbn. rewrite <- app_assoc. repeat split. }
  split; [|split].
  - intros tok H. unfold getJwtToken. now rewrite H.
  - intros cred Hm Hf Hnow. unfold getJwtToken. rewrite Hm, Hf.
    now replace (now env (tick s) <? expiresAt cred) with true
      by (symmetry; now apply Z.ltb_lt).
  - intros tok s'. unfold getJwtToken.
    destruct (memoryTokenValid env s) as [tok0|] eqn:Hm.
    + intros [= <- <-]. split; [|now left].
      unfold memoryTokenValid in Hm.
      destruct (currentToken s) as [t0|]; [|discriminate].
      destruct (tokenExpiresAt s); [|discriminate].
      destruct (_ && _); [|discriminate]. now injection Hm as <-.
    + destruct (tokenFile s) as [cred|].
      * destruct (now env (tick s) <? expiresAt cred).
        -- intros [= <- <-]. split; [reflexivity | now left].
        -- intros H. destruct (Hrefresh _ _ H) as (A & B & C).
           split; [exact A | right; now split].
      * intros H. destruct (Hrefresh _ _ H) as (A & B & C).
        split; [exact A | right; now split].
Qed.

(** When the token file cannot be written, [refreshToken] throws although
    the authentication succeeded; the new token is kept in memory all the
    same, and the next [getJwtToken] returns it from there, without
    looking at the file, as long as the clock has not reached its
    expiry. *)
Theorem refresh_survives_write_failure (s : t) (jwt : string)
    (error : JsError) :
  authenticate env (tick s) = Returned jwt ->
  writeToken env (S (tick s)) = IoFail error ->
  let s' := snd (refreshToken env s) in
  fst (refreshToken env s)
  = Threw (plainError ("Token refresh failed: " +:+ message error))
  /\ currentToken s' = Some jwt
  /\ tokenExpiresAt s' = Some (now env (S (tick s)) + 60 * 60 * 1000)
  /\ (nonEmpty jwt = true ->
      now env (tick s') < now env (S (tick s)) + 60 * 60 * 1000 ->
      getJwtToken env s' = (Returned jwt, s')).
Proof.
  intros Ha Hw s'. subst s'. unfold refreshToken. rewrite Ha.
  cbn [tick emit setMemory]. rewrite Hw. cbn.
  repeat split. intros Hne Hnow.
  unfold getJwtToken, memoryTokenValid. cbn. rewrite Hne. cbn.
  apply Z.ltb_lt in Hnow. now rewrite Hnow.
Qed.

(** Back-off on rate limiting: while an unexpired token is in memory and
    the endpoint answers 429, [makeAPICall] sends [retriesLeft + 1]
    requests, pauses before each for the fixed delay and after each for the
    time of the [retry-after] header (60 seconds without one), also after
    the last request, and then throws. *)
Theorem rate_limit_backoff endpoint params operation tok exp
    (error : JsError) (retriesLeft : nat) (s : t) :
  nonEmpty tok = true ->
  (forall n, now env n < exp) ->
  (forall n, post env n endpoint params tok = Threw error) ->
  status error = Some 429%nat ->
  currentToken s = Some tok -> tokenExpiresAt s = Some exp ->
  let r := makeAPICallFrom env cfg retriesLeft endpoint params operation s in
  fst r = Threw (callError operation error)
  /\ posts (trace (snd r)) = (posts (trace s) + S retriesLeft)%nat
  /\ sleeps (trace (snd r))
     = sleeps (trace s)
       ++ concat (replicate (S retriesLeft)
                    [rateLimitDelay cfg; default 60 (retryAfter error) * 1000]).
Proof.
  intros Hne Hnow Hpost Hst. revert s.
  induction retriesLeft as [|k IH]; intros s Htok Hexp r; subst r;
    cbn [makeAPICallFrom]; unfold attempt;
    rewrite (ZoomInfoServiceFacts.getJwtToken_memory env _ tok exp)
      by (try assumption; apply Hnow);
    rewrite Hpost, Hst.
  - cbn [fst snd trace sleep emit].
    rewrite !posts_app, !sleeps_app. unfold posts, sleeps. cbn.
    rewrite <- !app_assoc. cbn. split; [reflexivity|]. split; [lia|reflexivity].
  - match goal with
    | |- context [makeAPICallFrom env cfg k _ _ _ ?s2] =>
        destruct (IH s2 Htok Hexp) as (Hr & Hp & Hs)
    end.
    rewrite Hr, Hp, Hs. cbn [trace sleep emit].
    rewrite !posts_app, !sleeps_app. unfold posts, sleeps. cbn.
    rewrite <- !app_assoc. cbn. split; [reflexivity|]. split; [lia|reflexivity].
Qed.

End Calls.

Lemma other_errors_not_retried_witness :
  let env : @Env unit string :=
    {| now := fun _ => 1000;
       authenticate := fun _ => Returned "fresh-token";
       writeToken := fun _ => IoOk;
       post := fun _ _ _ _ =>
         Threw {| message := "Request failed with status code 500";
                  status := Some 500%nat; retryAfter := None |} |} in
  makeAPICall env Scenarios.threeRetries "search/contact" tt "Contact search" 0
    Scenarios.staleClient
  = (Threw (plainError
       "Contact search failed: 500 - Request failed with status code 500"),
     emit (Post "search/contact" "stale-token")
       (sleep 100 Scenarios.staleClient)).
Proof.
  intros env.
  apply (other_errors_not_retried env Scenarios.threeRetries "search/contact"
           tt "Contact search" 0 Scenarios.staleClient
           (emit (Post "search/contact" "stale-token")
              (sleep 100 Scenarios.staleClient))
           {| message := "Request failed with status code 500";
              status := Some 500%nat; retryAfter := None |});
    [reflexivity | discriminate | discriminate].
Defined.

Lemma refresh_survives_write_failure_witness :
  let env : @Env unit string :=
    {| now := fun n => Z.of_nat n;
       authenticate := fun _ => Returned "fresh-token";
       writeToken := fun _ => IoFail (plainError "EACCES: permission denied");
       post := fun _ _ _ _ => Returned "companies" |} in
  let s := {| currentToken := None; tokenExpiresAt := None;
              tokenFile := None; tick := 0; trace := [] |} in
  fst (refreshToken env s)
  = Threw (plainError "Token refresh failed: EACCES: permission denied")
  /\ getJwtToken env (snd (refreshToken env s))
     = (Returned "fresh-token", snd (refreshToken env s)).
Proof.
  intros env s.
  destruct (refresh_survives_write_failure env s "fresh-token"
              (plainError "EACCES: permission denied") eq_refl eq_refl)
    as (H1 & _ & _ & H4).
  split; [exact H1|]. apply H4; [reflexivity|]. cbn. lia.
Defined.

Lemma rate_limit_backoff_witness :
  let tooMany := {| message := "Request failed with status code 429";
                    status := Some 429%nat; retryAfter := Some 2 |} in
  let env : @Env unit string :=
    {| now := fun _ => 1000;
       authenticate := fun _ => Returned "fresh-token";
       writeToken := fun _ => IoOk;
       post := fun _ _ _ _ => Threw tooMany |} in
  let r := makeAPICallFrom env Scenarios.threeRetries 3 "search/company" tt
             "Company search" Scenarios.staleClient in
  posts (trace (snd r)) = 4%nat
  /\ sleeps (trace (snd r)) = [100; 2000; 100; 2000; 100; 2000; 100; 2000].
Proof.
  intros tooMany env r.
  destruct (rate_limit_backoff env Scenarios.threeRetries "search/company" tt
              "Company search" "stale-token" 3600000 tooMany 3
              Scenarios.staleClient) as (_ & Hp & Hs);
    [reflexivity | intros n; cbn; lia | reflexivity | reflexivity
     | reflexivity | reflexivity |].
  split; [exact Hp | exact Hs].
Defined.

End ZoomInfoServiceMore.

(** ** services/leadProcessor.js: what a run asks for and what it keeps *)

Module CrawlFacts.
Import JS Effects BucketService BucketServiceFacts LeadProcessor
       LeadProcessorFacts Crawl.

Lemma companySearches_app (a b : list Event) :
  companySearches (a ++ b) = companySearches a ++ companySearches b.
Proof. unfold companySearches. apply omap_app. Qed.


Lemma contactSearches_app (a b : list Event) :
  contactSearches (a ++ b) = contactSearches a ++ contactSearches b.
Proof. unfold contactSearches. apply omap_app. Qed.

Section Traces.
Variable env : Env.
Variable cfg : Config.

Lemma enrichOne_trace company jobTitle location naicsCode st contact :
  exists evs,
    trace (snd (enrichOne env company jobTitle location naicsCode st contact))
    = trace (snd st) ++ evs
    /\ companySearches evs = [] /\ contactSearches evs = [].
Proof.
  destruct st as [acc w]. unfold enrichOne.
  exists [Enrich (toString (ctId contact))].
  repeat case_match; cbn [snd trace emit]; repeat split.
Qed.

Lemma enrichAll_trace company jobTitle location naicsCode contacts st :
  exists evs,
    trace (snd (foldl (enrichOne env company jobTitle location naicsCode)
                      st contacts))
    = trace (snd st) ++ evs
    /\ companySearches evs = [] /\ contactSearches evs = [].
Proof.
  revert st. induction contacts as [|c cs IH]; intros st; simpl.
  - exists []. now rewrite app_nil_r.
  - destruct (enrichOne_trace company jobTitle location naicsCode st c)
      as (e1 & H1 & A1 & B1).
    destruct (IH (enrichOne env company jobTitle location naicsCode st c))
      as (e2 & H2 & A2 & B2).
    exists (e1 ++ e2). rewrite H2, H1, <- app_assoc.
    rewrite companySearches_app, contactSearches_app, A1, A2, B1, B2.
    repeat split.
Qed.

Lemma processCompany_trace jobTitle location naicsCode st company :
  fst (fst (processCompany env cfg jobTitle location naicsCode st company))
  = fst (fst st) ++ [companyData company location naicsCode]
  /\ exists evs,
      trace (snd (processCompany env cfg jobTitle location naicsCode st company))
      = trace (snd st) ++ ContactSearch (contactSearchFor cfg jobTitle company) :: evs
      /\ companySearches evs = [] /\ contactSearches evs = [].
Proof.
  destruct st as [[cs ks] w]. unfold processCompany.
  fold (contactSearchFor cfg jobTitle company).
  destruct (searchContacts env (tick w) _) as [res|e]; cbn [fst snd].
  - match goal with
    | |- context [foldl ?f ?st ?l] =>
        destruct (enrichAll_trace company jobTitle location naicsCode l st)
          as (evs & H & A & B);
        destruct (foldl f st l) as [ks' w2]
    end.
    cbn [fst snd trace emit countProcessed withSm] in *.
    split; [reflexivity|]. exists evs. rewrite H, <- app_assoc. now repeat split.
  - split; [reflexivity|]. exists []. now repeat split.
Qed.

Lemma processCompanies_trace jobTitle location naicsCode companies st :
  let r := foldl (processCompany env cfg jobTitle location naicsCode)
                 st companies in
  fst (fst r)
  = fst (fst st) ++ map (fun c => companyData c location naicsCode) companies
  /\ exists evs,
      trace (snd r) = trace (snd st) ++ evs
      /\ companySearches evs = []
      /\ contactSearches evs = map (contactSearchFor cfg jobTitle) companies.
Proof.
  revert st. induction companies as [|c cs IH]; intros st; cbn [foldl map].
  - rewrite app_nil_r. split; [reflexivity|]. exists [].
    now rewrite app_nil_r.
  - destruct (processCompany_trace jobTitle location naicsCode st c)
      as (H1 & e1 & T1 & A1 & B1).
    destruct (IH (processCompany env cfg jobTitle location naicsCode st c))
      as (H2 & e2 & T2 & A2 & B2).
    split.
    + rewrite H2, H1, <- app_assoc. reflexivity.
    + exists (ContactSearch (contactSearchFor cfg jobTitle c) :: e1 ++ e2).
      rewrite T2, T1, <- app_assoc. split; [reflexivity|].
      change (ContactSearch (contactSearchFor cfg jobTitle c) :: e1 ++ e2)
        with ([ContactSearch (contactSearchFor cfg jobTitle c)] ++ e1 ++ e2).
      rewrite !companySearches_app, !contactSearches_app, A1, A2, B1, B2.
      split; reflexivity.
Qed.

(** Every company handed to [processCompaniesContacts] is put out, in
    order and whether or not its contact search or any enrichment fails,
    and is searched for contacts exactly once, with the job title, the
    accuracy floor of 75, partial profiles excluded and the batch size. *)
Theorem every_company_recorded (companies : list Company)
    (jobTitle location naicsCode : string) (w : World) :
  let r := processCompaniesContacts env cfg companies jobTitle location
             naicsCode w in
  fst (fst r) = map (fun c => companyData c location naicsCode) companies
  /\ contactSearches (trace (snd r))
     = contactSearches (trace w)
       ++ map (fun c => {| companyId := toString (coId c);
                           jobTitle := jobTitle;
                           contactAccuracyScoreMin := "75";
                           excludePartialProfiles := true;
                           ctRpp := batchSize cfg |}) companies.
Proof.
  intros r. subst r. unfold processCompaniesContacts.
  destruct (processCompanies_trace jobTitle location naicsCode companies
              ([], [], w)) as (H & evs & T & _ & B).
  cbn [fst snd] in *. split; [exact H|].
  rewrite T, contactSearches_app, B. reflexivity.
Qed.









(** *** Deduplication *)

Lemma fresh_companies_excluded (s : gset string) location naicsCode
    (newCompanies : list Company) :
  Forall (fun c => isCompanyExcluded s (coId c) = false) newCompanies ->
  Forall (fun id =>
            (id ∉ s)
            /\ id ∈ addAll (map (fun c => StrId (toString (coId c)))
                                newCompanies) s)
         (ziIds (map (fun c => companyData c location naicsCode)
                     newCompanies)).
Proof.
  intros H. unfold ziIds. rewrite map_map. cbn [cdZiId companyData].
  apply Forall_forall. intros id Hid.
  apply list_elem_of_In, in_map_iff in Hid. destruct Hid as (c & <- & Hc).
  rewrite Forall_forall in H.
  specialize (H c (proj2 (list_elem_of_In _ _) Hc)).
  split; [now apply isCompanyExcluded_false|].
  apply elem_of_addAll. right. rewrite map_map. cbn [toString].
  apply in_map_iff. now exists c.
Qed.

Lemma filter_all {A} (P : A -> Prop) `{forall x, Decision (P x)} (l : list A) :
  Forall P (filter P l).
Proof.
  apply Forall_forall. intros x Hx. now apply list_elem_of_filter in Hx.
Qed.

Lemma pageBody_exclusions location naicsCode jobTitle page n found w :
  let r := pageBody env cfg location naicsCode jobTitle page n found w in
  companyExclusions w ⊆ companyExclusions (snd r)
  /\ exists newCs,
      combinationCompanies (snd (fst r)) = combinationCompanies found ++ newCs
      /\ Forall (fun id => (id ∉ companyExclusions w)
                           /\ id ∈ companyExclusions (snd r)) (ziIds newCs).
Proof.
  intros r. subst r.
  assert (H0 : forall w0 : World,
             companyExclusions w0 = companyExclusions w ->
             companyExclusions w ⊆ companyExclusions w0
             /\ exists newCs,
                 combinationCompanies found = combinationCompanies found ++ newCs
                 /\ Forall (fun id => (id ∉ companyExclusions w)
                                      /\ id ∈ companyExclusions w0)
                           (ziIds newCs)).
  { intros w0 ->. split; [reflexivity|]. exists [].
    rewrite app_nil_r. split; [reflexivity | constructor]. }
  assert (Hfin : forall p k res f w0,
             snd (finishPage cfg p k res f w0) = setPage (p + 1) w0
             /\ snd (fst (finishPage cfg p k res f w0)) = f)
    by (intros; unfold finishPage; repeat case_match; split; reflexivity).
  unfold pageBody.
  destruct (searchCompanies env (tick w) _) as [res|e];
    [|now apply H0].
  destruct (crData res) as [[|c data]|]; [now apply H0| |now apply H0].
  pose proof (filter_all
                (fun company =>
                   isCompanyExcluded
                     (companyExclusions
                        (emit (CompanySearch
                                 {| metroRegion :=
                                      if isMetroRegion location
                                      then Some location else None;
                                    state :=
                                      if isMetroRegion location
                                      then None else Some location;
                                    naicsCodes := naicsCode;
                                    rpp := batchSize cfg;
                                    page := page |}) w))
                     (coId company) = false) (c :: data)) as Hnew.
  destruct (filter _ (c :: data)) as [|c' new].
  - destruct (3 <=? S n)%nat; [now apply H0|].
    destruct (Hfin page (S n) res found
                (emit (CompanySearch
                         {| metroRegion :=
                              if isMetroRegion location
                              then Some location else None;
                            state :=
                              if isMetroRegion location
                              then None else Some location;
                            naicsCodes := naicsCode;
                            rpp := batchSize cfg;
                            page := page |}) w)) as [-> ->].
    now apply H0.
  - cbn [companyExclusions emit] in Hnew.
    pose proof (fresh_companies_excluded _ location naicsCode _ Hnew) as Hfresh.
    match goal with
    | |- context [processCompaniesContacts env cfg _ _ _ _ ?w1] =>
        pose proof (processCompaniesContacts_quiet env cfg (c' :: new)
                      jobTitle location naicsCode w1) as [_ Hq];
        unfold processCompaniesContacts in *;
        destruct (processCompanies_trace jobTitle location naicsCode
                    (c' :: new) ([], [], w1)) as (Hcs & _)
    end.
    destruct (foldl _ _ (c' :: new)) as [[cs ks] w2].
    cbn [fst snd app] in Hcs, Hq. cbn [companyExclusions emit] in Hq.
    match goal with
    | |- context [LeadProcessor.updateCompanyExclusions env ?ids w2] =>
        pose proof (updateCompanyExclusions_world env ids w2) as [_ Hu];
        destruct (LeadProcessor.updateCompanyExclusions env ids w2)
          as [[u|e] w3]
    end; cbn [snd] in Hu; rewrite Hq in Hu.
    + match goal with
      | |- context [finishPage cfg ?p ?k ?r ?f ?w0] =>
          destruct (Hfin p k r f w0) as [-> ->]
      end.
      cbn [companyExclusions setPage withSm combinationCompanies].
      rewrite Hu. split.
      * intros x Hx. apply elem_of_addAll. now left.
      * exists cs. split; [reflexivity|]. rewrite Hcs. exact Hfresh.
    + cbn [fst snd combinationCompanies]. rewrite Hu. split.
      * intros x Hx. apply elem_of_addAll. now left.
      * exists cs. split; [reflexivity|]. rewrite Hcs. exact Hfresh.
Qed.

(** Deduplication across the pages of a combination: the exclusion set
    only grows, and every company the page loop adds to its output was not
    excluded when the loop started and is excluded when it ends, also when
    writing the exclusion list failed. *)
Theorem emitted_companies_become_excluded (fuel : nat)
    (location naicsCode jobTitle : string) (page : Z) (n : nat)
    (found : Found) (w : World) :
  match pageLoop env cfg fuel location naicsCode jobTitle page n found w with
  | Some (_, found', w') =>
      companyExclusions w ⊆ companyExclusions w'
      /\ exists newCs,
          combinationCompanies found' = combinationCompanies found ++ newCs
          /\ Forall (fun id => (id ∉ companyExclusions w)
                               /\ id ∈ companyExclusions w') (ziIds newCs)
  | None => True
  end.
Proof.
  revert page n found w. induction fuel as [|fuel IH]; intros page n found w;
    [exact I|].
  cbn [pageLoop].
  pose proof (pageBody_exclusions location naicsCode jobTitle page n found w)
    as (Hsub & cs1 & Hcs1 & Hall1).
  destruct (pageBody env cfg location naicsCode jobTitle page n found w)
    as [[[page' n'|why] found1] w1]; cbn [fst snd] in *.
  - specialize (IH page' n' found1 w1).
    destruct (pageLoop env cfg fuel location naicsCode jobTitle page' n'
                found1 w1) as [[[why found'] w']|]; [|exact I].
    destruct IH as (Hsub2 & cs2 & Hcs2 & Hall2). split.
    + intros x Hx. apply Hsub2, Hsub, Hx.
    + exists (cs1 ++ cs2). rewrite Hcs2, Hcs1, <- app_assoc.
      split; [reflexivity|]. unfold ziIds in *. rewrite map_app.
      apply Forall_app. split.
      * eapply Forall_impl; [exact Hall1|]. cbn. intros id [A B].
        split; [exact A | apply Hsub2, B].
      * eapply Forall_impl; [exact Hall2|]. cbn. intros id [A B].
        split; [|exact B]. intros Hin. apply A, Hsub, Hin.
  - split; [exact Hsub|]. exists cs1. split; [exact Hcs1 | exact Hall1].
Qed.

End Traces.


(** Two combinations that differ in the job title only, and a run resumed
    at the second: pages 1 and 2 are asked for once, not twice. *)
Example resumed_run_searches :
  option_map (fun '(o, w') => (o, searchedPages (trace w')))
    (processAllCombinations (Scenarios.pagesEnv 2) Scenarios.batchOf50 10
       [Scenarios.colorado; Scenarios.coloradoSupervisors]
       (Scenarios.worldOf (Scenarios.interruptedAt 1 3) ∅))
  = Some (Returned tt, [1; 2])
  /\ option_map (fun '(o, w') => (o, searchedPages (trace w')))
       (processAllCombinations (Scenarios.pagesEnv 2) Scenarios.batchOf50 10
          [Scenarios.colorado; Scenarios.coloradoSupervisors]
          (Scenarios.worldOf (Scenarios.interruptedAt 0 3) ∅))
     = Some (Returned tt, [1; 2; 1; 2]).
Proof. vm_compute. split; reflexivity. Qed.

(** *** What the pipeline leaves alone *)

Section Frame.
Variable env : Env.
Variable cfg : Config.
Variable R : World -> World -> Prop.
Hypothesis R_refl : forall w, R w w.
Hypothesis R_trans : forall w1 w2 w3, R w1 w2 -> R w2 w3 -> R w1 w3.
Hypothesis R_emit : forall ev w, R w (emit ev w).
Hypothesis R_count : forall ks w, R w (countProcessed ks w).
Hypothesis R_page : forall p w, R w (setPage p w).
Hypothesis R_excl : forall s w, R w (withExclusions s w).

Lemma enrichOne_frame company jobTitle location naicsCode st contact :
  R (snd st) (snd (enrichOne env company jobTitle location naicsCode st contact)).
Proof.
  destruct st as [acc w]. unfold enrichOne.
  repeat case_match; cbn [snd]; apply R_emit.
Qed.

Lemma enrichAll_frame company jobTitle location naicsCode contacts st :
  R (snd st)
    (snd (foldl (enrichOne env company jobTitle location naicsCode) st contacts)).
Proof.
  revert st. induction contacts as [|c cs IH]; intros st; simpl.
  - apply R_refl.
  - eapply R_trans; [apply enrichOne_frame | apply IH].
Qed.

Lemma processCompany_frame jobTitle location naicsCode st company :
  R (snd st) (snd (processCompany env cfg jobTitle location naicsCode st company)).
Proof.
  destruct st as [[cs ks] w]. unfold processCompany.
  destruct (searchContacts env _ _) as [res|e]; cbn [snd]; [|apply R_emit].
  match goal with
  | |- context [foldl ?f ?st ?l] =>
      pose proof (enrichAll_frame company jobTitle location naicsCode l st) as H;
      destruct (foldl f st l) as [ks' w2]
  end.
  cbn [snd] in *.
  eapply R_trans; [apply R_emit|]. eapply R_trans; [exact H | apply R_count].
Qed.

Lemma processCompaniesContacts_frame companies jobTitle location naicsCode w :
  R w (snd (processCompaniesContacts env cfg companies jobTitle location
              naicsCode w)).
Proof.
  unfold processCompaniesContacts.
  change w with (snd (@nil CompanyData, @nil ContactData, w)) at 1.
  generalize (@nil CompanyData, @nil ContactData, w).
  induction companies as [|c cs IH]; intros st; simpl.
  - apply R_refl.
  - eapply R_trans; [apply processCompany_frame | apply IH].
Qed.

Lemma updateCompanyExclusions_frame ids w :
  R w (snd (LeadProcessor.updateCompanyExclusions env ids w)).
Proof.
  unfold LeadProcessor.updateCompanyExclusions.
  destruct (persistExclusions env (tick w)) as [wf up].
  destruct (BucketService.updateCompanyExclusions ids wf up _) as [r s].
  cbn [snd]. eapply R_trans; [apply R_emit | apply R_excl].
Qed.

Lemma pageBody_frame location naicsCode jobTitle page n found w :
  R w (snd (pageBody env cfg location naicsCode jobTitle page n found w)).
Proof.
  assert (Hfin : forall p k res f w0, R w w0 ->
             R w (snd (finishPage cfg p k res f w0))).
  { intros p k res f w0 H. rewrite finishPage_world.
    eapply R_trans; [exact H | apply R_page]. }
  unfold pageBody.
  destruct (searchCompanies env (tick w) _) as [res|e]; [|apply R_emit].
  destruct (crData res) as [[|c data]|]; [apply R_emit| |apply R_emit].
  destruct (filter _ (c :: data)) as [|c' new].
  - destruct (3 <=? S n)%nat; [apply R_emit | apply Hfin, R_emit].
  - match goal with
    | |- context [processCompaniesContacts env cfg _ _ _ _ ?w1] =>
        pose proof (processCompaniesContacts_frame (c' :: new) jobTitle
                      location naicsCode w1) as Hp
    end.
    destruct (processCompaniesContacts env cfg (c' :: new) _ _ _ _)
      as [[cs ks] w2]. cbn [snd] in Hp.
    match goal with
    | |- context [LeadProcessor.updateCompanyExclusions env ?ids w2] =>
        pose proof (updateCompanyExclusions_frame ids w2) as Hu;
        destruct (LeadProcessor.updateCompanyExclusions env ids w2)
          as [[u|e] w3]
    end; cbn [snd] in Hu;
      assert (H3 : R w w3)
        by (eapply R_trans; [apply R_emit|];
            eapply R_trans; [exact Hp | exact Hu]).
    + now apply Hfin.
    + exact H3.
Qed.

Lemma pageLoop_frame fuel location naicsCode jobTitle :
  forall page n found w r,
    pageLoop env cfg fuel location naicsCode jobTitle page n found w = Some r ->
    R w (snd r).
Proof.
  induction fuel as [|fuel IH]; intros page n found w r; [discriminate|].
  cbn [pageLoop].
  pose proof (pageBody_frame location naicsCode jobTitle page n found w) as Hb.
  destruct (pageBody env cfg location naicsCode jobTitle page n found w)
    as [[[page' n'|why] found'] w']; cbn [snd] in Hb.
  - intros H. eapply R_trans; [exact Hb | exact (IH _ _ _ _ _ H)].
  - intros [= <-]. exact Hb.
Qed.

Lemma processCombination_frame fuel location naicsCode jobTitle w r :
  processCombination env cfg fuel location naicsCode jobTitle w = Some r ->
  R w (snd r)
  /\ (forall u, fst r = Returned u ->
                StateManager.currentPage (StateManager.state (sm (snd r))) = 1)
  /\ (forall e, fst r = Threw e -> exists k, storeResults env k = IoFail e).
Proof.
  unfold processCombination.
  destruct (pageLoop env cfg fuel location naicsCode jobTitle (startPage w) 0
              noneFound w) as [[[why found] w1]|] eqn:Hloop; [|discriminate].
  pose proof (pageLoop_frame _ _ _ _ _ _ _ _ _ Hloop) as H1. cbn [snd] in H1.
  assert (Hsave : R w (snd (saveResults env found w1))
                  /\ forall e, fst (saveResults env found w1) = Threw e ->
                                exists k, storeResults env k = IoFail e).
  { unfold saveResults. destruct (storeResults env (tick w1)) eqn:E; cbn [fst snd].
    - split; [eapply R_trans; [exact H1 | apply R_emit] | discriminate].
    - split; [eapply R_trans; [exact H1 | apply R_emit]|].
      intros e0 [= <-]. now exists (tick w1). }
  destruct Hsave as [Hs He].
  destruct (saveResults env found w1) as [[u|e] w2]; cbn [fst snd] in *;
    destruct (combinationCompanies found), (combinationContacts found);
    intros [= <-]; cbn [fst snd];
    (split; [try (eapply R_trans; [|apply R_page]); eassumption|]);
    (split; [intros; try discriminate; reflexivity|]);
    intros e0 He0; try discriminate; now apply He.
Qed.

End Frame.

Lemma sameJob_refl w : sameJob w w.
Proof. repeat split. Qed.

Lemma sameJob_trans w1 w2 w3 : sameJob w1 w2 -> sameJob w2 w3 -> sameJob w1 w3.
Proof.
  unfold sameJob. cbv zeta.
  intros (A1 & A2 & A3 & A4) (B1 & B2 & B3 & B4).
  repeat split; congruence.
Qed.

(** One combination at a time: [processCombination] leaves the completion
    flag, the completion time, the start time and the combination index
    of the progress record as they are; when it returns it has reset the
    page to 1, and when it throws, the error is the one of the failed CSV
    export or upload. *)
Theorem processCombination_keeps_job (env : Env) (cfg : Config) (fuel : nat)
    (location naicsCode jobTitle : string) (w : World) :
  match processCombination env cfg fuel location naicsCode jobTitle w with
  | Some (Returned _, w') =>
      sameJob w w'
      /\ StateManager.currentPage (StateManager.state (sm w')) = 1
  | Some (Threw error, w') =>
      sameJob w w' /\ exists k, storeResults env k = IoFail error
  | None => True
  end.
Proof.
  destruct (processCombination env cfg fuel location naicsCode jobTitle w)
    as [[[u|e] w']|] eqn:H; [| |exact I];
    destruct (processCombination_frame env cfg sameJob sameJob_refl
                sameJob_trans
                (fun ev w0 => sameJob_refl (emit ev w0))
                (fun ks w0 => sameJob_refl (countProcessed ks w0))
                (fun p w0 => sameJob_refl (setPage p w0))
                (fun s0 w0 => sameJob_refl (withExclusions s0 w0))
                _ _ _ _ _ _ H) as (A & B & C); cbn [fst snd] in *.
  - split; [exact A | now apply (B u)].
  - split; [exact A | now apply C].
Qed.

Lemma combinationLoop_result (env : Env) (cfg : Config) (fuel : nat) :
  forall rest combinationIndex w,
    match combinationLoop env cfg fuel combinationIndex rest w with
    | Some (Returned _, w') =>
        StateManager.completed (StateManager.state (sm w')) = true
    | Some (Threw error, w') =>
        StateManager.completed (StateManager.state (sm w'))
        = StateManager.completed (StateManager.state (sm w))
        /\ exists k, storeResults env k = IoFail error
    | None => True
    end.
Proof.
  induction rest as [|c rest IH]; intros idx w; cbn [combinationLoop].
  - unfold markCompleted, StateManager.markCompleted, StateManager.saveState.
    destruct (writeState env (tick w)); reflexivity.
  - destruct (processCombination env cfg fuel _ _ _ (enterCombination idx w))
      as [[[u|e] w1]|] eqn:H; [| |exact I];
      destruct (processCombination_frame env cfg
                  (fun a b => StateManager.completed (StateManager.state (sm b))
                              = StateManager.completed (StateManager.state (sm a)))
                  (fun _ => eq_refl)
                  (fun a b c Hab Hbc => eq_trans Hbc Hab)
                  (fun _ _ => eq_refl) (fun _ _ => eq_refl)
                  (fun _ _ => eq_refl) (fun _ _ => eq_refl)
                  _ _ _ _ _ _ H) as (A & _ & C); cbn [fst snd] in *.
    + specialize (IH (S idx) w1).
      destruct (combinationLoop env cfg fuel (S idx) rest w1)
        as [[[u2|e2] w2]|]; [exact IH| |exact I].
      destruct IH as [IH1 IH2]. split; [|exact IH2]. now rewrite IH1, A.
    + split; [exact A | now apply C].
Qed.

(** The end of a run: when [processAllCombinations] returns, the progress
    record says [completed], and any later call on that record, with any
    configuration, is a no-op; when it throws, the error is the one of a
    failed CSV export or upload and the record is not marked completed by
    this run, so that a restart goes on. *)
Theorem run_ends_completed_or_fails_open (env : Env) (cfg : Config)
    (fuel : nat) (searchCombinations : list SearchParams.Combination)
    (w : World) :
  match processAllCombinations env cfg fuel searchCombinations w with
  | Some (Returned _, w') =>
      StateManager.completed (StateManager.state (sm w')) = true
      /\ forall env2 cfg2 fuel2 combinations2,
           processAllCombinations env2 cfg2 fuel2 combinations2 w'
           = Some (Returned tt, w')
  | Some (Threw error, w') =>
      StateManager.completed (StateManager.state (sm w')) = false
      /\ StateManager.completed (StateManager.state (sm w)) = false
      /\ exists k, storeResults env k = IoFail error
  | None => True
  end.
Proof.
  unfold processAllCombinations at 1. unfold StateManager.getCurrentState.
  destruct (StateManager.completed (StateManager.state (sm w))) eqn:Hc.
  - split; [exact Hc|]. intros env2 cfg2 fuel2 combos2.
    unfold processAllCombinations, StateManager.getCurrentState.
    now rewrite Hc.
  - match goal with
    | |- context [combinationLoop env cfg fuel ?k ?rest w] =>
        pose proof (combinationLoop_result env cfg fuel rest k w) as H;
        destruct (combinationLoop env cfg fuel k rest w) as [[[u|e] w']|]
    end; [| |exact I].
    + split; [exact H|]. intros env2 cfg2 fuel2 combos2.
      unfold processAllCombinations, StateManager.getCurrentState.
      now rewrite H.
    + destruct H as [H1 H2]. rewrite H1, Hc. repeat split. exact H2.
Qed.

(** A persisted index at or beyond the end of the combination list (for
    instance after the configuration shrank) ends the run at once: no
    search is made and the record is marked completed. *)
Theorem index_past_the_end_completes (env : Env) (cfg : Config) (fuel : nat)
    (searchCombinations : list SearchParams.Combination) (w : World) :
  StateManager.completed (StateManager.state (sm w)) = false ->
  (length searchCombinations
   <= default 0 (StateManager.currentCombinationIndex
                   (StateManager.state (sm w))))%nat ->
  processAllCombinations env cfg fuel searchCombinations w
  = Some (Returned tt, markCompleted env w)
  /\ companySearches (trace (markCompleted env w)) = companySearches (trace w)
  /\ StateManager.completed (StateManager.state (sm (markCompleted env w)))
     = true.
Proof.
  intros Hc Hlen. unfold processAllCombinations, StateManager.getCurrentState.
  rewrite Hc, drop_ge by exact Hlen. cbn [combinationLoop].
  split; [reflexivity|]. split.
  - cbn [trace markCompleted withSm emit].
    now rewrite companySearches_app, app_nil_r.
  - unfold markCompleted, StateManager.markCompleted, StateManager.saveState.
    destruct (writeState env (tick w)); reflexivity.
Qed.

Lemma index_past_the_end_completes_witness :
  let w := Scenarios.worldOf (Scenarios.interruptedAt 5 2) ∅ in
  StateManager.completed (StateManager.state (sm w)) = false
  /\ processAllCombinations (Scenarios.pagesEnv 3) Scenarios.batchOf50 10
       [Scenarios.colorado; Scenarios.colorado] w
     = Some (Returned tt, markCompleted (Scenarios.pagesEnv 3) w).
Proof.
  intros w. split; [reflexivity|].
  apply (index_past_the_end_completes (Scenarios.pagesEnv 3)
           Scenarios.batchOf50 10 [Scenarios.colorado; Scenarios.colorado] w);
    [reflexivity | cbn; lia].
Defined.

(** *** Pages that fail, pages already seen *)

Section Pages.
Variable env : Env.
Variable cfg : Config.

Lemma failing_pageBody location naicsCode jobTitle page n found w :
  (forall k params, exists e,
      searchCompanies env k params = Threw e /\ saysPageTooHigh e = false) ->
  pageBody env cfg location naicsCode jobTitle page n found w
  = (if page + 1 >? 50 then Done SafetyLimit else More (page + 1) n,
     found,
     emit (CompanySearch (companySearchFor cfg location naicsCode page)) w).
Proof.
  intros Hfail. unfold pageBody.
  fold (companySearchFor cfg location naicsCode page).
  destruct (Hfail (tick w) (companySearchFor cfg location naicsCode page))
    as (e & -> & He).
  unfold afterError. unfold saysPageTooHigh in He. now rewrite He.
Qed.

Lemma failing_pageLoop location naicsCode jobTitle n found :
  (forall k params, exists e,
      searchCompanies env k params = Threw e /\ saysPageTooHigh e = false) ->
  forall d page w,
    page = 50 - Z.of_nat d ->
    exists w',
      pageLoop env cfg (S d) location naicsCode jobTitle page n found w
      = Some (SafetyLimit, found, w')
      /\ searchedPages (trace w')
         = searchedPages (trace w) ++ seqZ page (Z.of_nat (S d))
      /\ companyExclusions w' = companyExclusions w.
Proof.
  intros Hfail. induction d as [|d IH]; intros page w Hpage;
    cbn [pageLoop]; rewrite failing_pageBody by exact Hfail.
  - replace (page + 1 >? 50) with true
      by (symmetry; apply Z.gtb_lt; lia).
    eexists. split; [reflexivity|]. cbn [trace emit companyExclusions].
    rewrite searchedPages_app. split; reflexivity.
  - replace (page + 1 >? 50) with false
      by (symmetry; rewrite Z.gtb_ltb; apply Z.ltb_ge; lia).
    destruct (IH (page + 1)
                (emit (CompanySearch
                         (companySearchFor cfg location naicsCode page)) w))
      as (w' & Hloop & Hpages & Hex); [lia|].
    exists w'. split; [exact Hloop|]. split; [|exact Hex].
    rewrite Hpages. cbn [trace emit]. rewrite searchedPages_app, <- app_assoc.
    f_equal. rewrite (seqZ_cons page (Z.of_nat (S (S d)))) by lia.
    change (searchedPages
              [CompanySearch (companySearchFor cfg location naicsCode page)])
      with [page].
    cbn [app]. f_equal. f_equal; lia.
Qed.

(** Against an endpoint that fails on every page with an error other than
    [page number too high], the page loop started at a page [p] up to 50
    asks for the pages [p], [p+1], ..., 50, one request each, and then
    stops at the safety limit, having found nothing and excluded nothing. *)
Theorem failing_endpoint_stops_at_limit (location naicsCode jobTitle : string)
    (page : Z) (n : nat) (found : Found) (w : World) :
  (forall k params, exists e,
      searchCompanies env k params = Threw e /\ saysPageTooHigh e = false) ->
  page <= 50 ->
  exists w',
    pageLoop env cfg (Z.to_nat (51 - page)) location naicsCode jobTitle
             page n found w
    = Some (SafetyLimit, found, w')
    /\ searchedPages (trace w')
       = searchedPages (trace w) ++ seqZ page (51 - page)
    /\ companyExclusions w' = companyExclusions w.
Proof.
  intros Hfail Hpage.
  destruct (failing_pageLoop location naicsCode jobTitle n found Hfail
              (Z.to_nat (50 - page)) page w) as (w' & Hloop & Hpages & Hex);
    [lia|].
  exists w'.
  replace (Z.to_nat (51 - page)) with (S (Z.to_nat (50 - page))) by lia.
  replace (51 - page) with (Z.of_nat (S (Z.to_nat (50 - page)))) by lia.
  now repeat split.
Qed.

Lemma filter_none {A} (P : A -> Prop) `{forall x, Decision (P x)} (l : list A) :
  Forall (fun x => ~ P x) l -> filter P l = [].
Proof.
  induction 1 as [|x l Hx _ IH]; [reflexivity|].
  now rewrite filter_cons_False.
Qed.

Lemma stale_pageBody location naicsCode jobTitle page n found (w w0 : World) :
  (forall k params, exists res c cs,
      searchCompanies env k params = Returned res
      /\ crData res = Some (c :: cs)
      /\ Forall (fun c => isCompanyExcluded (companyExclusions w) (coId c)
                          = true) (c :: cs)) ->
  companyExclusions w0 = companyExclusions w ->
  exists step w1,
    pageBody env cfg location naicsCode jobTitle page n found w0
    = (step, found, w1)
    /\ companyExclusions w1 = companyExclusions w
    /\ (step = Done ThreeStalePages /\ (2 <= n)%nat
        \/ step = Done ReachedTotal
        \/ step = More (page + 1) (S n) /\ (n < 2)%nat).
Proof.
  intros Hseen Hex. unfold pageBody.
  match goal with
  | |- context [searchCompanies env (tick w0) ?params] =>
      destruct (Hseen (tick w0) params) as (res & c & cs & -> & Hdata & Hall)
  end.
  rewrite Hdata. cbn [companyExclusions emit]. rewrite Hex.
  rewrite filter_none
    by (eapply Forall_impl; [exact Hall|]; cbn; intros x ->; discriminate).
  destruct (3 <=? S n)%nat eqn:E.
  - eexists _, _. split; [reflexivity|]. split; [exact Hex|].
    left. split; [reflexivity|]. apply Nat.leb_le in E. lia.
  - apply Nat.leb_gt in E. unfold finishPage.
    destruct (totalPages cfg res) as [total|];
      [destruct (page >=? total)|];
      eexists _, _; (split; [reflexivity|]); (split; [exact Hex|]);
      [right; left; reflexivity | right; right; split; [reflexivity | lia]
       | right; right; split; [reflexivity | lia]].
Qed.

(** A tail of results that were all seen before costs at most three
    requests: when every page the API returns is non-empty and holds only
    companies that are excluded already, the page loop ends within three
    iterations, because three pages in a row brought nothing new or
    because the reported total was reached, with its output and the
    exclusion set unchanged. *)
Theorem seen_pages_cost_three (location naicsCode jobTitle : string)
    (page : Z) (found : Found) (w : World) :
  (forall k params, exists res c cs,
      searchCompanies env k params = Returned res
      /\ crData res = Some (c :: cs)
      /\ Forall (fun c => isCompanyExcluded (companyExclusions w) (coId c)
                          = true) (c :: cs)) ->
  exists why w' pages,
    pageLoop env cfg 3 location naicsCode jobTitle page 0 found w
    = Some (why, found, w')
    /\ (why = ThreeStalePages \/ why = ReachedTotal)
    /\ companyExclusions w' = companyExclusions w
    /\ searchedPages (trace w') = searchedPages (trace w) ++ page :: pages
    /\ (length (page :: pages) <= 3)%nat.
Proof.
  intros Hseen.
  assert (Hstep : forall p k w0,
    companyExclusions w0 = companyExclusions w ->
    exists step w1,
      pageBody env cfg location naicsCode jobTitle p k found w0
      = (step, found, w1)
      /\ companyExclusions w1 = companyExclusions w
      /\ searchedPages (trace w1) = searchedPages (trace w0) ++ [p]
      /\ (step = Done ThreeStalePages /\ (2 <= k)%nat
          \/ step = Done ReachedTotal
          \/ step = More (p + 1) (S k) /\ (k < 2)%nat)).
  { intros p k w0 Hex.
    destruct (stale_pageBody location naicsCode jobTitle p k found w w0
                Hseen Hex) as (step & w1 & Hb & Hex1 & Hcase).
    exists step, w1. split; [exact Hb|]. split; [exact Hex1|].
    split; [|exact Hcase].
    pose proof (pageBody_pages env cfg location naicsCode jobTitle p k found w0)
      as Hp.
    now rewrite Hb in Hp. }
  cbn [pageLoop].
  destruct (Hstep page 0%nat w eq_refl) as (s1 & w1 & -> & E1 & P1 & C1).
  destruct C1 as [[-> ?] | [-> | [-> _]]]; [lia| |].
  { exists ReachedTotal, w1, []. repeat split; auto. }
  destruct (Hstep (page + 1) 1%nat w1 E1) as (s2 & w2 & -> & E2 & P2 & C2).
  destruct C2 as [[-> ?] | [-> | [-> _]]]; [lia| |].
  { exists ReachedTotal, w2, [page + 1].
    rewrite P2, P1, <- app_assoc. repeat split; auto. }
  destruct (Hstep (page + 1 + 1) 2%nat w2 E2) as (s3 & w3 & -> & E3 & P3 & C3).
  destruct C3 as [[-> _] | [-> | [_ ?]]]; [| |lia].
  - exists ThreeStalePages, w3, [page + 1; page + 1 + 1].
    rewrite P3, P2, P1, <- !app_assoc. repeat split; auto.
  - exists ReachedTotal, w3, [page + 1; page + 1 + 1].
    rewrite P3, P2, P1, <- !app_assoc. repeat split; auto.
Qed.

End Pages.

Lemma failing_endpoint_stops_at_limit_witness :
  let env :=
    Scenarios.quiet (fun _ _ =>
      Threw (plainError
        "Company search failed: 500 - Request failed with status code 500")) in
  exists w',
    pageLoop env Scenarios.batchOf50 (Z.to_nat (51 - 48)) "Colorado" "236118"
      "Project Manager" 48 0 noneFound
      (Scenarios.worldOf StateManager.initialState ∅)
    = Some (SafetyLimit, noneFound, w')
    /\ searchedPages (trace w') = [48; 49; 50].
Proof.
  intros env.
  destruct (failing_endpoint_stops_at_limit env Scenarios.batchOf50
              "Colorado" "236118" "Project Manager" 48 0 noneFound
              (Scenarios.worldOf StateManager.initialState ∅))
    as (w' & H1 & H2 & _).
  - intros k params. eexists. split; reflexivity.
  - lia.
  - exists w'. split; [exact H1 | exact H2].
Defined.

Lemma seen_pages_cost_three_witness :
  let env :=
    Scenarios.quiet (fun _ _ =>
      Returned {| crData := Some [Scenarios.companyNo 7];
                  crTotalCount := Some 5000 |}) in
  exists why w' pages,
    pageLoop env Scenarios.batchOf50 3 "Colorado" "236118" "Project Manager"
      1 0 noneFound (Scenarios.worldOf StateManager.initialState {[ "7" ]})
    = Some (why, noneFound, w')
    /\ (length (1%Z :: pages) <= 3)%nat.
Proof.
  intros env.
  destruct (seen_pages_cost_three env Scenarios.batchOf50
              "Colorado" "236118" "Project Manager" 1 noneFound
              (Scenarios.worldOf StateManager.initialState {[ "7" ]}))
    as (why & w' & pages & H1 & _ & _ & _ & H5).
  - intros k params. eexists _, _, _. split; [reflexivity|].
    split; [reflexivity|]. constructor; [|constructor]. vm_compute. reflexivity.
  - exists why, w', pages. split; [exact H1 | exact H5].
Defined.

End CrawlFacts.

(** ** Durable writes: what becomes of a failure *)

Module PersistenceFacts.
Import JS Effects BucketService BucketServiceFacts LeadProcessor
       LeadProcessorFacts Crawl CrawlFacts.

Section Failures.
Variable env : Env.
Variable cfg : Config.

Lemma updateCompanyExclusions_outcome (ids : list ZiId) (w : World) :
  let r := LeadProcessor.updateCompanyExclusions env ids w in
  tick (snd r) = S (tick w)
  /\ trace (snd r) = trace w ++ [ExclusionsWrite]
  /\ sm (snd r) = sm w
  /\ fst r = match writeError (persistExclusions env (tick w)) with
             | Some error => Threw error
             | None => Returned tt
             end.
Proof.
  unfold LeadProcessor.updateCompanyExclusions, writeError,
    BucketService.updateCompanyExclusions.
  destruct (persistExclusions env (tick w)) as [[|e1] [|e2]]; repeat split.
Qed.

(** An iteration of the page loop whose last interaction is a failed
    attempt to store the exclusion list ends in the [catch] block, with
    the companies of the page in the output and the page of the progress
    record not advanced. *)
Lemma pageBody_failed_write location naicsCode jobTitle page n found w error :
  let r := pageBody env cfg location naicsCode jobTitle page n found w in
  last (trace (snd r)) = Some ExclusionsWrite ->
  writeError (persistExclusions env (pred (tick (snd r)))) = Some error ->
  fst (fst r) = afterError page 0 error
  /\ (length (combinationCompanies found)
      < length (combinationCompanies (snd (fst r))))%nat
  /\ StateManager.currentPage (StateManager.state (sm (snd r)))
     = StateManager.currentPage (StateManager.state (sm w)).
Proof.
  intros r. subst r. unfold pageBody.
  set (params := {| metroRegion := _ |}).
  assert (H0 : last (trace (emit (CompanySearch params) w))
               <> Some ExclusionsWrite)
    by (cbn [trace emit]; rewrite last_snoc; discriminate).
  assert (Hfin : forall p k res f w0,
             snd (finishPage cfg p k res f w0) = setPage (p + 1) w0
             /\ snd (fst (finishPage cfg p k res f w0)) = f)
    by (intros; unfold finishPage; repeat case_match; split; reflexivity).
  destruct (searchCompanies env (tick w) params) as [res|e];
    [|intros H; now destruct H0].
  destruct (crData res) as [[|c data]|];
    [intros H; now destruct H0| |intros H; now destruct H0].
  destruct (filter _ (c :: data)) as [|c' new].
  - destruct (3 <=? S n)%nat; [intros H; now destruct H0|].
    destruct (Hfin page (S n) res found (emit (CompanySearch params) w))
      as [-> _].
    intros H; now destruct H0.
  - pose proof (processCompaniesContacts_frame env cfg
                  (fun a b =>
                     StateManager.currentPage (StateManager.state (sm b))
                     = StateManager.currentPage (StateManager.state (sm a)))
                  (fun _ => eq_refl) (fun a b c Hab Hbc => eq_trans Hbc Hab)
                  (fun _ _ => eq_refl) (fun _ _ => eq_refl)
                  (c' :: new) jobTitle location naicsCode
                  (emit (CompanySearch params) w)) as Hpg.
    unfold processCompaniesContacts in *.
    destruct (processCompanies_trace env cfg jobTitle location naicsCode
                (c' :: new) ([], [], emit (CompanySearch params) w))
      as (Hcs & _).
    destruct (foldl _ _ (c' :: new)) as [[cs ks] w2].
    cbn [fst snd app] in Hcs, Hpg. cbn [sm emit] in Hpg.
    match goal with
    | |- context [LeadProcessor.updateCompanyExclusions env ?ids w2] =>
        destruct (updateCompanyExclusions_outcome ids w2)
          as (Ht & _ & Hsm & Ho);
        destruct (LeadProcessor.updateCompanyExclusions env ids w2)
          as [o w3]
    end.
    cbn [fst snd] in Ht, Ho, Hsm. intros _ Herr.
    assert (Hw : writeError (persistExclusions env (tick w2)) = Some error).
    { destruct o as [u|e];
        [destruct (Hfin page 0%nat res
                     {| combinationCompanies :=
                          combinationCompanies found ++ cs;
                        combinationContacts :=
                          combinationContacts found ++ ks |} w3) as [Hs _];
         rewrite Hs in Herr|];
        cbn [snd tick setPage withSm] in Herr; rewrite Ht in Herr;
        exact Herr. }
    rewrite Hw in Ho. subst o. cbn [fst snd combinationCompanies].
    split; [reflexivity|]. split; [|now rewrite Hsm].
    rewrite length_app, Hcs. cbn [map length]. lia.
Qed.

End Failures.

(** C2, as amended.  A failed write or upload of the exclusion list is
    thrown again by [updateCompanyExclusions], the set in memory keeping
    the new ids.  Its caller, the page loop of [processCombination],
    catches the error like any other error of the page: the companies of
    the page stay in the output, the progress update and the test for
    the last page are skipped, and the loop goes on with the next page
    (unless the message reads like a page number that is too high, or
    page 50 is passed).  A failed write of the progress file is not even
    thrown: [saveState] logs it and returns normally.  So neither failure
    aborts a combination or the run: [processCombination] and
    [processAllCombinations] throw only the error of a failed save of
    the results. *)
Theorem write_failures (env : Env) (cfg : Config) :
  (forall (A : Type) `{ToString A} (ids : list A) error u
          (s : gset string),
      BucketService.updateCompanyExclusions ids (IoFail error) u s
      = (Threw error, addAll ids s))
  /\ (forall (A : Type) `{ToString A} (ids : list A) error
             (s : gset string),
      BucketService.updateCompanyExclusions ids IoOk (IoFail error) s
      = (Threw error, addAll ids s))
  /\ (forall now write sm,
      fst (StateManager.saveState now write sm) = Returned tt)
  /\ (forall location naicsCode jobTitle page n found w error,
      let r := pageBody env cfg location naicsCode jobTitle page n found w in
      last (trace (snd r)) = Some ExclusionsWrite ->
      writeError (persistExclusions env (pred (tick (snd r)))) = Some error ->
      fst (fst r) = afterError page 0 error
      /\ (saysPageTooHigh error = false -> page < 50 ->
          fst (fst r) = More (page + 1) 0)
      /\ (length (combinationCompanies found)
          < length (combinationCompanies (snd (fst r))))%nat
      /\ StateManager.currentPage (StateManager.state (sm (snd r)))
         = StateManager.currentPage (StateManager.state (sm w)))
  /\ (forall fuel location naicsCode jobTitle w error w',
      processCombination env cfg fuel location naicsCode jobTitle w
      = Some (Threw error, w') ->
      exists k, storeResults env k = IoFail error)
  /\ (forall fuel searchCombinations w error w',
      processAllCombinations env cfg fuel searchCombinations w
      = Some (Threw error, w') ->
      exists k, storeResults env k = IoFail error).
Proof.
  split; [reflexivity|]. split; [reflexivity|]. split.
  { intros now write sm. unfold StateManager.saveState.
    now destruct write. }
  split.
  { intros location naicsCode jobTitle page n found w error r Hlast Herr.
    destruct (pageBody_failed_write env cfg location naicsCode jobTitle page
                n found w error Hlast Herr) as (Hstep & Hlen & Hsame).
    fold r in Hstep, Hlen, Hsame. split; [exact Hstep|].
    split; [|split; [exact Hlen | exact Hsame]].
    intros Hmsg Hpage. rewrite Hstep. unfold afterError.
    unfold saysPageTooHigh in Hmsg. rewrite Hmsg.
    replace (page + 1 >? 50) with false; [reflexivity|].
    symmetry. rewrite Z.gtb_ltb. apply Z.ltb_ge. lia. }
  split.
  { intros fuel location naicsCode jobTitle w error w' H.
    destruct (processCombination_frame env cfg (fun _ _ => True)
                (fun _ => I) (fun _ _ _ _ _ => I) (fun _ _ => I)
                (fun _ _ => I) (fun _ _ => I) (fun _ _ => I)
                _ _ _ _ _ _ H) as (_ & _ & C).
    now apply C. }
  intros fuel searchCombinations w error w'.
  unfold processAllCombinations, StateManager.getCurrentState.
  destruct (StateManager.completed (StateManager.state (sm w)));
    [discriminate|].
  match goal with
  | |- combinationLoop env cfg fuel ?k ?rest w = _ -> _ =>
      pose proof (combinationLoop_result env cfg fuel rest k w) as H
  end.
  intros Heq. rewrite Heq in H. now destruct H.
Qed.

Import Scenarios.

Lemma write_failures_witness :
  let r := pageBody (fullDiskEnv 2) batchOf50 "Colorado" "236118"
             "Project Manager" 1 0 noneFound
             (worldOf StateManager.initialState ∅) in
  last (trace (snd r)) = Some ExclusionsWrite
  /\ writeError (persistExclusions (fullDiskEnv 2) (pred (tick (snd r))))
     = Some noSpace
  /\ fst (fst r) = More 2 0
  /\ (0 < length (combinationCompanies (snd (fst r))))%nat.
Proof.
  intros r.
  assert (Hlast : last (trace (snd r)) = Some ExclusionsWrite)
    by (vm_compute; reflexivity).
  assert (Herr : writeError (persistExclusions (fullDiskEnv 2)
                               (pred (tick (snd r)))) = Some noSpace)
    by reflexivity.
  destruct (write_failures (fullDiskEnv 2) batchOf50)
    as (_ & _ & _ & Hpage & _).
  destruct (Hpage "Colorado" "236118" "Project Manager" 1 0%nat noneFound
              (worldOf StateManager.initialState ∅) noSpace Hlast Herr)
    as (_ & Hmore & Hlen & _).
  split; [exact Hlast|]. split; [exact Herr|].
  split; [apply Hmore; [reflexivity | lia] | exact Hlen].
Defined.

(** C2 as stated fails twice.  The error of a failed write of the state
    file does not reach the caller of [saveState].  And a failed write of
    the exclusion list, which [updateCompanyExclusions] does throw again,
    aborts nothing: on a full disk and against an API with two pages of
    one company each, [processCombination] returns normally; it has tried
    to store the list after each of the two pages, has gone on after each
    failure, asking even for a page 3 beyond the reported total (the test
    for the last page is skipped with the rest of the [try] block), and
    has saved the two companies; the run then marks the record as
    completed although the state file could not be written either. *)
Lemma write_failures_do_not_abort :
  let sm0 := {| StateManager.state := StateManager.initialState;
                StateManager.stateFile := None |} in
  let w := worldOf StateManager.initialState ∅ in
  fst (StateManager.saveState 1000 (IoFail noSpace) sm0) = Returned tt
  /\ fst (StateManager.saveState 1000 (IoFail noSpace) sm0) <> Threw noSpace
  /\ fst (BucketService.updateCompanyExclusions [StrId "1"]
            (IoFail noSpace) IoOk ∅) = Threw noSpace
  /\ option_map (fun '(o, w') =>
                   (o, searchedPages (trace w'), exclusionWrites (trace w'),
                    last (trace w')))
       (processCombination (fullDiskEnv 2) batchOf50 60
          "Colorado" "236118" "Project Manager" w)
     = Some (Returned tt, [1; 2; 3], 2%nat, Some (ResultsSave 2 0))
  /\ option_map (fun '(o, w') =>
                   (o, searchedPages (trace w'),
                    StateManager.completed (StateManager.state (sm w'))))
       (processAllCombinations (fullDiskEnv 2) batchOf50 60 [colorado] w)
     = Some (Returned tt, [1; 2; 3], true)
  /\ option_map (fun '(o, w') => searchedPages (trace w'))
       (processCombination (pagesEnv 2) batchOf50 60
          "Colorado" "236118" "Project Manager" w)
     = Some [1; 2].
Proof.
  split; [reflexivity|]. split; [discriminate|]. split; [reflexivity|].
  vm_compute. repeat split.
Qed.

End PersistenceFacts.

(** ** services/bucketService.js: where the exclusion list lives *)

Module BucketObjectsFacts.
Import BucketFiles BucketObjects.

(** The exclusion list is uploaded under one object name and downloaded
    under another: whatever [updateCompanyExclusions] uploads, a later
    [downloadCompanyExclusions] on the same bucket finds what it would have
    found before, and on a bucket that holds nothing else it finds no file
    and keeps the set it has. *)
Theorem upload_is_not_what_download_reads (content : string)
    (bucket : gmap string string) (current : gset string) :
  downloadCompanyExclusions (fetchExclusions (uploadExclusions content bucket))
                            current
  = downloadCompanyExclusions (fetchExclusions bucket) current
  /\ downloadCompanyExclusions (fetchExclusions (uploadExclusions content ∅))
                               current
     = current.
Proof.
  assert (H : forall b : gmap string string,
             fetchExclusions (uploadExclusions content b) = fetchExclusions b).
  { intros b. unfold fetchExclusions, uploadExclusions.
    rewrite lookup_insert_ne; [reflexivity|].
    unfold uploadedObject, downloadedObject. discriminate. }
  split; [now rewrite H|].
  rewrite H. reflexivity.
Qed.

End BucketObjectsFacts.

(** ** utils/csvWriter.js: the combined export *)

Module CsvWriterFacts.
Import LeadProcessor CsvWriter.

Lemma rowsFor_length contacts company :
  length (rowsFor contacts company)
  = Nat.max 1 (length (contactsOf contacts company)).
Proof.
  unfold rowsFor. destruct (contactsOf contacts company) as [|c cs];
    [reflexivity|].
  rewrite length_map. reflexivity.
Qed.

Lemma rowsFor_company contacts company row d :
  In row (rowsFor contacts company) ->
  cbCompanyZiId (row d) = cdZiId company
  /\ (cbContactZiId (row d) = ""
      \/ exists contact, In contact contacts
                         /\ kdCompanyZiId contact = cdZiId company
                         /\ cbContactZiId (row d) = kdZiId contact).
Proof.
  unfold rowsFor.
  destruct (contactsOf contacts company) as [|c cs] eqn:E.
  - intros [<- | []]. split; [reflexivity | now left].
  - intros (contact & <- & Hin)%in_map_iff. split; [reflexivity|]. right.
    exists contact. rewrite <- E in Hin.
    apply list_elem_of_In, list_elem_of_filter in Hin. destruct Hin as [Hm Hc].
    split; [now apply list_elem_of_In|]. split; [exact Hm | reflexivity].
Qed.

(** The combined export has one record per company without contacts and
    one per contact of a company otherwise; it is empty, and nothing is
    written, exactly when there is no company, whatever contacts there
    are; every record belongs to a listed company, and a contact shows up
    only under the company whose id it carries. *)
Theorem combined_export_shape (dateAt : nat -> string)
    (companies : list CompanyData) (contacts : list ContactData)
    (identifier : string) :
  length (combinedRecords dateAt companies contacts)
  = sum_list (map (fun company =>
                     Nat.max 1 (length (contactsOf contacts company)))
                  companies)
  /\ (writeCombined dateAt companies contacts identifier = None
      <-> companies = [])
  /\ Forall (fun record =>
               exists company,
                 In company companies
                 /\ cbCompanyZiId record = cdZiId company
                 /\ (cbContactZiId record = ""
                     \/ exists contact,
                          In contact contacts
                          /\ kdCompanyZiId contact = cdZiId company
                          /\ cbContactZiId record = kdZiId contact))
            (combinedRecords dateAt companies contacts).
Proof.
  assert (Hlen : length (combinedRecords dateAt companies contacts)
                 = sum_list (map (fun company =>
                      Nat.max 1 (length (contactsOf contacts company)))
                      companies)).
  { unfold combinedRecords. rewrite length_imap.
    induction companies as [|c cs IH]; [reflexivity|].
    cbn [flat_map map sum_list]. now rewrite length_app, rowsFor_length, IH. }
  split; [exact Hlen|]. split.
  - unfold writeCombined.
    destruct (combinedRecords dateAt companies contacts) as [|r rs] eqn:E.
    + split; [|reflexivity]. intros _.
      destruct companies as [|c cs]; [reflexivity|].
      cbn [map sum_list length] in Hlen. unfold id in Hlen. lia.
    + split; [discriminate|]. intros ->. discriminate.
  - apply Forall_forall. intros record Hrec. unfold combinedRecords in Hrec.
    apply elem_of_lookup_imap in Hrec. destruct Hrec as (i & row & -> & Hrow).
    apply list_elem_of_lookup_2, list_elem_of_In, in_flat_map in Hrow.
    destruct Hrow as (company & Hc & Hin).
    exists company. split; [exact Hc|].
    exact (rowsFor_company contacts company row (dateAt i) Hin).
Qed.

End CsvWriterFacts.

(** ** index.js *)

Module MainFacts.
Import Effects LeadProcessor Crawl CrawlFacts Main.

Lemma cleanup_state env w :
  StateManager.completed (StateManager.state (sm (cleanup env w)))
  = StateManager.completed (StateManager.state (sm w))
  /\ companySearches (trace (cleanup env w)) = companySearches (trace w)
  /\ (writeState env (tick w) = IoOk ->
      StateManager.stateFile (sm (cleanup env w))
      = Some (StateManager.state (sm (cleanup env w)))).
Proof.
  unfold cleanup, StateManager.saveState. cbn [sm withSm emit trace tick].
  rewrite companySearches_app, app_nil_r.
  destruct (writeState env (tick w)); repeat split. discriminate.
Qed.

(** The exit code tells how the run ended: started on a record that is not
    completed, [main] exits with 0 exactly when it leaves the record
    completed, and with 1 otherwise (unreadable state file, failed CSV
    export or upload); in both cases the record is saved on the way out,
    so that after a successful last write the state file holds the record
    in memory. *)
Theorem exit_code_tells_completion (env : Env) (cfg : Config) (fuel : nat)
    (searchCombinations : list SearchParams.Combination) (start : Start) :
  StateManager.completed (StateManager.state (manager start)) = false ->
  (forall s, stateRead start = StateManager.Parsed s ->
             StateManager.completed s = false) ->
  match main env cfg fuel searchCombinations start with
  | Some (code, w) =>
      (code = 0
       /\ StateManager.completed (StateManager.state (sm w)) = true
       \/ code = 1
          /\ StateManager.completed (StateManager.state (sm w)) = false)
      /\ ((forall k, writeState env k = IoOk) ->
          StateManager.stateFile (sm w) = Some (StateManager.state (sm w)))
  | None => True
  end.
Proof.
  intros Hfresh Hread. unfold main.
  destruct (StateManager.loadState (startedAt start) (stateRead start)
              (manager start)) as [[u|e] m] eqn:Hload.
  - assert (Hm : StateManager.completed (StateManager.state m) = false).
    { unfold StateManager.loadState in Hload.
      destruct (stateRead start) as [s0| |e0] eqn:Hr;
        inversion Hload; subst; cbn; [now apply Hread | exact Hfresh]. }
    match goal with
    | |- context [processAllCombinations env cfg fuel searchCombinations ?w0] =>
        set (w := w0)
    end.
    unfold processAllCombinations, StateManager.getCurrentState.
    change (StateManager.state (sm w)) with (StateManager.state m).
    rewrite Hm.
    match goal with
    | |- context [combinationLoop env cfg fuel ?k ?rest w] =>
        pose proof (combinationLoop_result env cfg fuel rest k w) as H;
        destruct (combinationLoop env cfg fuel k rest w) as [[[u2|e2] w']|]
    end; [| |exact I];
      destruct (cleanup_state env w') as (Hc & _ & Hf); rewrite Hc.
    + split; [left; now split | intros Hk; apply Hf, Hk].
    + destruct H as [H _]. change (StateManager.state (sm w))
        with (StateManager.state m) in H.
      split; [right; split; [reflexivity | now rewrite H]
             | intros Hk; apply Hf, Hk].
  - match goal with
    | |- context [cleanup env ?w0] =>
        destruct (cleanup_state env w0) as (Hc & _ & Hf); rewrite Hc
    end.
    assert (Hm : m = manager start).
    { unfold StateManager.loadState in Hload.
      destruct (stateRead start); inversion Hload; reflexivity. }
    subst m. cbn [sm]. split; [right; now split | intros Hk; apply Hf, Hk].
Qed.

Lemma exit_code_tells_completion_witness :
  let start :=
    {| stateRead := StateManager.NoEntry;
       exclusionsDownload := BucketFiles.NotInBucket;
       manager := {| StateManager.state := StateManager.initialState;
                     StateManager.stateFile := None |};
       startedAt := 0 |} in
  match main (Scenarios.pagesEnv 3) Scenarios.batchOf50 60
          [Scenarios.colorado] start with
  | Some (code, w) =>
      (code = 0
       /\ StateManager.completed (StateManager.state (sm w)) = true
       \/ code = 1
          /\ StateManager.completed (StateManager.state (sm w)) = false)
      /\ ((forall k, writeState (Scenarios.pagesEnv 3) k = IoOk) ->
          StateManager.stateFile (sm w) = Some (StateManager.state (sm w)))
  | None => True
  end.
Proof.
  intros start.
  apply (exit_code_tells_completion (Scenarios.pagesEnv 3)
           Scenarios.batchOf50 60 [Scenarios.colorado] start);
    [reflexivity | intros s; discriminate].
Defined.

(** An unreadable state file is replaced on the way out: when [loadState]
    fails (corrupt JSON, no permission), [main] makes no search, exits with
    1, and its [cleanup] writes the record the constructor built over the
    file, so that the next start reads a fresh record instead of failing
    again. *)
Theorem unreadable_state_is_overwritten (env : Env) (cfg : Config)
    (fuel : nat) (searchCombinations : list SearchParams.Combination)
    (start : Start) (error : JsError) :
  stateRead start = StateManager.ReadFail error ->
  writeState env 0 = IoOk ->
  exists w,
    main env cfg fuel searchCombinations start = Some (1, w)
    /\ companySearches (trace w) = []
    /\ StateManager.stateFile (sm w)
       = Some (StateManager.withLastSaveTime (clock env 0)
                 (StateManager.state (manager start)))
    /\ Restart.readBack (sm w)
       = StateManager.Parsed
           (StateManager.withLastSaveTime (clock env 0)
              (StateManager.state (manager start))).
Proof.
  intros Hread Hwrite. unfold main, StateManager.loadState. rewrite Hread.
  eexists. split; [reflexivity|].
  unfold cleanup, StateManager.saveState, Restart.readBack.
  cbn [sm withSm emit trace tick]. rewrite Hwrite.
  repeat split.
Qed.

Lemma unreadable_state_is_overwritten_witness :
  let start :=
    {| stateRead := StateManager.ReadFail
                      (plainError "Unexpected token in JSON at position 0");
       exclusionsDownload := BucketFiles.NotInBucket;
       manager := {| StateManager.state := StateManager.initialState;
                     StateManager.stateFile :=
                       Some (Scenarios.interruptedAt 7 3) |};
       startedAt := 0 |} in
  exists w,
    main (Scenarios.pagesEnv 3) Scenarios.batchOf50 60 [Scenarios.colorado]
      start = Some (1, w)
    /\ StateManager.stateFile (sm w)
       = Some (StateManager.withLastSaveTime 0 StateManager.initialState).
Proof.
  intros start.
  destruct (unreadable_state_is_overwritten (Scenarios.pagesEnv 3)
              Scenarios.batchOf50 60 [Scenarios.colorado] start
              (plainError "Unexpected token in JSON at position 0")
              eq_refl eq_refl) as (w & H1 & _ & H3 & _).
  exists w. split; [exact H1 | exact H3].
Defined.

End MainFacts.
